(** * AES with a Hamming-code fault-detection overlay

    A shallow embedding of [aes.c]: the GF(2^8) helpers, the Hamming codec,
    the parity predictors, the compare-and-correct step, the round
    transforms, the key schedule, the block pipelines and the ECB, CBC and
    CTR drivers, followed by the properties established about them. *)

From Stdlib Require Import ZArith List Lia Bool Btauto.
Import ListNotations.
Local Open Scope Z_scope.

(** ** Machine integers and arrays *)

(** A [uint8_t] is a [Z] in [0, 256).  [u8] is the conversion of an [int]
    expression to [uint8_t]; it is written where the C expression can leave
    the byte range. *)
Definition u8 (z : Z) : Z := z mod 256.

Definition is_byte (z : Z) : Prop := 0 <= z < 256.

Definition is_byteb (z : Z) : bool := (0 <=? z) && (z <? 256).

(** Arrays are lists read and written by index.  An access past the end is
    undefined behaviour in C; here a read yields 0 and a write is dropped. *)
Definition rd (a : list Z) (i : nat) : Z := nth i a 0.

Fixpoint wr (a : list Z) (i : nat) (v : Z) : list Z :=
  match a, i with
  | [], _ => []
  | _ :: t, O => v :: t
  | h :: t, S i' => h :: wr t i' v
  end.

(** [state_t] and [hamstate_t] are [uint8_t[4][4]]: sixteen contiguous
    bytes, element [[c][r]] at offset [4*c + r]. *)
Definition state_t := list Z.
Definition hamstate_t := list Z.

Definition mget (m : list Z) (c r : nat) : Z := rd m (4 * c + r).
Definition mset (m : list Z) (c r : nat) (v : Z) : list Z := wr m (4 * c + r) v.

(** [for (i = 0; i < 4; ++i)] *)
Definition for4 {A : Type} (body : nat -> A -> A) (a : A) : A :=
  fold_left (fun acc i => body i acc) [0; 1; 2; 3]%nat a.

(** ** Build-time constants *)

Inductive variant : Type := AES128 | AES192 | AES256.

Definition Nb : nat := 4.

Definition Nk (v : variant) : nat :=
  match v with AES256 => 8 | AES192 => 6 | AES128 => 4 end%nat.

Definition Nr (v : variant) : nat :=
  match v with AES256 => 14 | AES192 => 12 | AES128 => 10 end%nat.

(** Modelled from the spec: the macro [AES_BLOCKLEN] of [aes.h], which is
    not among the sources; the block is always 16 bytes. *)
Definition AES_BLOCKLEN : nat := 16.

(** Modelled from the spec: the macro [AES_keyExpSize] of [aes.h], the size
    of the round-key buffer, [Nb * (Nr + 1) * 4] bytes. *)
Definition AES_keyExpSize (v : variant) : nat := (Nb * (Nr v + 1) * 4)%nat.

(** ** Lookup tables *)

Definition sbox : list Z :=
  [
   0x63; 0x7c; 0x77; 0x7b; 0xf2; 0x6b; 0x6f; 0xc5; 0x30; 0x01; 0x67; 0x2b; 0xfe; 0xd7; 0xab; 0x76;
   0xca; 0x82; 0xc9; 0x7d; 0xfa; 0x59; 0x47; 0xf0; 0xad; 0xd4; 0xa2; 0xaf; 0x9c; 0xa4; 0x72; 0xc0;
   0xb7; 0xfd; 0x93; 0x26; 0x36; 0x3f; 0xf7; 0xcc; 0x34; 0xa5; 0xe5; 0xf1; 0x71; 0xd8; 0x31; 0x15;
   0x04; 0xc7; 0x23; 0xc3; 0x18; 0x96; 0x05; 0x9a; 0x07; 0x12; 0x80; 0xe2; 0xeb; 0x27; 0xb2; 0x75;
   0x09; 0x83; 0x2c; 0x1a; 0x1b; 0x6e; 0x5a; 0xa0; 0x52; 0x3b; 0xd6; 0xb3; 0x29; 0xe3; 0x2f; 0x84;
   0x53; 0xd1; 0x00; 0xed; 0x20; 0xfc; 0xb1; 0x5b; 0x6a; 0xcb; 0xbe; 0x39; 0x4a; 0x4c; 0x58; 0xcf;
   0xd0; 0xef; 0xaa; 0xfb; 0x43; 0x4d; 0x33; 0x85; 0x45; 0xf9; 0x02; 0x7f; 0x50; 0x3c; 0x9f; 0xa8;
   0x51; 0xa3; 0x40; 0x8f; 0x92; 0x9d; 0x38; 0xf5; 0xbc; 0xb6; 0xda; 0x21; 0x10; 0xff; 0xf3; 0xd2;
   0xcd; 0x0c; 0x13; 0xec; 0x5f; 0x97; 0x44; 0x17; 0xc4; 0xa7; 0x7e; 0x3d; 0x64; 0x5d; 0x19; 0x73;
   0x60; 0x81; 0x4f; 0xdc; 0x22; 0x2a; 0x90; 0x88; 0x46; 0xee; 0xb8; 0x14; 0xde; 0x5e; 0x0b; 0xdb;
   0xe0; 0x32; 0x3a; 0x0a; 0x49; 0x06; 0x24; 0x5c; 0xc2; 0xd3; 0xac; 0x62; 0x91; 0x95; 0xe4; 0x79;
   0xe7; 0xc8; 0x37; 0x6d; 0x8d; 0xd5; 0x4e; 0xa9; 0x6c; 0x56; 0xf4; 0xea; 0x65; 0x7a; 0xae; 0x08;
   0xba; 0x78; 0x25; 0x2e; 0x1c; 0xa6; 0xb4; 0xc6; 0xe8; 0xdd; 0x74; 0x1f; 0x4b; 0xbd; 0x8b; 0x8a;
   0x70; 0x3e; 0xb5; 0x66; 0x48; 0x03; 0xf6; 0x0e; 0x61; 0x35; 0x57; 0xb9; 0x86; 0xc1; 0x1d; 0x9e;
   0xe1; 0xf8; 0x98; 0x11; 0x69; 0xd9; 0x8e; 0x94; 0x9b; 0x1e; 0x87; 0xe9; 0xce; 0x55; 0x28; 0xdf;
   0x8c; 0xa1; 0x89; 0x0d; 0xbf; 0xe6; 0x42; 0x68; 0x41; 0x99; 0x2d; 0x0f; 0xb0; 0x54; 0xbb; 0x16 ].

Definition rsbox : list Z :=
  [
   0x52; 0x09; 0x6a; 0xd5; 0x30; 0x36; 0xa5; 0x38; 0xbf; 0x40; 0xa3; 0x9e; 0x81; 0xf3; 0xd7; 0xfb;
   0x7c; 0xe3; 0x39; 0x82; 0x9b; 0x2f; 0xff; 0x87; 0x34; 0x8e; 0x43; 0x44; 0xc4; 0xde; 0xe9; 0xcb;
   0x54; 0x7b; 0x94; 0x32; 0xa6; 0xc2; 0x23; 0x3d; 0xee; 0x4c; 0x95; 0x0b; 0x42; 0xfa; 0xc3; 0x4e;
   0x08; 0x2e; 0xa1; 0x66; 0x28; 0xd9; 0x24; 0xb2; 0x76; 0x5b; 0xa2; 0x49; 0x6d; 0x8b; 0xd1; 0x25;
   0x72; 0xf8; 0xf6; 0x64; 0x86; 0x68; 0x98; 0x16; 0xd4; 0xa4; 0x5c; 0xcc; 0x5d; 0x65; 0xb6; 0x92;
   0x6c; 0x70; 0x48; 0x50; 0xfd; 0xed; 0xb9; 0xda; 0x5e; 0x15; 0x46; 0x57; 0xa7; 0x8d; 0x9d; 0x84;
   0x90; 0xd8; 0xab; 0x00; 0x8c; 0xbc; 0xd3; 0x0a; 0xf7; 0xe4; 0x58; 0x05; 0xb8; 0xb3; 0x45; 0x06;
   0xd0; 0x2c; 0x1e; 0x8f; 0xca; 0x3f; 0x0f; 0x02; 0xc1; 0xaf; 0xbd; 0x03; 0x01; 0x13; 0x8a; 0x6b;
   0x3a; 0x91; 0x11; 0x41; 0x4f; 0x67; 0xdc; 0xea; 0x97; 0xf2; 0xcf; 0xce; 0xf0; 0xb4; 0xe6; 0x73;
   0x96; 0xac; 0x74; 0x22; 0xe7; 0xad; 0x35; 0x85; 0xe2; 0xf9; 0x37; 0xe8; 0x1c; 0x75; 0xdf; 0x6e;
   0x47; 0xf1; 0x1a; 0x71; 0x1d; 0x29; 0xc5; 0x89; 0x6f; 0xb7; 0x62; 0x0e; 0xaa; 0x18; 0xbe; 0x1b;
   0xfc; 0x56; 0x3e; 0x4b; 0xc6; 0xd2; 0x79; 0x20; 0x9a; 0xdb; 0xc0; 0xfe; 0x78; 0xcd; 0x5a; 0xf4;
   0x1f; 0xdd; 0xa8; 0x33; 0x88; 0x07; 0xc7; 0x31; 0xb1; 0x12; 0x10; 0x59; 0x27; 0x80; 0xec; 0x5f;
   0x60; 0x51; 0x7f; 0xa9; 0x19; 0xb5; 0x4a; 0x0d; 0x2d; 0xe5; 0x7a; 0x9f; 0x93; 0xc9; 0x9c; 0xef;
   0xa0; 0xe0; 0x3b; 0x4d; 0xae; 0x2a; 0xf5; 0xb0; 0xc8; 0xeb; 0xbb; 0x3c; 0x83; 0x53; 0x99; 0x61;
   0x17; 0x2b; 0x04; 0x7e; 0xba; 0x77; 0xd6; 0x26; 0xe1; 0x69; 0x14; 0x63; 0x55; 0x21; 0x0c; 0x7d ].

Definition Rcon : list Z :=
  [
   0x8d; 0x01; 0x02; 0x04; 0x08; 0x10; 0x20; 0x40; 0x80; 0x1b; 0x36 ].

Definition h_rd : list Z :=
  [
   0x02; 0x0e; 0x09; 0x05; 0x03; 0x0b; 0x0e; 0x00; 0x08; 0x03; 0x07; 0x01; 0x0f; 0x03; 0x0d; 0x0a;
   0x02; 0x01; 0x0c; 0x0d; 0x0a; 0x0e; 0x01; 0x0e; 0x05; 0x0d; 0x07; 0x08; 0x0e; 0x0f; 0x0f; 0x06;
   0x0f; 0x01; 0x0c; 0x0e; 0x00; 0x0a; 0x05; 0x0a; 0x0d; 0x0c; 0x06; 0x0d; 0x01; 0x01; 0x0b; 0x08;
   0x05; 0x0d; 0x08; 0x08; 0x07; 0x0a; 0x06; 0x06; 0x0b; 0x03; 0x0c; 0x0d; 0x07; 0x0d; 0x09; 0x04;
   0x0a; 0x02; 0x0a; 0x0a; 0x09; 0x0d; 0x00; 0x0a; 0x09; 0x0f; 0x00; 0x0a; 0x0c; 0x0e; 0x04; 0x09;
   0x0a; 0x0b; 0x00; 0x0f; 0x06; 0x02; 0x07; 0x03; 0x08; 0x01; 0x05; 0x02; 0x0e; 0x06; 0x0d; 0x04;
   0x08; 0x02; 0x0e; 0x09; 0x04; 0x05; 0x06; 0x0a; 0x0c; 0x04; 0x0d; 0x00; 0x04; 0x04; 0x00; 0x03;
   0x07; 0x04; 0x0a; 0x0e; 0x0f; 0x0d; 0x01; 0x08; 0x08; 0x0c; 0x0c; 0x05; 0x0e; 0x0c; 0x00; 0x05;
   0x09; 0x0c; 0x00; 0x0c; 0x06; 0x09; 0x0f; 0x05; 0x03; 0x01; 0x03; 0x07; 0x09; 0x0b; 0x04; 0x0c;
   0x0c; 0x0f; 0x08; 0x04; 0x0b; 0x02; 0x02; 0x05; 0x02; 0x01; 0x0d; 0x0b; 0x09; 0x05; 0x07; 0x0f;
   0x00; 0x05; 0x0c; 0x04; 0x00; 0x08; 0x03; 0x08; 0x0b; 0x06; 0x06; 0x01; 0x01; 0x04; 0x05; 0x08;
   0x0b; 0x0f; 0x03; 0x03; 0x03; 0x0e; 0x0b; 0x00; 0x00; 0x0c; 0x0b; 0x04; 0x0a; 0x06; 0x0b; 0x09;
   0x00; 0x0b; 0x00; 0x07; 0x02; 0x02; 0x01; 0x0e; 0x09; 0x07; 0x07; 0x0c; 0x0d; 0x0b; 0x0b; 0x08;
   0x02; 0x09; 0x02; 0x04; 0x03; 0x0e; 0x06; 0x01; 0x0f; 0x0e; 0x0f; 0x0e; 0x04; 0x05; 0x01; 0x03;
   0x03; 0x07; 0x0b; 0x0d; 0x06; 0x02; 0x0d; 0x07; 0x05; 0x0f; 0x07; 0x0a; 0x07; 0x02; 0x0f; 0x0a;
   0x00; 0x09; 0x06; 0x0f; 0x06; 0x08; 0x07; 0x05; 0x09; 0x08; 0x09; 0x02; 0x04; 0x01; 0x03; 0x06 ].

Definition getSBoxValue (num : Z) : Z := rd sbox (Z.to_nat num).
Definition getSBoxInvert (num : Z) : Z := rd rsbox (Z.to_nat num).
Definition getHBoxValue (num : Z) : Z := rd h_rd (Z.to_nat num).

(** ** GF(2^8) helpers *)

Definition xtime (x : Z) : Z :=
  u8 (Z.lxor (Z.shiftl x 1) (Z.land (Z.shiftr x 7) 1 * 0x1b)).

Definition Multiply (x y : Z) : Z :=
  Z.lxor (Z.lxor (Z.lxor (Z.lxor
    (Z.land y 1 * x)
    (Z.land (Z.shiftr y 1) 1 * xtime x))
    (Z.land (Z.shiftr y 2) 1 * xtime (xtime x)))
    (Z.land (Z.shiftr y 3) 1 * xtime (xtime (xtime x))))
    (Z.land (Z.shiftr y 4) 1 * xtime (xtime (xtime (xtime x)))).

(** ** Hamming codec *)

Definition get_bit (byte bitnum : Z) : Z := Z.land (Z.shiftr byte bitnum) 0x01.

Definition flip_bit (byte target : Z) : Z := u8 (Z.lxor byte (Z.shiftl 0x01 target)).

Definition hamming_encode (given : Z) : Z :=
  let zero := get_bit given 0 in
  let one := get_bit given 1 in
  let two := get_bit given 2 in
  let three := get_bit given 3 in
  let four := get_bit given 4 in
  let five := get_bit given 5 in
  let six := get_bit given 6 in
  let seven := get_bit given 7 in
  let setzero := Z.lxor (Z.lxor (Z.lxor three two) one) zero in
  let setone := Z.lxor (Z.lxor (Z.lxor six five) four) zero in
  let settwo := Z.lxor (Z.lxor (Z.lxor (Z.lxor seven five) four) two) one in
  let setthree := Z.lxor (Z.lxor (Z.lxor (Z.lxor seven six) four) three) one in
  Z.lor (Z.lor (Z.lor setzero (Z.shiftl setone 0x01)) (Z.shiftl settwo 0x02))
        (Z.shiftl setthree 0x03).

(** [correct_state], the body of the two loops at cell [[c][r]].  The
    diagnostic [printf] calls are not modelled. *)
Definition scan_parity (diff : Z) (pp : Z * Z) (x : Z) : Z * Z :=
  let '(pone, ptwo) := pp in
  if (Z.shiftr diff x) mod 2 =? 0 then
    if pone =? -1 then (x, ptwo)
    else if ptwo =? -1 then (pone, x)
    else (pone, ptwo)
  else (pone, ptwo).

Definition correct_at (c r : nat) (state : state_t) (hamstate pcode : hamstate_t)
  : state_t :=
  let diff := u8 (Z.lxor (mget hamstate c r) (mget pcode c r)) in
  if negb (diff =? 0) then
    let '(pone, ptwo) := fold_left (scan_parity diff) [3; 2; 1; 0] (-1, -1) in
    if (pone =? 3) && (ptwo =? 2) then mset state c r (flip_bit (mget state c r) 0x00)
    else if (pone =? 3) && (ptwo =? 1) then mset state c r (flip_bit (mget state c r) 0x02)
    else if (pone =? 3) && (ptwo =? 0) then mset state c r (flip_bit (mget state c r) 0x05)
    else if (pone =? 2) && (ptwo =? 1) then mset state c r (flip_bit (mget state c r) 0x03)
    else if (pone =? 2) && (ptwo =? 0) then mset state c r (flip_bit (mget state c r) 0x06)
    else if (pone =? 1) && (ptwo =? 0) then mset state c r (flip_bit (mget state c r) 0x07)
    else if (pone =? 1) && (ptwo =? -1) then mset state c r (flip_bit (mget state c r) 0x01)
    else if (pone =? 0) && (ptwo =? -1) then mset state c r (flip_bit (mget state c r) 0x04)
    else state
  else state.

Definition correct_state (state : state_t) (hamstate pcode : hamstate_t) : state_t :=
  for4 (fun r => for4 (fun c st => correct_at c r st hamstate pcode)) state.

Definition encode_state (state : state_t) (hamstate : hamstate_t) : hamstate_t :=
  for4 (fun i => for4 (fun j hs => mset hs j i (hamming_encode (mget state j i))))
       hamstate.

(** ** Parity predictors *)

Definition predictAddKey (round : nat) (state : state_t) (RoundKey : list Z)
  (pcode : hamstate_t) : hamstate_t :=
  for4 (fun i => for4 (fun j pc =>
    mset pc i j (Z.lxor (mget pc i j)
                        (hamming_encode (rd RoundKey (round * Nb * 4 + i * Nb + j))))))
       pcode.

Definition predictSub (state : state_t) (pcode : hamstate_t) : hamstate_t :=
  for4 (fun i => for4 (fun j pc => mset pc j i (getHBoxValue (mget state j i))))
       pcode.

Definition predictShift (pcode : hamstate_t) : hamstate_t :=
  (* Rotate first row 1 columns to left *)
  let temp := mget pcode 0 1 in
  let pcode := mset pcode 0 1 (mget pcode 1 1) in
  let pcode := mset pcode 1 1 (mget pcode 2 1) in
  let pcode := mset pcode 2 1 (mget pcode 3 1) in
  let pcode := mset pcode 3 1 temp in
  (* Rotate second row 2 columns to left *)
  let temp := mget pcode 0 2 in
  let pcode := mset pcode 0 2 (mget pcode 2 2) in
  let pcode := mset pcode 2 2 temp in
  let temp := mget pcode 1 2 in
  let pcode := mset pcode 1 2 (mget pcode 3 2) in
  let pcode := mset pcode 3 2 temp in
  (* Rotate third row 3 columns to left *)
  let temp := mget pcode 0 3 in
  let pcode := mset pcode 0 3 (mget pcode 3 3) in
  let pcode := mset pcode 3 3 (mget pcode 2 3) in
  let pcode := mset pcode 2 3 (mget pcode 1 3) in
  mset pcode 1 3 temp.

Definition predictMixCols (state : state_t) (pcode : hamstate_t) : hamstate_t :=
  for4 (fun c pc =>
    let pc := mset pc c 0
      (Z.lxor (Z.lxor (Z.lxor (hamming_encode (xtime (mget state c 0)))
                              (hamming_encode (Multiply (mget state c 1) 0x03)))
                      (hamming_encode (mget state c 2)))
              (hamming_encode (mget state c 3))) in
    let pc := mset pc c 1
      (Z.lxor (Z.lxor (Z.lxor (hamming_encode (mget state c 0))
                              (hamming_encode (xtime (mget state c 1))))
                      (hamming_encode (Multiply (mget state c 2) 0x03)))
              (hamming_encode (mget state c 3))) in
    let pc := mset pc c 2
      (Z.lxor (Z.lxor (Z.lxor (hamming_encode (mget state c 0))
                              (hamming_encode (mget state c 1)))
                      (hamming_encode (xtime (mget state c 2))))
              (hamming_encode (Multiply (mget state c 3) 0x03))) in
    mset pc c 3
      (Z.lxor (Z.lxor (Z.lxor (hamming_encode (Multiply (mget state c 0) 0x03))
                              (hamming_encode (mget state c 1)))
                      (hamming_encode (mget state c 2)))
              (hamming_encode (xtime (mget state c 3)))))
       pcode.

(** ** Outcomes *)

(** A call either returns, or ends the process through [exit], or (for a
    loop run on fuel) has not finished when the fuel is spent. *)
Inductive result (A : Type) : Type :=
| Ok (a : A)
| Exit (status : Z)
| Diverge.

Arguments Ok {A} a.
Arguments Exit {A} status.
Arguments Diverge {A}.

Definition bind {A B : Type} (c : result A) (k : A -> result B) : result B :=
  match c with
  | Ok a => k a
  | Exit s => Exit s
  | Diverge => Diverge
  end.

Notation "x <- c ;; k" := (bind c (fun x => k))
  (at level 61, c at next level, right associativity).

(** ** Compare-and-correct *)

(** [memcmp] over the first [n] bytes: zero when they agree, otherwise the
    difference of the first pair that does not (only its being zero or not
    is used). *)
Fixpoint memcmp (a b : list Z) (n : nat) : Z :=
  match n with
  | O => 0
  | S n' =>
      match a, b with
      | x :: a', y :: b' => if x =? y then memcmp a' b' n' else x - y
      | _, _ => 0
      end
  end.

(** [sizeof(hamstate_t)] *)
Definition sizeof_hamstate_t : nat := 16.

(** [compareCodes] returns the state, which [correct_state] may have
    written.  The block that re-encodes the state after [correct_state] is
    commented out in the source, so the second [memcmp] reads the same two
    matrices as the first.  The argument [transform] is a name for the
    messages only and is left out. *)
Definition compareCodes (state : state_t) (hamstate pcode : hamstate_t)
  : result state_t :=
  if negb (memcmp hamstate pcode sizeof_hamstate_t =? 0) then
    let state := correct_state state hamstate pcode in
    if negb (memcmp hamstate pcode sizeof_hamstate_t =? 0) then Exit 2
    else Ok state
  else Ok state.

(** ** Round transforms *)

(** The three matrices a round transform works on: the block, and the
    locals [hamstate] and [pcode] of the pipeline.  Each checked transform is
    its predictor, its own loop over the state (named apart, to speak of it
    alone), [encode_state] and [compareCodes], in the order of the source. *)
Record mem : Type := Mem {
  m_state : state_t;
  m_hamstate : hamstate_t;
  m_pcode : hamstate_t
}.

Definition AddRoundKey_xor (round : nat) (state : state_t) (RoundKey : list Z)
  : state_t :=
  for4 (fun i => for4 (fun j st =>
    mset st i j (Z.lxor (mget st i j) (rd RoundKey (round * Nb * 4 + i * Nb + j)))))
       state.

Definition AddRoundKey (round : nat) (m : mem) (RoundKey : list Z) : result mem :=
  let pcode := predictAddKey round (m_state m) RoundKey (m_pcode m) in
  let state := AddRoundKey_xor round (m_state m) RoundKey in
  let hamstate := encode_state state (m_hamstate m) in
  state <- compareCodes state hamstate pcode ;;
  Ok (Mem state hamstate pcode).

Definition SubBytes_subst (state : state_t) : state_t :=
  for4 (fun i => for4 (fun j st => mset st j i (getSBoxValue (mget st j i)))) state.

Definition SubBytes (m : mem) : result mem :=
  let pcode := predictSub (m_state m) (m_pcode m) in
  let state := SubBytes_subst (m_state m) in
  let hamstate := encode_state state (m_hamstate m) in
  state <- compareCodes state hamstate pcode ;;
  Ok (Mem state hamstate pcode).

Definition ShiftRows_rotate (state : state_t) : state_t :=
  (* Rotate first row 1 columns to left *)
  let temp := mget state 0 1 in
  let state := mset state 0 1 (mget state 1 1) in
  let state := mset state 1 1 (mget state 2 1) in
  let state := mset state 2 1 (mget state 3 1) in
  let state := mset state 3 1 temp in
  (* Rotate second row 2 columns to left *)
  let temp := mget state 0 2 in
  let state := mset state 0 2 (mget state 2 2) in
  let state := mset state 2 2 temp in
  let temp := mget state 1 2 in
  let state := mset state 1 2 (mget state 3 2) in
  let state := mset state 3 2 temp in
  (* Rotate third row 3 columns to left *)
  let temp := mget state 0 3 in
  let state := mset state 0 3 (mget state 3 3) in
  let state := mset state 3 3 (mget state 2 3) in
  let state := mset state 2 3 (mget state 1 3) in
  mset state 1 3 temp.

Definition ShiftRows (m : mem) : result mem :=
  let pcode := predictShift (m_pcode m) in
  let state := ShiftRows_rotate (m_state m) in
  let hamstate := encode_state state (m_hamstate m) in
  state <- compareCodes state hamstate pcode ;;
  Ok (Mem state hamstate pcode).

Definition MixColumns_mix (state : state_t) : state_t :=
  for4 (fun i st =>
    let t := mget st i 0 in
    let Tmp := Z.lxor (Z.lxor (Z.lxor (mget st i 0) (mget st i 1)) (mget st i 2))
                      (mget st i 3) in
    let Tm := Z.lxor (mget st i 0) (mget st i 1) in
    let Tm := xtime Tm in
    let st := mset st i 0 (Z.lxor (mget st i 0) (Z.lxor Tm Tmp)) in
    let Tm := Z.lxor (mget st i 1) (mget st i 2) in
    let Tm := xtime Tm in
    let st := mset st i 1 (Z.lxor (mget st i 1) (Z.lxor Tm Tmp)) in
    let Tm := Z.lxor (mget st i 2) (mget st i 3) in
    let Tm := xtime Tm in
    let st := mset st i 2 (Z.lxor (mget st i 2) (Z.lxor Tm Tmp)) in
    let Tm := Z.lxor (mget st i 3) t in
    let Tm := xtime Tm in
    mset st i 3 (Z.lxor (mget st i 3) (Z.lxor Tm Tmp)))
       state.

Definition MixColumns (m : mem) : result mem :=
  let pcode := predictMixCols (m_state m) (m_pcode m) in
  let state := MixColumns_mix (m_state m) in
  let hamstate := encode_state state (m_hamstate m) in
  state <- compareCodes state hamstate pcode ;;
  Ok (Mem state hamstate pcode).

Definition InvMixColumns (state : state_t) : state_t :=
  for4 (fun i st =>
    let a := mget st i 0 in
    let b := mget st i 1 in
    let c := mget st i 2 in
    let d := mget st i 3 in
    let st := mset st i 0
      (Z.lxor (Z.lxor (Z.lxor (Multiply a 0x0e) (Multiply b 0x0b)) (Multiply c 0x0d))
              (Multiply d 0x09)) in
    let st := mset st i 1
      (Z.lxor (Z.lxor (Z.lxor (Multiply a 0x09) (Multiply b 0x0e)) (Multiply c 0x0b))
              (Multiply d 0x0d)) in
    let st := mset st i 2
      (Z.lxor (Z.lxor (Z.lxor (Multiply a 0x0d) (Multiply b 0x09)) (Multiply c 0x0e))
              (Multiply d 0x0b)) in
    mset st i 3
      (Z.lxor (Z.lxor (Z.lxor (Multiply a 0x0b) (Multiply b 0x0d)) (Multiply c 0x09))
              (Multiply d 0x0e)))
       state.

Definition InvSubBytes (state : state_t) : state_t :=
  for4 (fun i => for4 (fun j st => mset st j i (getSBoxInvert (mget st j i)))) state.

Definition InvShiftRows (state : state_t) : state_t :=
  (* Rotate first row 1 columns to right *)
  let temp := mget state 3 1 in
  let state := mset state 3 1 (mget state 2 1) in
  let state := mset state 2 1 (mget state 1 1) in
  let state := mset state 1 1 (mget state 0 1) in
  let state := mset state 0 1 temp in
  (* Rotate second row 2 columns to right *)
  let temp := mget state 0 2 in
  let state := mset state 0 2 (mget state 2 2) in
  let state := mset state 2 2 temp in
  let temp := mget state 1 2 in
  let state := mset state 1 2 (mget state 3 2) in
  let state := mset state 3 2 temp in
  (* Rotate third row 3 columns to right *)
  let temp := mget state 0 3 in
  let state := mset state 0 3 (mget state 1 3) in
  let state := mset state 1 3 (mget state 2 3) in
  let state := mset state 2 3 (mget state 3 3) in
  mset state 3 3 temp.

(** ** Key schedule *)

(** Modelled from the spec: [struct AES_ctx] of [aes.h], which is not among
    the sources; it bundles the round-key buffer and the 16-byte IV or
    counter. *)
Record AES_ctx : Type := Ctx {
  RoundKey : list Z;
  Iv : list Z
}.

Definition SubWord (tempa : Z * Z * Z * Z) : Z * Z * Z * Z :=
  let '(t0, t1, t2, t3) := tempa in
  (getSBoxValue t0, getSBoxValue t1, getSBoxValue t2, getSBoxValue t3).

Definition KeyExpansion_word (v : variant) (RoundKey : list Z) (i : nat) : list Z :=
  let k := ((i - 1) * 4)%nat in
  let tempa := (rd RoundKey (k + 0), rd RoundKey (k + 1),
                rd RoundKey (k + 2), rd RoundKey (k + 3)) in
  let tempa :=
    if (i mod Nk v =? 0)%nat then
      (* RotWord *)
      let '(t0, t1, t2, t3) := tempa in
      let tempa := (t1, t2, t3, t0) in
      let '(t0, t1, t2, t3) := SubWord tempa in
      (Z.lxor t0 (rd Rcon (i / Nk v)), t1, t2, t3)
    else tempa in
  let tempa :=
    match v with
    | AES256 => if (i mod Nk v =? 4)%nat then SubWord tempa else tempa
    | _ => tempa
    end in
  let '(t0, t1, t2, t3) := tempa in
  let j := (i * 4)%nat in
  let k := ((i - Nk v) * 4)%nat in
  let RoundKey := wr RoundKey (j + 0) (Z.lxor (rd RoundKey (k + 0)) t0) in
  let RoundKey := wr RoundKey (j + 1) (Z.lxor (rd RoundKey (k + 1)) t1) in
  let RoundKey := wr RoundKey (j + 2) (Z.lxor (rd RoundKey (k + 2)) t2) in
  wr RoundKey (j + 3) (Z.lxor (rd RoundKey (k + 3)) t3).

Definition KeyExpansion (v : variant) (RoundKey Key : list Z) : list Z :=
  (* The first round key is the key itself. *)
  let RoundKey :=
    fold_left (fun rk i =>
      let rk := wr rk (i * 4 + 0) (rd Key (i * 4 + 0)) in
      let rk := wr rk (i * 4 + 1) (rd Key (i * 4 + 1)) in
      let rk := wr rk (i * 4 + 2) (rd Key (i * 4 + 2)) in
      wr rk (i * 4 + 3) (rd Key (i * 4 + 3)))
      (seq 0 (Nk v)) RoundKey in
  (* All other round keys are found from the previous round keys. *)
  fold_left (KeyExpansion_word v) (seq (Nk v) (Nb * (Nr v + 1) - Nk v)) RoundKey.

(** [memcpy (dst, src, n)] *)
Definition memcpy (dst src : list Z) (n : nat) : list Z :=
  firstn n src ++ skipn n dst.

Definition AES_init_ctx (v : variant) (ctx : AES_ctx) (key : list Z) : AES_ctx :=
  Ctx (KeyExpansion v (RoundKey ctx) key) (Iv ctx).

Definition AES_init_ctx_iv (v : variant) (ctx : AES_ctx) (key iv : list Z) : AES_ctx :=
  Ctx (KeyExpansion v (RoundKey ctx) key) (memcpy (Iv ctx) iv AES_BLOCKLEN).

Definition AES_ctx_set_iv (ctx : AES_ctx) (iv : list Z) : AES_ctx :=
  Ctx (RoundKey ctx) (memcpy (Iv ctx) iv AES_BLOCKLEN).

(** ** The block pipelines *)

(** The content of a local [hamstate_t] before its first write.  Where every
    cell is written before it is read ([hamstate] in both pipelines, [pcode]
    in [Cipher]) the content is immaterial and is taken to be zero; where it
    is read first ([pcode] in [InvCipher]) it is a parameter. *)
Definition fresh_hamstate : hamstate_t := repeat 0 16.

(** The body of [for (round = 1; ; ++round)], run on fuel. *)
Fixpoint Cipher_rounds (v : variant) (RoundKey : list Z) (fuel round : nat) (m : mem)
  : result mem :=
  match fuel with
  | O => Diverge
  | S fuel' =>
      m <- SubBytes m ;;
      m <- ShiftRows m ;;
      if (round =? Nr v)%nat then Ok m
      else
        m <- MixColumns m ;;
        m <- AddRoundKey round m RoundKey ;;
        Cipher_rounds v RoundKey fuel' (S round) m
  end.

Definition Cipher (v : variant) (state : state_t) (RoundKey : list Z)
  : result state_t :=
  let hamstate := fresh_hamstate in
  let pcode := encode_state state fresh_hamstate in
  (* Add the First round key to the state before starting the rounds. *)
  m <- AddRoundKey 0 (Mem state hamstate pcode) RoundKey ;;
  m <- Cipher_rounds v RoundKey (Nr v) 1 m ;;
  (* Add round key to last round *)
  m <- AddRoundKey (Nr v) m RoundKey ;;
  Ok (m_state m).

(** The body of [for (round = Nr - 1; ; --round)]. *)
Fixpoint InvCipher_rounds (RoundKey : list Z) (round : nat) (m : mem) : result mem :=
  let state := InvShiftRows (m_state m) in
  let state := InvSubBytes state in
  m <- AddRoundKey round (Mem state (m_hamstate m) (m_pcode m)) RoundKey ;;
  match round with
  | O => Ok m
  | S round' =>
      let state := InvMixColumns (m_state m) in
      InvCipher_rounds RoundKey round' (Mem state (m_hamstate m) (m_pcode m))
  end.

(** [pcode0] is the indeterminate content of the local [pcode], which
    [InvCipher] hands to [AddRoundKey] without initialising it. *)
Definition InvCipher (v : variant) (pcode0 : hamstate_t) (state : state_t)
  (RoundKey : list Z) : result state_t :=
  let hamstate := fresh_hamstate in
  (* Add the First round key to the state before starting the rounds. *)
  m <- AddRoundKey (Nr v) (Mem state hamstate pcode0) RoundKey ;;
  m <- InvCipher_rounds RoundKey (Nr v - 1) m ;;
  Ok (m_state m).

(** ** Mode drivers *)

(** The block of [AES_BLOCKLEN] bytes at offset [off] of a buffer, and the
    buffer with that block replaced: [(state_t* )(buf + off)]. *)
Definition block_at (buf : list Z) (off : nat) : state_t :=
  firstn AES_BLOCKLEN (skipn off buf).

Definition put_block (buf : list Z) (off : nat) (blk : state_t) : list Z :=
  firstn off buf ++ blk ++ skipn (off + AES_BLOCKLEN) buf.

Definition AES_ECB_encrypt (v : variant) (ctx : AES_ctx) (buf : list Z)
  : result (list Z) :=
  blk <- Cipher v (block_at buf 0) (RoundKey ctx) ;;
  Ok (put_block buf 0 blk).

Definition AES_ECB_decrypt (v : variant) (pcode0 : hamstate_t) (ctx : AES_ctx)
  (buf : list Z) : result (list Z) :=
  blk <- InvCipher v pcode0 (block_at buf 0) (RoundKey ctx) ;;
  Ok (put_block buf 0 blk).

(** [XorWithIv (buf + off, Iv)] *)
Definition XorWithIv (buf : list Z) (off : nat) (Iv : list Z) : list Z :=
  fold_left (fun b i => wr b (off + i) (Z.lxor (rd b (off + i)) (rd Iv i)))
            (seq 0 AES_BLOCKLEN) buf.

(** The loop of [AES_CBC_encrypt_buffer].  [buf + i] is the moving pointer
    [buf]; the pointer [Iv] aliases the block encrypted last, which is not
    written again, so it is carried by value. *)
Fixpoint CBC_encrypt_loop (v : variant) (RoundKey : list Z) (length fuel i : nat)
  (Iv buf : list Z) : result (list Z * list Z) :=
  if (i <? length)%nat then
    match fuel with
    | O => Diverge
    | S fuel' =>
        let buf := XorWithIv buf i Iv in
        blk <- Cipher v (block_at buf i) RoundKey ;;
        let buf := put_block buf i blk in
        let Iv := block_at buf i in
        CBC_encrypt_loop v RoundKey length fuel' (i + AES_BLOCKLEN) Iv buf
    end
  else Ok (Iv, buf).

Definition AES_CBC_encrypt_buffer (v : variant) (ctx : AES_ctx) (buf : list Z)
  (length : nat) : result (AES_ctx * list Z) :=
  r <- CBC_encrypt_loop v (RoundKey ctx) length length 0 (Iv ctx) buf ;;
  let '(Iv', buf) := r in
  (* store Iv in ctx for next call *)
  Ok (Ctx (RoundKey ctx) (memcpy (Iv ctx) Iv' AES_BLOCKLEN), buf).

(** The loop of [AES_CBC_decrypt_buffer]; [junk n] is what the local
    [pcode] of the [n]-th call of [InvCipher] holds on entry. *)
Fixpoint CBC_decrypt_loop (v : variant) (junk : nat -> hamstate_t) (length fuel i : nat)
  (ctx : AES_ctx) (buf : list Z) : result (AES_ctx * list Z) :=
  if (i <? length)%nat then
    match fuel with
    | O => Diverge
    | S fuel' =>
        let storeNextIv := block_at buf i in
        blk <- InvCipher v (junk (i / AES_BLOCKLEN)%nat) (block_at buf i) (RoundKey ctx) ;;
        let buf := put_block buf i blk in
        let buf := XorWithIv buf i (Iv ctx) in
        let ctx := Ctx (RoundKey ctx) (memcpy (Iv ctx) storeNextIv AES_BLOCKLEN) in
        CBC_decrypt_loop v junk length fuel' (i + AES_BLOCKLEN) ctx buf
    end
  else Ok (ctx, buf).

Definition AES_CBC_decrypt_buffer (v : variant) (junk : nat -> hamstate_t)
  (ctx : AES_ctx) (buf : list Z) (length : nat) : result (AES_ctx * list Z) :=
  CBC_decrypt_loop v junk length length 0 ctx buf.

(** Increment Iv and handle overflow: [for (bi = k - 1; bi >= 0; --bi)]. *)
Fixpoint Iv_increment (k : nat) (Iv : list Z) : list Z :=
  match k with
  | O => Iv
  | S bi =>
      if rd Iv bi =? 255 then Iv_increment bi (wr Iv bi 0)
      else wr Iv bi (u8 (rd Iv bi + 1))
  end.

(** The variables live across the iterations of [AES_CTR_xcrypt_buffer].
    The local [buffer] is filled by [memcpy] in the first iteration, before
    it is read. *)
Record ctr_vars : Type := CtrVars {
  c_Iv : list Z;
  c_buffer : list Z;
  c_bi : nat;
  c_buf : list Z
}.

Definition CTR_step (v : variant) (RoundKey : list Z) (i : nat) (s : ctr_vars)
  : result ctr_vars :=
  s <- (if (c_bi s =? AES_BLOCKLEN)%nat then
          (* we need to regen xor compliment in buffer *)
          let buffer := memcpy (c_buffer s) (c_Iv s) AES_BLOCKLEN in
          buffer <- Cipher v buffer RoundKey ;;
          let Iv := Iv_increment AES_BLOCKLEN (c_Iv s) in
          Ok (CtrVars Iv buffer 0 (c_buf s))
        else Ok s) ;;
  let buf := wr (c_buf s) i (Z.lxor (rd (c_buf s) i) (rd (c_buffer s) (c_bi s))) in
  Ok (CtrVars (c_Iv s) (c_buffer s) (S (c_bi s)) buf).

(** [for (i = 0, bi = AES_BLOCKLEN; i < length; ++i, ++bi)] *)
Fixpoint CTR_loop (v : variant) (RoundKey : list Z) (idx : list nat) (s : ctr_vars)
  : result ctr_vars :=
  match idx with
  | [] => Ok s
  | i :: idx' => s <- CTR_step v RoundKey i s ;; CTR_loop v RoundKey idx' s
  end.

Definition AES_CTR_xcrypt_buffer (v : variant) (ctx : AES_ctx) (buf : list Z)
  (length : nat) : result (AES_ctx * list Z) :=
  s <- CTR_loop v (RoundKey ctx) (seq 0 length)
         (CtrVars (Iv ctx) (repeat 0 AES_BLOCKLEN) AES_BLOCKLEN buf) ;;
  Ok (Ctx (RoundKey ctx) (c_Iv s), c_buf s).

(** * Vocabulary of the statements *)

(** ** Well-formed data *)

(** Every byte, in order; a property decided on this list holds of all
    bytes. *)
Definition all_bytes : list Z := map Z.of_nat (seq 0 256).

(** A state or code matrix that C could hold: sixteen bytes. *)
Definition wf_state (s : list Z) : Prop := length s = 16%nat /\ Forall is_byte s.

Definition wf_bytes (n : nat) (a : list Z) : Prop := length a = n /\ Forall is_byte a.

(** A key of [4 * Nk] bytes, a round-key buffer of [AES_keyExpSize] bytes, a
    context made of such a buffer and a 16-byte [Iv]. *)
Definition wf_key (v : variant) (key : list Z) : Prop := wf_bytes (4 * Nk v) key.

Definition wf_roundkey (v : variant) (rk : list Z) : Prop :=
  wf_bytes (AES_keyExpSize v) rk.

Definition wf_ctx (v : variant) (ctx : AES_ctx) : Prop :=
  wf_roundkey v (RoundKey ctx) /\ wf_state (Iv ctx).

(** The three matrices have their sixteen cells. *)
Definition shaped (m : mem) : Prop :=
  length (m_state m) = 16%nat /\ length (m_hamstate m) = 16%nat
  /\ length (m_pcode m) = 16%nat.

(** ** Matrices cell by cell *)

Fixpoint mapi_from (k : nat) (f : nat -> Z -> Z) (l : list Z) : list Z :=
  match l with
  | [] => []
  | x :: t => f k x :: mapi_from (S k) f t
  end.

(** The matrix whose cell [[c][r]] is [f c r] of the old cell. *)
Definition cells (f : nat -> nat -> Z -> Z) (s : list Z) : list Z :=
  mapi_from 0 (fun k x => f (k / 4)%nat (k mod 4)%nat x) s.

(** The exclusive-or of a column, [Tmp] in [MixColumns]. *)
Definition column_xor (a b c d : Z) : Z := Z.lxor (Z.lxor (Z.lxor a b) c) d.

(** ** The round transforms as data *)

Inductive transform : Type :=
| T_AddRoundKey (round : nat)
| T_SubBytes
| T_ShiftRows
| T_MixColumns.

(** What the transform does to the state, what its predictor does to the
    predicted codes, and the whole checked step. *)
Definition apply_transform (T : transform) (RoundKey : list Z) (state : state_t)
  : state_t :=
  match T with
  | T_AddRoundKey round => AddRoundKey_xor round state RoundKey
  | T_SubBytes => SubBytes_subst state
  | T_ShiftRows => ShiftRows_rotate state
  | T_MixColumns => MixColumns_mix state
  end.

Definition predictor (T : transform) (RoundKey : list Z) (state : state_t)
  (pcode : hamstate_t) : hamstate_t :=
  match T with
  | T_AddRoundKey round => predictAddKey round state RoundKey pcode
  | T_SubBytes => predictSub state pcode
  | T_ShiftRows => predictShift pcode
  | T_MixColumns => predictMixCols state pcode
  end.

Definition run_transform (T : transform) (RoundKey : list Z) (m : mem) : result mem :=
  match T with
  | T_AddRoundKey round => AddRoundKey round m RoundKey
  | T_SubBytes => SubBytes m
  | T_ShiftRows => ShiftRows m
  | T_MixColumns => MixColumns m
  end.

Fixpoint run_transforms (Ts : list transform) (RoundKey : list Z) (m : mem)
  : result mem :=
  match Ts with
  | [] => Ok m
  | T :: Ts' => m <- run_transform T RoundKey m ;; run_transforms Ts' RoundKey m
  end.

(** The state after a list of transforms, with no checking in between. *)
Definition apply_transforms (Ts : list transform) (RoundKey : list Z) (s : state_t)
  : state_t :=
  fold_left (fun s T => apply_transform T RoundKey s) Ts s.

(** The transforms [Cipher] goes through, in order. *)
Definition middle_rounds (from count : nat) : list transform :=
  flat_map (fun round => [T_SubBytes; T_ShiftRows; T_MixColumns; T_AddRoundKey round])
           (seq from count).

Definition schedule (v : variant) : list transform :=
  T_AddRoundKey 0 :: middle_rounds 1 (Nr v - 1)
  ++ [T_SubBytes; T_ShiftRows; T_AddRoundKey (Nr v)].

(** The memory after a transform whose codes agreed, and the memories whose
    predicted codes are the codes of their state. *)
Definition settled (s : state_t) : mem :=
  Mem s (map hamming_encode s) (map hamming_encode s).

Definition settled_mem (m : mem) : Prop :=
  wf_state (m_state m) /\ length (m_hamstate m) = 16%nat
  /\ m_pcode m = map hamming_encode (m_state m).

(** ** The Hamming code as the specification writes it *)

(** [p0 = b3 ^ b2 ^ b1 ^ b0], [p1 = b6 ^ b5 ^ b4 ^ b0],
    [p2 = b7 ^ b5 ^ b4 ^ b2 ^ b1], [p3 = b7 ^ b6 ^ b4 ^ b3 ^ b1]. *)
Definition parity0 (b : Z) : bool :=
  xorb (xorb (xorb (Z.testbit b 3) (Z.testbit b 2)) (Z.testbit b 1)) (Z.testbit b 0).

Definition parity1 (b : Z) : bool :=
  xorb (xorb (xorb (Z.testbit b 6) (Z.testbit b 5)) (Z.testbit b 4)) (Z.testbit b 0).

Definition parity2 (b : Z) : bool :=
  xorb (xorb (xorb (xorb (Z.testbit b 7) (Z.testbit b 5)) (Z.testbit b 4))
             (Z.testbit b 2)) (Z.testbit b 1).

Definition parity3 (b : Z) : bool :=
  xorb (xorb (xorb (xorb (Z.testbit b 7) (Z.testbit b 6)) (Z.testbit b 4))
             (Z.testbit b 3)) (Z.testbit b 1).

(** ** The corrector as the specification writes it *)

Module SpecCorrector.

(** The parity positions, walked from 3 down to 0, at which [diff] has a
    zero bit. *)
Definition zero_positions (diff : Z) : list Z :=
  filter (fun x => negb (Z.testbit diff x)) [3; 2; 1; 0].

(** The first two of them, [-1] standing for a missing one. *)
Definition syndrome (diff : Z) : Z * Z :=
  (nth 0 (zero_positions diff) (-1), nth 1 (zero_positions diff) (-1)).

(** [(pone, ptwo, data bit to flip)] *)
Definition flip_table : list (Z * Z * Z) :=
  [(3, 2, 0); (3, 1, 2); (3, 0, 5); (2, 1, 3); (2, 0, 6); (1, 0, 7); (1, -1, 1);
   (0, -1, 4)].

Fixpoint table_lookup (pp : Z * Z) (t : list (Z * Z * Z)) : option Z :=
  match t with
  | [] => None
  | (pone, ptwo, k) :: t' =>
      if (fst pp =? pone) && (snd pp =? ptwo) then Some k else table_lookup pp t'
  end.

(** Bit [k] of [b] inverted, the other bits kept. *)
Definition toggle_bit (b k : Z) : Z :=
  if Z.testbit b k then b - 2 ^ k else b + 2 ^ k.

Definition corrected_byte (s observed predicted : Z) : Z :=
  let diff := Z.lxor observed predicted in
  if diff =? 0 then s
  else
    match table_lookup (syndrome diff) flip_table with
    | Some k => toggle_bit s k
    | None => s
    end.

End SpecCorrector.

(** ** AES as the standard describes it *)

Module Textbook.

(** Multiplication in GF(2^8) modulo x^8 + x^4 + x^3 + x + 1. *)
Definition gf_double (a : Z) : Z :=
  if 2 * a <? 256 then 2 * a else Z.lxor (2 * a) 0x11b.

Fixpoint gf_mul_bits (n : nat) (a b : Z) : Z :=
  match n with
  | O => 0
  | S n' => Z.lxor (if Z.odd b then a else 0) (gf_mul_bits n' (gf_double a) (b / 2))
  end.

Definition gf_mul (a b : Z) : Z := gf_mul_bits 8 a b.

Fixpoint gf_pow (a : Z) (n : nat) : Z :=
  match n with
  | O => 1
  | S n' => gf_mul a (gf_pow a n')
  end.

(** The multiplicative inverse, with 0 sent to 0. *)
Definition gf_inv (a : Z) : Z := gf_pow a 254.

Definition rotl8 (b : Z) (k : Z) : Z := (b * 2 ^ k) mod 256 + (b * 2 ^ k) / 256.

(** The S-box: inversion followed by the affine map. *)
Definition SBox (b : Z) : Z :=
  let x := gf_inv b in
  Z.lxor (Z.lxor (Z.lxor (Z.lxor (Z.lxor x (rotl8 x 1)) (rotl8 x 2)) (rotl8 x 3))
                 (rotl8 x 4)) 0x63.

(** The state holds row [r] of column [c] at byte [4 * c + r]. *)
Definition cell (s : list Z) (c r : nat) : Z := nth (4 * c + r) s 0.

Definition tabulate (f : nat -> nat -> Z) : list Z :=
  map (fun k => f (k / 4)%nat (k mod 4)%nat) (seq 0 16).

Definition AddRoundKey (round : nat) (s rk : list Z) : list Z :=
  tabulate (fun c r => Z.lxor (cell s c r) (nth (16 * round + 4 * c + r) rk 0)).

Definition SubBytes (s : list Z) : list Z := map SBox s.

Definition ShiftRows (s : list Z) : list Z :=
  tabulate (fun c r => cell s ((c + r) mod 4) r).

Definition mix_matrix : list (list Z) :=
  [[0x02; 0x03; 0x01; 0x01];
   [0x01; 0x02; 0x03; 0x01];
   [0x01; 0x01; 0x02; 0x03];
   [0x03; 0x01; 0x01; 0x02]].

Definition MixColumns (s : list Z) : list Z :=
  tabulate (fun c r =>
    let row := nth r mix_matrix [] in
    Z.lxor (Z.lxor (Z.lxor (gf_mul (nth 0 row 0) (cell s c 0))
                           (gf_mul (nth 1 row 0) (cell s c 1)))
                   (gf_mul (nth 2 row 0) (cell s c 2)))
           (gf_mul (nth 3 row 0) (cell s c 3))).

Definition round (rk : list Z) (s : list Z) (k : nat) : list Z :=
  AddRoundKey k (MixColumns (ShiftRows (SubBytes s))) rk.

Definition encrypt (Nr : nat) (s rk : list Z) : list Z :=
  let s := AddRoundKey 0 s rk in
  let s := fold_left (round rk) (seq 1 (Nr - 1)) s in
  AddRoundKey Nr (ShiftRows (SubBytes s)) rk.

End Textbook.

(** ** Counter mode: two runs side by side *)

(** Two runs of the loop are in step when they differ in the data buffer
    only. *)
Definition in_step (s t : ctr_vars) : Prop :=
  c_Iv s = c_Iv t /\ c_buffer s = c_buffer t /\ c_bi s = c_bi t
  /\ length (c_buf s) = length (c_buf t).

(** What a run has exclusive-ored into byte [j] of the buffer. *)
Definition pad (s s' : ctr_vars) (j : nat) : Z :=
  Z.lxor (rd (c_buf s') j) (rd (c_buf s) j).

Definition ctr_ready (s : ctr_vars) : Prop :=
  wf_state (c_Iv s) /\ length (c_buffer s) = 16%nat.

(** ** CBC: the next multiple of the block length *)

Definition round_up (length : nat) : nat :=
  (AES_BLOCKLEN * ((length + (AES_BLOCKLEN - 1)) / AES_BLOCKLEN))%nat.

(** ** Test data *)

(** The ECB-AES128 vectors of NIST SP 800-38A, as the header of [aes.c]
    lists them. *)
Definition nist_key : list Z :=
  [0x2b; 0x7e; 0x15; 0x16; 0x28; 0xae; 0xd2; 0xa6;
   0xab; 0xf7; 0x15; 0x88; 0x09; 0xcf; 0x4f; 0x3c].

Definition nist_plain : list (list Z) :=
  [[0x6b; 0xc1; 0xbe; 0xe2; 0x2e; 0x40; 0x9f; 0x96;
    0xe9; 0x3d; 0x7e; 0x11; 0x73; 0x93; 0x17; 0x2a];
   [0xae; 0x2d; 0x8a; 0x57; 0x1e; 0x03; 0xac; 0x9c;
    0x9e; 0xb7; 0x6f; 0xac; 0x45; 0xaf; 0x8e; 0x51];
   [0x30; 0xc8; 0x1c; 0x46; 0xa3; 0x5c; 0xe4; 0x11;
    0xe5; 0xfb; 0xc1; 0x19; 0x1a; 0x0a; 0x52; 0xef];
   [0xf6; 0x9f; 0x24; 0x45; 0xdf; 0x4f; 0x9b; 0x17;
    0xad; 0x2b; 0x41; 0x7b; 0xe6; 0x6c; 0x37; 0x10]].

Definition nist_cipher : list (list Z) :=
  [[0x3a; 0xd7; 0x7b; 0xb4; 0x0d; 0x7a; 0x36; 0x60;
    0xa8; 0x9e; 0xca; 0xf3; 0x24; 0x66; 0xef; 0x97];
   [0xf5; 0xd3; 0xd5; 0x85; 0x03; 0xb9; 0x69; 0x9d;
    0xe7; 0x85; 0x89; 0x5a; 0x96; 0xfd; 0xba; 0xaf];
   [0x43; 0xb1; 0xcd; 0x7f; 0x59; 0x8e; 0xce; 0x23;
    0x88; 0x1b; 0x00; 0xe3; 0xed; 0x03; 0x06; 0x88];
   [0x7b; 0x0c; 0x78; 0x5e; 0x27; 0xe8; 0xad; 0x3f;
    0x82; 0x23; 0x20; 0x71; 0x04; 0x72; 0x5d; 0xd4]].

(** The context [AES_init_ctx] leaves for that key. *)
Definition nist_ctx : AES_ctx :=
  AES_init_ctx AES128 (Ctx (repeat 0 176) (repeat 0 16)) nist_key.

(** A state, a memory in which a fault has hit one predicted code, and a
    message of 21 bytes. *)
Definition demo_state : state_t :=
  [0x6b; 0xc1; 0xbe; 0xe2; 0x2e; 0x40; 0x9f; 0x96;
   0xe9; 0x3d; 0x7e; 0x11; 0x73; 0x93; 0x17; 0x2a].

Definition faulted_mem : mem :=
  Mem demo_state fresh_hamstate (mset (map hamming_encode demo_state) 2 1 0x0f).

Definition demo_message : list Z :=
  [0x54; 0x68; 0x65; 0x20; 0x71; 0x75; 0x69; 0x63; 0x6b; 0x20; 0x62; 0x72; 0x6f;
   0x77; 0x6e; 0x20; 0x66; 0x6f; 0x78; 0x21; 0x00].

(** ** Faults, inverse transforms and the modes *)

(** The state with bit [k] of cell [[c][r]] inverted: the fault the source
    injects with [flip_bit] when it is tested. *)
Definition with_fault (s : state_t) (c r : nat) (k : Z) : state_t :=
  mset s c r (flip_bit (mget s c r) k).

(** What undoes each transform in [InvCipher]. *)
Definition unapply_transform (T : transform) (RoundKey : list Z) (state : state_t)
  : state_t :=
  match T with
  | T_AddRoundKey round => AddRoundKey_xor round state RoundKey
  | T_SubBytes => InvSubBytes state
  | T_ShiftRows => InvShiftRows state
  | T_MixColumns => InvMixColumns state
  end.

(** The state after a list of inverse transforms, with no checking. *)
Definition unapply_transforms (Ts : list transform) (RoundKey : list Z) (s : state_t)
  : state_t :=
  fold_left (fun s T => unapply_transform T RoundKey s) Ts s.

(** The transforms [InvCipher] undoes from round [round] down, in order. *)
Fixpoint inv_rounds (round : nat) : list transform :=
  match round with
  | O => [T_ShiftRows; T_SubBytes; T_AddRoundKey 0]
  | S round' =>
      [T_ShiftRows; T_SubBytes; T_AddRoundKey round; T_MixColumns] ++ inv_rounds round'
  end.

Definition inv_schedule (v : variant) : list transform :=
  T_AddRoundKey (Nr v) :: inv_rounds (Nr v - 1).

(** The number a string of bytes writes, most significant byte first. *)
Definition be_value (l : list Z) : Z := fold_left (fun acc b => acc * 256 + b) l 0.

(** Two buffers of one length that hold the same bytes below index [n]. *)
Definition agree (n : nat) (a b : list Z) : Prop :=
  length a = length b /\ forall j, (j < n)%nat -> rd a j = rd b j.

(** The counter after [k] increments, and the block of key stream that
    [Cipher], when no check fails, makes of it. *)
Definition counter (iv : list Z) (k : nat) : list Z :=
  Nat.iter k (Iv_increment AES_BLOCKLEN) iv.

Definition keystream_block (v : variant) (rk iv : list Z) (k : nat) : list Z :=
  apply_transforms (schedule v) rk (counter iv k).

(** The variables of [AES_CTR_xcrypt_buffer] once [i] bytes of [buf] are
    done. *)
Definition ctr_after (v : variant) (rk iv buf : list Z) (i : nat) (s : ctr_vars) : Prop :=
  length (c_buf s) = length buf
  /\ (forall j,
        rd (c_buf s) j
        = if (j <? i)%nat
          then Z.lxor (rd buf j) (rd (keystream_block v rk iv (j / 16)) (j mod 16))
          else rd buf j)
  /\ match i with
     | O => c_bi s = 16%nat /\ c_Iv s = iv /\ length (c_buffer s) = 16%nat
     | S i' =>
         c_bi s = S (i' mod 16) /\ c_Iv s = counter iv (S (i' / 16))
         /\ c_buffer s = keystream_block v rk iv (i' / 16)
     end.

(** Two blocks exclusive-ored byte by byte. *)
Definition xor_blocks (a b : list Z) : list Z :=
  map (fun p => Z.lxor (fst p) (snd p)) (combine a b).

(** Cipher block chaining by a block cipher [enc]: each plaintext block is
    exclusive-ored with the cipher block before it, the first with the
    initial vector, and encrypted. *)
Fixpoint cbc_chain (enc : list Z -> list Z) (iv : list Z) (blocks : list (list Z))
  : list (list Z) :=
  match blocks with
  | [] => []
  | p :: ps => enc (xor_blocks p iv) :: cbc_chain enc (enc (xor_blocks p iv)) ps
  end.

(** * Properties *)

(** ** Bytes *)

Lemma is_byte_in_all_bytes (z : Z) : is_byte z -> In z all_bytes.
Proof.
  intros [Hlo Hhi]. unfold all_bytes.
  rewrite <- (Z2Nat.id z Hlo). apply in_map, in_seq. lia.
Qed.

Lemma forall_bytes (P : Z -> bool) :
  forallb P all_bytes = true -> forall z, is_byte z -> P z = true.
Proof.
  intros H z Hz. rewrite forallb_forall in H.
  apply H, is_byte_in_all_bytes, Hz.
Qed.

Lemma forall_bytes2 (P : Z -> Z -> bool) :
  forallb (fun a => forallb (P a) all_bytes) all_bytes = true ->
  forall a b, is_byte a -> is_byte b -> P a b = true.
Proof.
  intros H a b Ha Hb.
  apply (forall_bytes (P a)); [| exact Hb].
  apply (forall_bytes (fun a => forallb (P a) all_bytes)); assumption.
Qed.

Lemma is_byteb_spec (z : Z) : is_byteb z = true <-> is_byte z.
Proof. unfold is_byteb, is_byte. rewrite andb_true_iff. lia. Qed.

Lemma u8_is_byte (z : Z) : is_byte (u8 z).
Proof. unfold is_byte, u8. apply Z.mod_pos_bound. lia. Qed.

Lemma u8_byte (z : Z) : is_byte z -> u8 z = z.
Proof. unfold is_byte, u8. intros. apply Z.mod_small. assumption. Qed.

Lemma lxor_is_byte (a b : Z) : is_byte a -> is_byte b -> is_byte (Z.lxor a b).
Proof.
  intros Ha Hb. apply is_byteb_spec.
  revert a b Ha Hb. apply forall_bytes2. vm_compute. reflexivity.
Qed.

Lemma xtime_is_byte (x : Z) : is_byte (xtime x).
Proof. apply u8_is_byte. Qed.

Lemma sbox_is_byte (x : Z) : is_byte x -> is_byte (getSBoxValue x).
Proof.
  intros Hx. apply is_byteb_spec. revert x Hx.
  apply forall_bytes. vm_compute. reflexivity.
Qed.

(** Equations between exclusive-ors of the same atoms are settled bit by
    bit. *)
Ltac xor_bits :=
  apply Z.bits_inj'; intros ?n ?Hn; rewrite ?Z.lxor_spec;
  repeat match goal with
         | |- context [Z.testbit ?x ?n] =>
             let b := fresh "b" in
             generalize (Z.testbit x n); intro b
         end;
  repeat match goal with b : bool |- _ => destruct b end; reflexivity.

(** ** The Hamming code of a byte *)

Lemma get_bit_testbit (byte n : Z) :
  0 <= n -> get_bit byte n = Z.b2z (Z.testbit byte n).
Proof.
  intros Hn. unfold get_bit.
  change 0x01 with (Z.ones 1). rewrite Z.land_ones by lia.
  change (2 ^ 1) with 2. rewrite <- Z.bit0_mod, Z.shiftr_spec by lia.
  reflexivity.
Qed.

Lemma hamming_encode_parities (b : Z) :
  hamming_encode b =
  Z.b2z (parity0 b) + 2 * Z.b2z (parity1 b) + 4 * Z.b2z (parity2 b)
  + 8 * Z.b2z (parity3 b).
Proof.
  unfold hamming_encode, parity0, parity1, parity2, parity3.
  rewrite !get_bit_testbit by lia.
  destruct (Z.testbit b 0), (Z.testbit b 1), (Z.testbit b 2), (Z.testbit b 3),
    (Z.testbit b 4), (Z.testbit b 5), (Z.testbit b 6), (Z.testbit b 7);
    reflexivity.
Qed.

Lemma hamming_encode_nibble (b : Z) : 0 <= hamming_encode b < 16.
Proof.
  rewrite hamming_encode_parities.
  destruct (parity0 b), (parity1 b), (parity2 b), (parity3 b); simpl; lia.
Qed.

Lemma hamming_encode_is_byte (b : Z) : is_byte (hamming_encode b).
Proof. pose proof (hamming_encode_nibble b). unfold is_byte. lia. Qed.

Lemma hamming_encode_lxor (a b : Z) :
  is_byte a -> is_byte b ->
  hamming_encode (Z.lxor a b) = Z.lxor (hamming_encode a) (hamming_encode b).
Proof.
  intros Ha Hb. apply Z.eqb_eq. revert a b Ha Hb.
  apply forall_bytes2. vm_compute. reflexivity.
Qed.

Lemma h_rd_sbox (b : Z) :
  is_byte b -> getHBoxValue b = hamming_encode (getSBoxValue b).
Proof.
  intros Hb. apply Z.eqb_eq. revert b Hb.
  apply forall_bytes. vm_compute. reflexivity.
Qed.

Lemma xtime_lxor (a b : Z) :
  is_byte a -> is_byte b -> xtime (Z.lxor a b) = Z.lxor (xtime a) (xtime b).
Proof.
  intros Ha Hb. apply Z.eqb_eq. revert a b Ha Hb.
  apply forall_bytes2. vm_compute. reflexivity.
Qed.

Lemma Multiply_3 (x : Z) : Multiply x 0x03 = Z.lxor x (xtime x).
Proof.
  unfold Multiply.
  change (Z.land 3 1) with 1. change (Z.land (Z.shiftr 3 1) 1) with 1.
  change (Z.land (Z.shiftr 3 2) 1) with 0. change (Z.land (Z.shiftr 3 3) 1) with 0.
  change (Z.land (Z.shiftr 3 4) 1) with 0.
  rewrite !Z.mul_1_l, !Z.mul_0_l, !Z.lxor_0_r. reflexivity.
Qed.

(** ** Matrices as sixteen cells *)

Lemma length16_inv (s : list Z) :
  length s = 16%nat ->
  exists a0 a1 a2 a3 a4 a5 a6 a7 a8 a9 a10 a11 a12 a13 a14 a15,
    s = [a0; a1; a2; a3; a4; a5; a6; a7; a8; a9; a10; a11; a12; a13; a14; a15].
Proof.
  intros H.
  do 16 (destruct s as [| ? s]; [discriminate H |]).
  destruct s; [| discriminate H].
  repeat eexists.
Qed.

(** Names the sixteen cells of a matrix. *)
Ltac cells16 s H :=
  let a := fresh "a" in
  destruct (length16_inv s H)
    as (?a & ?a & ?a & ?a & ?a & ?a & ?a & ?a & ?a & ?a & ?a & ?a & ?a & ?a & ?a & ?a & ->).

Lemma for4_row_major (f : nat -> nat -> Z -> Z) (s : list Z) :
  length s = 16%nat ->
  for4 (fun i => for4 (fun j st => mset st i j (f i j (mget st i j)))) s = cells f s.
Proof. intros H. cells16 s H. reflexivity. Qed.

Lemma for4_col_major (f : nat -> nat -> Z -> Z) (s : list Z) :
  length s = 16%nat ->
  for4 (fun i => for4 (fun j st => mset st j i (f j i (mget st j i)))) s = cells f s.
Proof. intros H. cells16 s H. reflexivity. Qed.

Lemma cells_of_other (g : Z -> Z) (s h : list Z) :
  length s = 16%nat -> length h = 16%nat ->
  cells (fun c r _ => g (mget s c r)) h = map g s.
Proof. intros Hs Hh. cells16 s Hs. cells16 h Hh. reflexivity. Qed.

Lemma encode_state_map (s h : list Z) :
  length s = 16%nat -> length h = 16%nat ->
  encode_state s h = map hamming_encode s.
Proof.
  intros Hs Hh. unfold encode_state.
  rewrite (for4_col_major (fun c r _ => hamming_encode (mget s c r)) h Hh).
  apply cells_of_other; assumption.
Qed.

Lemma mapi_from_length (f : nat -> Z -> Z) (l : list Z) (k : nat) :
  length (mapi_from k f l) = length l.
Proof. revert k. induction l; intros; simpl; [reflexivity | f_equal; apply IHl]. Qed.

Lemma mapi_from_map (f : nat -> Z -> Z) (g : Z -> Z) (l : list Z) (k : nat) :
  (forall i x, f i x = g x) -> mapi_from k f l = map g l.
Proof.
  intros E. revert k. induction l; intros; simpl; [reflexivity |].
  rewrite E, IHl. reflexivity.
Qed.

Lemma mapi_from_commute (f f' : nat -> Z -> Z) (g : Z -> Z) (l : list Z) (k : nat) :
  (forall i x, In x l -> f i (g x) = g (f' i x)) ->
  mapi_from k f (map g l) = map g (mapi_from k f' l).
Proof.
  revert k. induction l; intros k E; simpl; [reflexivity |].
  rewrite E by (left; reflexivity). f_equal. apply IHl.
  intros i x Hx. apply E. right. exact Hx.
Qed.

Lemma mapi_from_Forall (P : Z -> Prop) (f : nat -> Z -> Z) (l : list Z) (k : nat) :
  (forall i x, P x -> P (f i x)) -> Forall P l -> Forall P (mapi_from k f l).
Proof.
  intros E H. revert k. induction H; intros; simpl; constructor; auto.
Qed.

Lemma rd_is_byte (a : list Z) (i : nat) : Forall is_byte a -> is_byte (rd a i).
Proof.
  intros H. unfold rd. destruct (nth_in_or_default i a 0) as [Hin | ->].
  - rewrite Forall_forall in H. apply H, Hin.
  - unfold is_byte. lia.
Qed.

Lemma wf_state_map (g : Z -> Z) (s : list Z) :
  (forall x, is_byte x -> is_byte (g x)) -> wf_state s -> wf_state (map g s).
Proof.
  intros E [Hl Hb]. split; [rewrite length_map; exact Hl |].
  rewrite Forall_forall in *. intros y Hy. apply in_map_iff in Hy.
  destruct Hy as (x & <- & Hx). auto.
Qed.

Lemma wf_state_cells (f : nat -> nat -> Z -> Z) (s : list Z) :
  (forall c r x, is_byte x -> is_byte (f c r x)) -> wf_state s -> wf_state (cells f s).
Proof.
  intros E [Hl Hb]. split.
  - unfold cells. rewrite mapi_from_length. exact Hl.
  - apply mapi_from_Forall; auto.
Qed.

(** ** Each predictor against its transform *)

(** *** AddRoundKey *)

Lemma AddRoundKey_xor_cells (round : nat) (s rk : list Z) :
  length s = 16%nat ->
  AddRoundKey_xor round s rk
  = cells (fun i j x => Z.lxor x (rd rk (round * Nb * 4 + i * Nb + j))) s.
Proof.
  intros H.
  exact (for4_row_major
           (fun i j x => Z.lxor x (rd rk (round * Nb * 4 + i * Nb + j))) s H).
Qed.

Lemma predictAddKey_cells (round : nat) (s rk p : list Z) :
  length p = 16%nat ->
  predictAddKey round s rk p
  = cells (fun i j x =>
             Z.lxor x (hamming_encode (rd rk (round * Nb * 4 + i * Nb + j)))) p.
Proof.
  intros H.
  exact (for4_row_major
           (fun i j x =>
              Z.lxor x (hamming_encode (rd rk (round * Nb * 4 + i * Nb + j)))) p H).
Qed.

Lemma AddRoundKey_xor_wf (round : nat) (s rk : list Z) :
  wf_state s -> Forall is_byte rk -> wf_state (AddRoundKey_xor round s rk).
Proof.
  intros Hs Hrk. rewrite AddRoundKey_xor_cells by apply Hs.
  apply wf_state_cells; [| exact Hs].
  intros c r x Hx. apply lxor_is_byte; [exact Hx | apply rd_is_byte, Hrk].
Qed.

Lemma predictAddKey_sound (round : nat) (s rk : list Z) :
  wf_state s -> Forall is_byte rk ->
  predictAddKey round s rk (map hamming_encode s)
  = map hamming_encode (AddRoundKey_xor round s rk).
Proof.
  intros [Hl Hb] Hrk.
  rewrite predictAddKey_cells by (rewrite length_map; exact Hl).
  rewrite AddRoundKey_xor_cells by exact Hl.
  unfold cells. apply mapi_from_commute.
  intros i x Hx. symmetry. apply hamming_encode_lxor.
  - rewrite Forall_forall in Hb. apply Hb, Hx.
  - apply rd_is_byte, Hrk.
Qed.

(** *** SubBytes *)

Lemma SubBytes_subst_map (s : list Z) :
  length s = 16%nat -> SubBytes_subst s = map getSBoxValue s.
Proof.
  intros H. unfold SubBytes_subst.
  rewrite (for4_col_major (fun _ _ x => getSBoxValue x) s H).
  apply mapi_from_map. reflexivity.
Qed.

Lemma predictSub_map (s p : list Z) :
  length s = 16%nat -> length p = 16%nat -> predictSub s p = map getHBoxValue s.
Proof.
  intros Hs Hp. unfold predictSub.
  rewrite (for4_col_major (fun c r _ => getHBoxValue (mget s c r)) p Hp).
  apply cells_of_other; assumption.
Qed.

Lemma SubBytes_subst_wf (s : list Z) : wf_state s -> wf_state (SubBytes_subst s).
Proof.
  intros Hs. rewrite SubBytes_subst_map by apply Hs.
  apply wf_state_map; [apply sbox_is_byte | exact Hs].
Qed.

Lemma predictSub_sound (s p : list Z) :
  wf_state s -> length p = 16%nat ->
  predictSub s p = map hamming_encode (SubBytes_subst s).
Proof.
  intros [Hl Hb] Hp.
  rewrite predictSub_map, SubBytes_subst_map, map_map by assumption.
  apply map_ext_in. intros x Hx. apply h_rd_sbox.
  rewrite Forall_forall in Hb. apply Hb, Hx.
Qed.

(** *** ShiftRows *)

Lemma ShiftRows_rotate_wf (s : list Z) : wf_state s -> wf_state (ShiftRows_rotate s).
Proof.
  intros [Hl Hb]. cells16 s Hl.
  split; [reflexivity |].
  repeat match goal with H : Forall _ (_ :: _) |- _ => inversion_clear H end.
  cbv [ShiftRows_rotate mset mget wr rd nth Nat.add Nat.mul].
  repeat (apply Forall_cons; [assumption |]). apply Forall_nil.
Qed.

Lemma predictShift_sound (s : list Z) :
  length s = 16%nat ->
  predictShift (map hamming_encode s) = map hamming_encode (ShiftRows_rotate s).
Proof. intros Hl. cells16 s Hl. reflexivity. Qed.

(** *** MixColumns *)

Create HintDb bytes.

#[local] Hint Resolve lxor_is_byte xtime_is_byte rd_is_byte : bytes.

Section MixColumn.

Variables a b c d : Z.
Hypotheses (Ha : is_byte a) (Hb : is_byte b) (Hc : is_byte c) (Hd : is_byte d).

Lemma column_xor_is_byte : is_byte (column_xor a b c d).
Proof. unfold column_xor. auto with bytes. Qed.

Lemma mix_cell_is_byte (x y z : Z) :
  is_byte x -> is_byte y -> is_byte z ->
  is_byte (Z.lxor x (Z.lxor (xtime (Z.lxor y z)) (column_xor a b c d))).
Proof. pose proof column_xor_is_byte. auto with bytes. Qed.

Lemma mix_cell_code (x y z : Z) :
  is_byte x -> is_byte y -> is_byte z ->
  hamming_encode (Z.lxor x (Z.lxor (xtime (Z.lxor y z)) (column_xor a b c d)))
  = Z.lxor (hamming_encode x)
      (Z.lxor (Z.lxor (hamming_encode (xtime y)) (hamming_encode (xtime z)))
         (Z.lxor (Z.lxor (Z.lxor (hamming_encode a) (hamming_encode b))
                    (hamming_encode c)) (hamming_encode d))).
Proof.
  intros Hx Hy Hz. pose proof column_xor_is_byte.
  rewrite hamming_encode_lxor by auto with bytes.
  rewrite hamming_encode_lxor by auto with bytes.
  rewrite xtime_lxor by assumption.
  rewrite hamming_encode_lxor by auto with bytes.
  unfold column_xor. rewrite !hamming_encode_lxor by auto with bytes.
  reflexivity.
Qed.

Lemma predict_mix_0 :
  Z.lxor (Z.lxor (Z.lxor (hamming_encode (xtime a)) (hamming_encode (Multiply b 0x03)))
            (hamming_encode c)) (hamming_encode d)
  = hamming_encode (Z.lxor a (Z.lxor (xtime (Z.lxor a b)) (column_xor a b c d))).
Proof.
  rewrite mix_cell_code, Multiply_3, hamming_encode_lxor by auto with bytes.
  xor_bits.
Qed.

Lemma predict_mix_1 :
  Z.lxor (Z.lxor (Z.lxor (hamming_encode a) (hamming_encode (xtime b)))
            (hamming_encode (Multiply c 0x03))) (hamming_encode d)
  = hamming_encode (Z.lxor b (Z.lxor (xtime (Z.lxor b c)) (column_xor a b c d))).
Proof.
  rewrite mix_cell_code, Multiply_3, hamming_encode_lxor by auto with bytes.
  xor_bits.
Qed.

Lemma predict_mix_2 :
  Z.lxor (Z.lxor (Z.lxor (hamming_encode a) (hamming_encode b))
            (hamming_encode (xtime c))) (hamming_encode (Multiply d 0x03))
  = hamming_encode (Z.lxor c (Z.lxor (xtime (Z.lxor c d)) (column_xor a b c d))).
Proof.
  rewrite mix_cell_code, Multiply_3, hamming_encode_lxor by auto with bytes.
  xor_bits.
Qed.

Lemma predict_mix_3 :
  Z.lxor (Z.lxor (Z.lxor (hamming_encode (Multiply a 0x03)) (hamming_encode b))
            (hamming_encode c)) (hamming_encode (xtime d))
  = hamming_encode (Z.lxor d (Z.lxor (xtime (Z.lxor d a)) (column_xor a b c d))).
Proof.
  rewrite mix_cell_code, Multiply_3, hamming_encode_lxor by auto with bytes.
  xor_bits.
Qed.

End MixColumn.

(** The cells of a well-formed state, one hypothesis each. *)
Ltac bytes_of_state Hb :=
  repeat match type of Hb with
         | Forall _ (_ :: _) =>
             let H := fresh "B" in
             apply Forall_cons_iff in Hb; destruct Hb as [H Hb]
         end.

Local Opaque hamming_encode xtime Multiply Z.lxor.

Lemma MixColumns_mix_wf (s : list Z) : wf_state s -> wf_state (MixColumns_mix s).
Proof.
  intros [Hl Hb]. cells16 s Hl. bytes_of_state Hb.
  split; [reflexivity |].
  cbv [MixColumns_mix for4 fold_left mset mget wr rd nth Nat.add Nat.mul].
  repeat (apply Forall_cons; [apply mix_cell_is_byte; assumption |]).
  apply Forall_nil.
Qed.

Lemma predictMixCols_sound (s p : list Z) :
  wf_state s -> length p = 16%nat ->
  predictMixCols s p = map hamming_encode (MixColumns_mix s).
Proof.
  intros [Hl Hb] Hp. cells16 s Hl. cells16 p Hp. bytes_of_state Hb.
  cbv [predictMixCols MixColumns_mix for4 fold_left mset mget wr rd nth Nat.add
       Nat.mul map].
  repeat (apply (f_equal2 (@cons Z));
          [ first [ apply predict_mix_0 | apply predict_mix_1
                  | apply predict_mix_2 | apply predict_mix_3 ]; assumption | ]).
  reflexivity.
Qed.

Local Transparent hamming_encode xtime Multiply Z.lxor.

(** ** Compare-and-correct on matrices that agree *)

Lemma bind_Ok {A B : Type} (a : A) (k : A -> result B) : bind (Ok a) k = k a.
Proof. reflexivity. Qed.

Lemma memcmp_refl (a : list Z) (n : nat) : memcmp a a n = 0.
Proof.
  revert a. induction n; intros [| x a]; simpl; try reflexivity.
  rewrite Z.eqb_refl. apply IHn.
Qed.

Lemma memcmp_eq (a b : list Z) (n : nat) :
  length a = n -> length b = n -> memcmp a b n = 0 -> a = b.
Proof.
  revert a b. induction n; intros [| x a] [| y b] Ha Hb; simpl; try discriminate;
    try reflexivity.
  destruct (Z.eqb_spec x y) as [-> | Hne]; intros H.
  - f_equal. apply IHn; auto.
  - lia.
Qed.

Lemma compareCodes_agree (s h : list Z) : compareCodes s h h = Ok s.
Proof. unfold compareCodes. rewrite memcmp_refl. reflexivity. Qed.

Lemma compareCodes_differ (s h p : list Z) :
  memcmp h p sizeof_hamstate_t <> 0 -> compareCodes s h p = Exit 2.
Proof.
  intros H. unfold compareCodes.
  destruct (Z.eqb_spec (memcmp h p sizeof_hamstate_t) 0); [contradiction | reflexivity].
Qed.

Lemma settle (s h p : list Z) :
  length s = 16%nat -> length h = 16%nat -> p = map hamming_encode s ->
  (let hamstate := encode_state s h in
   state <- compareCodes s hamstate p ;; Ok (Mem state hamstate p))
  = Ok (settled s).
Proof.
  intros Hs Hh ->. cbv zeta. rewrite encode_state_map by assumption.
  rewrite compareCodes_agree. reflexivity.
Qed.

Lemma AddRoundKey_settles (round : nat) (s h rk : list Z) :
  wf_state s -> length h = 16%nat -> Forall is_byte rk ->
  AddRoundKey round (Mem s h (map hamming_encode s)) rk
  = Ok (settled (AddRoundKey_xor round s rk)).
Proof.
  intros Hs Hh Hrk. unfold AddRoundKey. cbn [m_state m_hamstate m_pcode].
  apply settle; [apply AddRoundKey_xor_wf; assumption | exact Hh |].
  apply predictAddKey_sound; assumption.
Qed.

Lemma SubBytes_settles (s h p : list Z) :
  wf_state s -> length h = 16%nat -> length p = 16%nat ->
  SubBytes (Mem s h p) = Ok (settled (SubBytes_subst s)).
Proof.
  intros Hs Hh Hp. unfold SubBytes. cbn [m_state m_hamstate m_pcode].
  apply settle; [apply SubBytes_subst_wf; assumption | exact Hh |].
  apply predictSub_sound; assumption.
Qed.

Lemma ShiftRows_settles (s h : list Z) :
  wf_state s -> length h = 16%nat ->
  ShiftRows (Mem s h (map hamming_encode s)) = Ok (settled (ShiftRows_rotate s)).
Proof.
  intros Hs Hh. unfold ShiftRows. cbn [m_state m_hamstate m_pcode].
  apply settle; [apply ShiftRows_rotate_wf; assumption | exact Hh |].
  apply predictShift_sound, Hs.
Qed.

Lemma MixColumns_settles (s h p : list Z) :
  wf_state s -> length h = 16%nat -> length p = 16%nat ->
  MixColumns (Mem s h p) = Ok (settled (MixColumns_mix s)).
Proof.
  intros Hs Hh Hp. unfold MixColumns. cbn [m_state m_hamstate m_pcode].
  apply settle; [apply MixColumns_mix_wf; assumption | exact Hh |].
  apply predictMixCols_sound; assumption.
Qed.

(** ** The pipeline as a list of transforms *)

Lemma run_transform_unfold (T : transform) (rk : list Z) (m : mem) :
  run_transform T rk m
  = (let pcode := predictor T rk (m_state m) (m_pcode m) in
     let state := apply_transform T rk (m_state m) in
     let hamstate := encode_state state (m_hamstate m) in
     state <- compareCodes state hamstate pcode ;; Ok (Mem state hamstate pcode)).
Proof.
  destruct T;
    cbv beta iota zeta delta [run_transform predictor apply_transform AddRoundKey
                              SubBytes ShiftRows MixColumns];
    reflexivity.
Qed.

Lemma run_transforms_app (Ts Us : list transform) (rk : list Z) (m : mem) :
  run_transforms (Ts ++ Us) rk m
  = (m' <- run_transforms Ts rk m ;; run_transforms Us rk m').
Proof.
  revert m. induction Ts as [| T Ts IH]; intros m; simpl; [reflexivity |].
  destruct (run_transform T rk m); simpl; auto.
Qed.

Lemma Cipher_rounds_schedule (v : variant) (rk : list Z) (n round : nat) (m : mem) :
  (round + n = Nr v)%nat ->
  Cipher_rounds v rk (S n) round m
  = run_transforms (middle_rounds round n ++ [T_SubBytes; T_ShiftRows]) rk m.
Proof.
  revert round m. induction n as [| n IH]; intros round m E.
  - cbn [Cipher_rounds middle_rounds seq flat_map app run_transforms run_transform].
    destruct (SubBytes m) as [m1 | ? |]; cbn [bind]; [| reflexivity | reflexivity].
    destruct (ShiftRows m1) as [m2 | ? |]; cbn [bind]; [| reflexivity | reflexivity].
    replace (round =? Nr v)%nat with true by (symmetry; apply Nat.eqb_eq; lia).
    reflexivity.
  - change (Cipher_rounds v rk (S (S n)) round m)
      with (m <- SubBytes m ;; m <- ShiftRows m ;;
            if (round =? Nr v)%nat then Ok m
            else m <- MixColumns m ;; m <- AddRoundKey round m rk ;;
                 Cipher_rounds v rk (S n) (S round) m).
    cbn [middle_rounds seq flat_map app run_transforms run_transform].
    destruct (SubBytes m) as [m1 | ? |]; cbn [bind]; [| reflexivity | reflexivity].
    destruct (ShiftRows m1) as [m2 | ? |]; cbn [bind]; [| reflexivity | reflexivity].
    replace (round =? Nr v)%nat with false by (symmetry; apply Nat.eqb_neq; lia).
    destruct (MixColumns m2) as [m3 | ? |]; cbn [bind]; [| reflexivity | reflexivity].
    destruct (AddRoundKey round m3 rk) as [m4 | ? |]; cbn [bind]; [| reflexivity | reflexivity].
    apply IH. lia.
Qed.

Lemma Nr_pos (v : variant) : (1 <= Nr v)%nat.
Proof. destruct v; simpl; lia. Qed.

Lemma Cipher_schedule (v : variant) (state rk : list Z) :
  Cipher v state rk
  = (m <- run_transforms (schedule v) rk
            (Mem state fresh_hamstate (encode_state state fresh_hamstate)) ;;
     Ok (m_state m)).
Proof.
  unfold Cipher, schedule. cbv zeta.
  cbn [run_transforms run_transform].
  destruct (AddRoundKey 0 _ rk) as [m1 | ? |]; cbn [bind]; [| reflexivity | reflexivity].
  pose proof (Nr_pos v) as Hv.
  replace (Nr v) with (S (Nr v - 1)) at 1 by lia.
  rewrite Cipher_rounds_schedule by lia.
  change [T_SubBytes; T_ShiftRows; T_AddRoundKey (Nr v)]
    with ([T_SubBytes; T_ShiftRows] ++ [T_AddRoundKey (Nr v)]).
  rewrite app_assoc, (run_transforms_app _ [T_AddRoundKey (Nr v)]).
  destruct (run_transforms _ rk m1) as [m2 | ? |]; cbn [bind]; [| reflexivity | reflexivity].
  cbn [run_transforms run_transform].
  destruct (AddRoundKey (Nr v) m2 rk); reflexivity.
Qed.

Lemma settled_is_settled (s : list Z) : wf_state s -> settled_mem (settled s).
Proof.
  intros Hs. unfold settled_mem, settled. cbn [m_state m_hamstate m_pcode].
  repeat split; try apply Hs. rewrite length_map. apply Hs.
Qed.

Lemma apply_transform_wf (T : transform) (rk s : list Z) :
  Forall is_byte rk -> wf_state s -> wf_state (apply_transform T rk s).
Proof.
  intros Hrk Hs. destruct T; cbn [apply_transform].
  - apply AddRoundKey_xor_wf; assumption.
  - apply SubBytes_subst_wf; assumption.
  - apply ShiftRows_rotate_wf; assumption.
  - apply MixColumns_mix_wf; assumption.
Qed.

Lemma run_transform_settles (T : transform) (rk : list Z) (m : mem) :
  Forall is_byte rk -> settled_mem m ->
  run_transform T rk m = Ok (settled (apply_transform T rk (m_state m))).
Proof.
  intros Hrk (Hs & Hh & Hp). destruct m as [s h p]. cbn [m_state m_hamstate m_pcode] in *.
  subst p. destruct T; cbn [run_transform apply_transform].
  - apply AddRoundKey_settles; assumption.
  - apply SubBytes_settles; try assumption. rewrite length_map. apply Hs.
  - apply ShiftRows_settles; assumption.
  - apply MixColumns_settles; try assumption. rewrite length_map. apply Hs.
Qed.

Lemma run_transforms_settles (T : transform) (Ts : list transform) (rk : list Z)
  (m : mem) :
  Forall is_byte rk -> settled_mem m ->
  run_transforms (T :: Ts) rk m
  = Ok (settled (apply_transforms (T :: Ts) rk (m_state m))).
Proof.
  intros Hrk. revert T m. induction Ts as [| U Ts IH]; intros T m Hm.
  - cbn [run_transforms apply_transforms fold_left].
    rewrite run_transform_settles by assumption. reflexivity.
  - change (run_transforms (T :: U :: Ts) rk m)
      with (m' <- run_transform T rk m ;; run_transforms (U :: Ts) rk m').
    rewrite run_transform_settles by assumption. cbn [bind].
    rewrite IH.
    + reflexivity.
    + apply settled_is_settled, apply_transform_wf; [assumption | apply Hm].
Qed.

Lemma fresh_settled (s : list Z) :
  wf_state s -> settled_mem (Mem s fresh_hamstate (encode_state s fresh_hamstate)).
Proof.
  intros Hs. unfold settled_mem. cbn [m_state m_hamstate m_pcode].
  repeat split; try apply Hs; try reflexivity.
  apply encode_state_map; [apply Hs | reflexivity].
Qed.

Lemma Cipher_unchecked (v : variant) (s rk : list Z) :
  wf_state s -> Forall is_byte rk ->
  Cipher v s rk = Ok (apply_transforms (schedule v) rk s).
Proof.
  intros Hs Hrk. rewrite Cipher_schedule. unfold schedule.
  rewrite run_transforms_settles by (try assumption; apply fresh_settled, Hs).
  reflexivity.
Qed.

(** ** The transforms against the standard *)

Lemma sbox_table (b : Z) : is_byte b -> getSBoxValue b = Textbook.SBox b.
Proof.
  intros Hb. apply Z.eqb_eq. revert b Hb.
  apply forall_bytes. vm_compute. reflexivity.
Qed.

Lemma gf_mul_1 (x : Z) : is_byte x -> Textbook.gf_mul 0x01 x = x.
Proof.
  intros Hx. apply Z.eqb_eq. revert x Hx.
  apply forall_bytes. vm_compute. reflexivity.
Qed.

Lemma gf_mul_2 (x : Z) : is_byte x -> Textbook.gf_mul 0x02 x = xtime x.
Proof.
  intros Hx. apply Z.eqb_eq. revert x Hx.
  apply forall_bytes. vm_compute. reflexivity.
Qed.

Lemma gf_mul_3 (x : Z) : is_byte x -> Textbook.gf_mul 0x03 x = Z.lxor x (xtime x).
Proof.
  intros Hx. apply Z.eqb_eq. revert x Hx.
  apply forall_bytes. vm_compute. reflexivity.
Qed.

Lemma nth_mapi_from (f : nat -> Z -> Z) (l : list Z) (j k : nat) :
  (k < length l)%nat -> nth k (mapi_from j f l) 0 = f (j + k)%nat (nth k l 0).
Proof.
  revert j k. induction l as [| x l IH]; intros j k H; simpl in H; [lia |].
  destruct k; simpl.
  - rewrite Nat.add_0_r. reflexivity.
  - rewrite IH by lia. f_equal. lia.
Qed.

Lemma nth_tabulate (f : nat -> nat -> Z) (k : nat) :
  (k < 16)%nat -> nth k (Textbook.tabulate f) 0 = f (k / 4)%nat (k mod 4)%nat.
Proof.
  intros Hk. unfold Textbook.tabulate.
  do 16 (destruct k as [| k]; [reflexivity |]). lia.
Qed.

Lemma tabulate_length (f : nat -> nat -> Z) : length (Textbook.tabulate f) = 16%nat.
Proof. reflexivity. Qed.

Lemma AddRoundKey_xor_textbook (round : nat) (s rk : list Z) :
  length s = 16%nat -> AddRoundKey_xor round s rk = Textbook.AddRoundKey round s rk.
Proof.
  intros Hl. rewrite AddRoundKey_xor_cells by exact Hl.
  unfold Textbook.AddRoundKey.
  apply (nth_ext _ _ 0 0).
  - unfold cells. rewrite mapi_from_length, tabulate_length. exact Hl.
  - unfold cells. rewrite mapi_from_length. intros k Hk.
    rewrite nth_mapi_from, nth_tabulate by lia. cbn [Nat.add].
    unfold Textbook.cell, rd, Nb.
    pose proof (Nat.div_mod_eq k 4) as E.
    f_equal; f_equal; lia.
Qed.

Lemma SubBytes_subst_textbook (s : list Z) :
  wf_state s -> SubBytes_subst s = Textbook.SubBytes s.
Proof.
  intros [Hl Hb]. rewrite SubBytes_subst_map by exact Hl.
  apply map_ext_in. intros x Hx. apply sbox_table.
  rewrite Forall_forall in Hb. apply Hb, Hx.
Qed.

Lemma ShiftRows_rotate_textbook (s : list Z) :
  length s = 16%nat -> ShiftRows_rotate s = Textbook.ShiftRows s.
Proof. intros Hl. cells16 s Hl. reflexivity. Qed.

Local Opaque hamming_encode xtime Multiply Z.lxor Textbook.gf_mul.

Lemma MixColumns_mix_textbook (s : list Z) :
  wf_state s -> MixColumns_mix s = Textbook.MixColumns s.
Proof.
  intros [Hl Hb]. cells16 s Hl. bytes_of_state Hb.
  cbv [MixColumns_mix for4 fold_left mset mget wr rd nth Nat.add Nat.mul
       Textbook.MixColumns Textbook.tabulate Textbook.cell Textbook.mix_matrix
       map seq Nat.div Nat.modulo Nat.divmod fst snd Nat.sub].
  rewrite !gf_mul_1, !gf_mul_2, !gf_mul_3 by assumption.
  repeat (apply (f_equal2 (@cons Z));
          [ rewrite xtime_lxor by assumption; xor_bits | ]).
  reflexivity.
Qed.

Local Transparent hamming_encode xtime Multiply Z.lxor Textbook.gf_mul.

Lemma apply_transforms_app (Ts Us : list transform) (rk s : list Z) :
  apply_transforms (Ts ++ Us) rk s = apply_transforms Us rk (apply_transforms Ts rk s).
Proof. unfold apply_transforms. apply fold_left_app. Qed.

Lemma apply_transforms_wf (Ts : list transform) (rk s : list Z) :
  Forall is_byte rk -> wf_state s -> wf_state (apply_transforms Ts rk s).
Proof.
  intros Hrk. revert s. induction Ts as [| T Ts IH]; intros s Hs; [exact Hs |].
  apply IH, apply_transform_wf; assumption.
Qed.

Lemma middle_rounds_textbook (rk : list Z) (count from : nat) (s : list Z) :
  Forall is_byte rk -> wf_state s ->
  apply_transforms (middle_rounds from count) rk s
  = fold_left (Textbook.round rk) (seq from count) s.
Proof.
  intros Hrk. revert from s. induction count as [| n IH]; intros from s Hs.
  - reflexivity.
  - change (middle_rounds from (S n))
      with ([T_SubBytes; T_ShiftRows; T_MixColumns; T_AddRoundKey from]
              ++ middle_rounds (S from) n).
    rewrite apply_transforms_app.
    assert (E : apply_transforms
                  [T_SubBytes; T_ShiftRows; T_MixColumns; T_AddRoundKey from] rk s
                = Textbook.round rk s from).
    { cbn [apply_transforms fold_left apply_transform]. unfold Textbook.round.
      pose proof (SubBytes_subst_wf s Hs) as H1.
      pose proof (ShiftRows_rotate_wf _ H1) as H2.
      pose proof (MixColumns_mix_wf _ H2) as H3.
      rewrite AddRoundKey_xor_textbook by apply H3.
      rewrite MixColumns_mix_textbook by exact H2.
      rewrite ShiftRows_rotate_textbook by apply H1.
      rewrite SubBytes_subst_textbook by exact Hs.
      reflexivity. }
    rewrite E. cbn [seq fold_left]. apply IH.
    rewrite <- E. apply apply_transforms_wf; assumption.
Qed.

Lemma schedule_textbook (v : variant) (s rk : list Z) :
  wf_state s -> Forall is_byte rk ->
  apply_transforms (schedule v) rk s = Textbook.encrypt (Nr v) s rk.
Proof.
  intros Hs Hrk. unfold schedule, Textbook.encrypt.
  change (T_AddRoundKey 0 :: middle_rounds 1 (Nr v - 1)
            ++ [T_SubBytes; T_ShiftRows; T_AddRoundKey (Nr v)])
    with ([T_AddRoundKey 0] ++ middle_rounds 1 (Nr v - 1)
            ++ [T_SubBytes; T_ShiftRows; T_AddRoundKey (Nr v)]).
  rewrite !apply_transforms_app.
  cbn [apply_transforms fold_left apply_transform].
  pose proof (AddRoundKey_xor_wf 0 s rk Hs Hrk) as H0.
  rewrite (AddRoundKey_xor_textbook 0 s) in * by apply Hs.
  fold (apply_transforms (middle_rounds 1 (Nr v - 1)) rk (Textbook.AddRoundKey 0 s rk)).
  pose proof (apply_transforms_wf (middle_rounds 1 (Nr v - 1)) rk _ Hrk H0) as H1.
  rewrite middle_rounds_textbook in * by assumption.
  pose proof (SubBytes_subst_wf _ H1) as H2.
  pose proof (ShiftRows_rotate_wf _ H2) as H3.
  rewrite AddRoundKey_xor_textbook by apply H3.
  rewrite ShiftRows_rotate_textbook by apply H2.
  rewrite SubBytes_subst_textbook by exact H1.
  reflexivity.
Qed.

(** ** Arrays *)

Lemma wr_length (a : list Z) (i : nat) (v : Z) : length (wr a i v) = length a.
Proof.
  revert i. induction a as [| x a IH]; intros [| i]; simpl; try reflexivity.
  f_equal. apply IH.
Qed.

Lemma wr_Forall (P : Z -> Prop) (a : list Z) (i : nat) (v : Z) :
  Forall P a -> P v -> Forall P (wr a i v).
Proof.
  intros Ha Hv. revert i. induction Ha as [| x a Hx Ha IH]; intros [| i]; simpl;
    constructor; auto.
Qed.

Lemma rd_wr_same (a : list Z) (i : nat) (v : Z) :
  (i < length a)%nat -> rd (wr a i v) i = v.
Proof.
  unfold rd. revert i. induction a as [| x a IH]; intros [| i] H; simpl in *.
  - lia.
  - lia.
  - reflexivity.
  - apply IH. lia.
Qed.

Lemma rd_wr_other (a : list Z) (i j : nat) (v : Z) :
  i <> j -> rd (wr a i v) j = rd a j.
Proof.
  unfold rd. revert i j. induction a as [| x a IH]; intros [| i] [| j] H; simpl;
    try reflexivity; try lia.
  apply IH. lia.
Qed.

(** ** Key schedule *)

Lemma Rcon_is_byte (i : nat) : is_byte (rd Rcon i).
Proof.
  apply rd_is_byte. unfold Rcon.
  repeat (apply Forall_cons; [unfold is_byte; lia |]). apply Forall_nil.
Qed.

#[local] Hint Resolve sbox_is_byte Rcon_is_byte wr_Forall : bytes.

Lemma KeyExpansion_word_bytes (v : variant) (rk : list Z) (i : nat) :
  Forall is_byte rk -> Forall is_byte (KeyExpansion_word v rk i).
Proof.
  intros H. unfold KeyExpansion_word, SubWord.
  destruct (i mod Nk v =? 0)%nat; destruct v; try destruct (i mod Nk _ =? 4)%nat;
    auto 20 with bytes.
Qed.

Lemma KeyExpansion_word_length (v : variant) (rk : list Z) (i : nat) :
  length (KeyExpansion_word v rk i) = length rk.
Proof.
  unfold KeyExpansion_word, SubWord.
  destruct (i mod Nk v =? 0)%nat; destruct v; try destruct (i mod Nk _ =? 4)%nat;
    rewrite !wr_length; reflexivity.
Qed.

Lemma KeyExpansion_wf (v : variant) (rk key : list Z) :
  wf_roundkey v rk -> Forall is_byte key -> wf_roundkey v (KeyExpansion v rk key).
Proof.
  intros [Hl Hb] Hk. unfold KeyExpansion, wf_roundkey, wf_bytes.
  set (copy := fun (rk0 : list Z) (i : nat) =>
                 wr (wr (wr (wr rk0 (i * 4 + 0) (rd key (i * 4 + 0)))
                            (i * 4 + 1) (rd key (i * 4 + 1)))
                        (i * 4 + 2) (rd key (i * 4 + 2)))
                    (i * 4 + 3) (rd key (i * 4 + 3))).
  assert (H1 : forall idx rk0, length rk0 = AES_keyExpSize v /\ Forall is_byte rk0 ->
               length (fold_left copy idx rk0) = AES_keyExpSize v
               /\ Forall is_byte (fold_left copy idx rk0)).
  { induction idx as [| i idx IH]; intros rk0 [Hl0 Hb0]; [auto |].
    apply IH. unfold copy. rewrite !wr_length. split; [exact Hl0 |].
    auto 10 with bytes. }
  assert (H2 : forall idx rk0, length rk0 = AES_keyExpSize v /\ Forall is_byte rk0 ->
               length (fold_left (KeyExpansion_word v) idx rk0) = AES_keyExpSize v
               /\ Forall is_byte (fold_left (KeyExpansion_word v) idx rk0)).
  { induction idx as [| i idx IH]; intros rk0 [Hl0 Hb0]; [auto |].
    apply IH. rewrite KeyExpansion_word_length. split; [exact Hl0 |].
    apply KeyExpansion_word_bytes, Hb0. }
  apply H2, H1. auto.
Qed.

(** ** The NIST vectors *)

(** The expanded key does not depend on what the buffer held before. *)
Lemma KeyExpansion_nist (rk : list Z) :
  length rk = 176%nat ->
  KeyExpansion AES128 rk nist_key = KeyExpansion AES128 (repeat 0 176) nist_key.
Proof.
  intros H.
  do 176 (destruct rk as [| ? rk]; [discriminate H |]).
  destruct rk; [| discriminate H].
  vm_compute. reflexivity.
Qed.

Lemma nist_vectors_from_zero :
  map (AES_ECB_encrypt AES128
         (AES_init_ctx AES128 (Ctx (repeat 0 176) (repeat 0 16)) nist_key)) nist_plain
  = map Ok nist_cipher.
Proof. vm_compute. reflexivity. Qed.

(** ** Counter mode *)

Lemma Cipher_wf (v : variant) (s rk : list Z) :
  wf_state s -> Forall is_byte rk ->
  exists c, Cipher v s rk = Ok c /\ wf_state c.
Proof.
  intros Hs Hrk. exists (apply_transforms (schedule v) rk s). split.
  - apply Cipher_unchecked; assumption.
  - apply apply_transforms_wf; assumption.
Qed.

Lemma Iv_increment_wf (k : nat) (iv : list Z) :
  wf_state iv -> wf_state (Iv_increment k iv).
Proof.
  revert iv. induction k as [| bi IH]; intros iv [Hl Hb]; simpl; [split; assumption |].
  destruct (rd iv bi =? 255).
  - apply IH. split; [rewrite wr_length; exact Hl |].
    apply wr_Forall; [exact Hb | unfold is_byte; lia].
  - split; [rewrite wr_length; exact Hl |].
    apply wr_Forall; [exact Hb | apply u8_is_byte].
Qed.

Lemma memcpy_whole (dst src : list Z) (n : nat) :
  length src = n -> length dst = n -> memcpy dst src n = src.
Proof.
  intros Hs Hd. unfold memcpy.
  rewrite <- Hs at 1. rewrite firstn_all, skipn_all2 by lia. apply app_nil_r.
Qed.

Lemma pad_wr (b : list Z) (i j : nat) (k : Z) (b' : list Z) :
  length b = length b' ->
  Z.lxor (rd (wr b i (Z.lxor (rd b i) k)) j) (rd b j)
  = Z.lxor (rd (wr b' i (Z.lxor (rd b' i) k)) j) (rd b' j).
Proof.
  intros Hl. destruct (Nat.eq_dec i j) as [-> | Hne].
  - destruct (Nat.lt_ge_cases j (length b)) as [Hlt | Hge].
    + rewrite !rd_wr_same by lia. xor_bits.
    + unfold rd. rewrite !nth_overflow by (rewrite ?wr_length; lia). reflexivity.
  - rewrite !rd_wr_other by exact Hne. rewrite !Z.lxor_nilpotent. reflexivity.
Qed.

Lemma CTR_step_in_step (v : variant) (rk : list Z) (i : nat) (s t : ctr_vars) :
  Forall is_byte rk -> ctr_ready s -> in_step s t ->
  exists s' t',
    CTR_step v rk i s = Ok s' /\ CTR_step v rk i t = Ok t'
    /\ ctr_ready s' /\ in_step s' t'
    /\ length (c_buf s') = length (c_buf s)
    /\ forall j, pad s s' j = pad t t' j.
Proof.
  intros Hrk [Hiv Hbuf] (E1 & E2 & E3 & E4).
  destruct s as [iv buffer bi buf], t as [iv' buffer' bi' buf'].
  cbn [c_Iv c_buffer c_bi c_buf] in *. subst iv' buffer' bi'.
  unfold CTR_step, pad. cbn [c_Iv c_buffer c_bi c_buf].
  destruct (bi =? AES_BLOCKLEN)%nat.
  - rewrite memcpy_whole by (try apply Hiv; exact Hbuf).
    destruct (Cipher_wf v iv rk Hiv Hrk) as (c & -> & Hc).
    cbn [bind c_Iv c_buffer c_bi c_buf].
    eexists _, _. split; [reflexivity |]. split; [reflexivity |].
    unfold ctr_ready, in_step. cbn [c_Iv c_buffer c_bi c_buf].
    rewrite !wr_length.
    split; [split; [apply Iv_increment_wf, Hiv | apply Hc] |].
    split; [auto |]. split; [reflexivity |].
    intros j. apply pad_wr. exact E4.
  - cbn [bind c_Iv c_buffer c_bi c_buf].
    eexists _, _. split; [reflexivity |]. split; [reflexivity |].
    unfold ctr_ready, in_step. cbn [c_Iv c_buffer c_bi c_buf].
    rewrite !wr_length.
    split; [split; assumption |].
    split; [auto |]. split; [reflexivity |].
    intros j. apply pad_wr. exact E4.
Qed.

Lemma CTR_loop_in_step (v : variant) (rk : list Z) (idx : list nat) (s t : ctr_vars) :
  Forall is_byte rk -> ctr_ready s -> in_step s t ->
  exists s' t',
    CTR_loop v rk idx s = Ok s' /\ CTR_loop v rk idx t = Ok t'
    /\ ctr_ready s' /\ in_step s' t'
    /\ length (c_buf s') = length (c_buf s)
    /\ forall j, pad s s' j = pad t t' j.
Proof.
  intros Hrk. revert s t. induction idx as [| i idx IH]; intros s t Hs Hst.
  - exists s, t. cbn [CTR_loop].
    split; [reflexivity |]. split; [reflexivity |]. split; [exact Hs |].
    split; [exact Hst |]. split; [reflexivity |].
    intros j. unfold pad. rewrite !Z.lxor_nilpotent. reflexivity.
  - destruct (CTR_step_in_step v rk i s t Hrk Hs Hst)
      as (s1 & t1 & Es & Et & Hs1 & Hst1 & Hl1 & Hp1).
    destruct (IH s1 t1 Hs1 Hst1) as (s2 & t2 & Es2 & Et2 & Hs2 & Hst2 & Hl2 & Hp2).
    exists s2, t2. cbn [CTR_loop]. rewrite Es, Et. cbn [bind].
    split; [exact Es2 |]. split; [exact Et2 |]. split; [exact Hs2 |].
    split; [exact Hst2 |]. split; [lia |].
    intros j. specialize (Hp1 j). specialize (Hp2 j). unfold pad in *.
    replace (Z.lxor (rd (c_buf s2) j) (rd (c_buf s) j))
      with (Z.lxor (Z.lxor (rd (c_buf s2) j) (rd (c_buf s1) j))
                   (Z.lxor (rd (c_buf s1) j) (rd (c_buf s) j))) by xor_bits.
    replace (Z.lxor (rd (c_buf t2) j) (rd (c_buf t) j))
      with (Z.lxor (Z.lxor (rd (c_buf t2) j) (rd (c_buf t1) j))
                   (Z.lxor (rd (c_buf t1) j) (rd (c_buf t) j))) by xor_bits.
    rewrite Hp1, Hp2. reflexivity.
Qed.

Lemma in_step_refl (s : ctr_vars) : in_step s s.
Proof. repeat split. Qed.

Lemma CTR_twice (v : variant) (ctx : AES_ctx) (buf : list Z) (n : nat) :
  Forall is_byte (RoundKey ctx) -> wf_state (Iv ctx) ->
  exists ctx1 buf1,
    AES_CTR_xcrypt_buffer v ctx buf n = Ok (ctx1, buf1)
    /\ RoundKey ctx1 = RoundKey ctx
    /\ wf_state (Iv ctx1)
    /\ length buf1 = length buf
    /\ AES_CTR_xcrypt_buffer v ctx buf1 n = Ok (ctx1, buf).
Proof.
  intros Hrk Hiv. unfold AES_CTR_xcrypt_buffer.
  pose (s0 := CtrVars (Iv ctx) (repeat 0 AES_BLOCKLEN) AES_BLOCKLEN buf).
  assert (R0 : ctr_ready s0) by (split; [exact Hiv | reflexivity]).
  destruct (CTR_loop_in_step v (RoundKey ctx) (seq 0 n) s0 s0 Hrk R0 (in_step_refl s0))
    as (s1 & s1' & E1 & _ & R1 & _ & Hl1 & _).
  pose (t0 := CtrVars (Iv ctx) (repeat 0 AES_BLOCKLEN) AES_BLOCKLEN (c_buf s1)).
  assert (Hst : in_step s0 t0).
  { unfold in_step, s0, t0. cbn [c_Iv c_buffer c_bi c_buf].
    repeat split. symmetry. exact Hl1. }
  destruct (CTR_loop_in_step v (RoundKey ctx) (seq 0 n) s0 t0 Hrk R0 Hst)
    as (s2 & t2 & E2 & Et & _ & (Hiv2 & _ & _ & Hl2) & _ & Hp).
  rewrite E1 in E2. injection E2 as <-.
  fold s0. rewrite E1. cbn [bind].
  exists (Ctx (RoundKey ctx) (c_Iv s1)), (c_buf s1).
  split; [reflexivity |]. split; [reflexivity |]. split; [apply R1 |].
  split; [exact Hl1 |].
  fold t0. rewrite Et. cbn [bind]. rewrite <- Hiv2. f_equal. f_equal.
  apply (nth_ext _ _ 0 0).
  - cbn [c_buf t0 s0] in *. lia.
  - intros j _. specialize (Hp j). unfold pad in Hp. cbn [c_buf s0 t0] in Hp.
    fold (rd (c_buf t2) j). fold (rd buf j).
    rewrite <- (Z.lxor_0_r (rd (c_buf t2) j)).
    rewrite <- (Z.lxor_nilpotent (rd (c_buf s1) j)).
    rewrite <- Z.lxor_assoc, <- Hp. xor_bits.
Qed.

(** ** Shapes, and the two outcomes of a checked transform *)

Lemma for4_length (body : nat -> list Z -> list Z) (a : list Z) :
  (forall i x, length (body i x) = length x) -> length (for4 body a) = length a.
Proof.
  intros H. unfold for4. cbn [fold_left]. rewrite !H. reflexivity.
Qed.

Lemma mset_length (m : list Z) (c r : nat) (x : Z) : length (mset m c r x) = length m.
Proof. apply wr_length. Qed.

Lemma encode_state_length (s h : list Z) : length (encode_state s h) = length h.
Proof.
  unfold encode_state. apply for4_length. intros i x.
  apply for4_length. intros j y. apply mset_length.
Qed.

Lemma apply_transform_length (T : transform) (rk s : list Z) :
  length (apply_transform T rk s) = length s.
Proof.
  destruct T; cbn [apply_transform].
  - unfold AddRoundKey_xor. apply for4_length. intros i x.
    apply for4_length. intros j y. apply mset_length.
  - unfold SubBytes_subst. apply for4_length. intros i x.
    apply for4_length. intros j y. apply mset_length.
  - unfold ShiftRows_rotate. cbv zeta. rewrite !mset_length. reflexivity.
  - unfold MixColumns_mix. apply for4_length. intros i x. cbv zeta.
    rewrite !mset_length. reflexivity.
Qed.

Lemma predictor_length (T : transform) (rk s p : list Z) :
  length (predictor T rk s p) = length p.
Proof.
  destruct T; cbn [predictor].
  - unfold predictAddKey. apply for4_length. intros i x.
    apply for4_length. intros j y. apply mset_length.
  - unfold predictSub. apply for4_length. intros i x.
    apply for4_length. intros j y. apply mset_length.
  - unfold predictShift. cbv zeta. rewrite !mset_length. reflexivity.
  - unfold predictMixCols. apply for4_length. intros i x. cbv zeta.
    rewrite !mset_length. reflexivity.
Qed.

(** A checked transform either ends the process or leaves the memory
    settled on the transformed state. *)
Lemma run_transform_cases (T : transform) (rk : list Z) (m : mem) :
  shaped m ->
  run_transform T rk m = Exit 2
  \/ run_transform T rk m = Ok (settled (apply_transform T rk (m_state m))).
Proof.
  intros (Hs & Hh & Hp). rewrite run_transform_unfold. cbv zeta.
  set (s' := apply_transform T rk (m_state m)).
  set (p' := predictor T rk (m_state m) (m_pcode m)).
  assert (Hs' : length s' = 16%nat) by (unfold s'; rewrite apply_transform_length; exact Hs).
  assert (Hp' : length p' = 16%nat) by (unfold p'; rewrite predictor_length; exact Hp).
  rewrite encode_state_map by assumption.
  destruct (Z.eq_dec (memcmp (map hamming_encode s') p' sizeof_hamstate_t) 0) as [E | E].
  - right. apply memcmp_eq in E; [| rewrite length_map; exact Hs' | exact Hp'].
    rewrite <- E. rewrite compareCodes_agree. reflexivity.
  - left. rewrite compareCodes_differ by exact E. reflexivity.
Qed.

(** ** Decryption of the first NIST block *)

Lemma AddRoundKey_cases (round : nat) (rk : list Z) (m : mem) :
  shaped m ->
  AddRoundKey round m rk = Exit 2
  \/ AddRoundKey round m rk = Ok (settled (AddRoundKey_xor round (m_state m) rk)).
Proof. exact (run_transform_cases (T_AddRoundKey round) rk m). Qed.

(** Whatever the local [pcode] held, [InvCipher] either stops at its first
    [AddRoundKey] or goes on from the settled memory. *)
Lemma InvCipher_first_step (v : variant) (pcode0 : hamstate_t) (state rk : list Z) :
  length state = 16%nat -> length pcode0 = 16%nat ->
  InvCipher v pcode0 state rk = Exit 2
  \/ InvCipher v pcode0 state rk
     = (m <- InvCipher_rounds rk (Nr v - 1)
               (settled (AddRoundKey_xor (Nr v) state rk)) ;;
        Ok (m_state m)).
Proof.
  intros Hs Hp. unfold InvCipher. cbv zeta.
  assert (Hm : shaped (Mem state fresh_hamstate pcode0))
    by (split; [exact Hs | split; [reflexivity | exact Hp]]).
  destruct (AddRoundKey_cases (Nr v) rk _ Hm) as [E | E]; rewrite E.
  - left. reflexivity.
  - right. rewrite bind_Ok. reflexivity.
Qed.

Lemma InvCipher_nist_exits (pcode0 : hamstate_t) :
  length pcode0 = 16%nat ->
  InvCipher AES128 pcode0 (nth 0 nist_cipher []) (RoundKey nist_ctx) = Exit 2.
Proof.
  intros Hp.
  destruct (InvCipher_first_step AES128 pcode0 (nth 0 nist_cipher [])
              (RoundKey nist_ctx) eq_refl Hp) as [E | E]; rewrite E.
  - reflexivity.
  - vm_compute. reflexivity.
Qed.

(** ** CBC and the length of the buffer *)

Lemma round_up_blocks (length n i : nat) :
  (i + AES_BLOCKLEN * S n = round_up length)%nat -> (i < length)%nat.
Proof.
  unfold round_up, AES_BLOCKLEN. change (16 - 1)%nat with 15%nat. intros H.
  pose proof (Nat.div_mod_eq (length + 15) 16) as E.
  pose proof (Nat.mod_upper_bound (length + 15) 16). lia.
Qed.

Lemma round_up_ge (length : nat) : (length <= round_up length)%nat.
Proof.
  unfold round_up, AES_BLOCKLEN. change (16 - 1)%nat with 15%nat.
  pose proof (Nat.div_mod_eq (length + 15) 16) as E.
  pose proof (Nat.mod_upper_bound (length + 15) 16). lia.
Qed.

Lemma CBC_encrypt_loop_round_up (v : variant) (rk : list Z) (length n : nat) :
  forall fuel fuel' i Iv buf,
    (i + AES_BLOCKLEN * n = round_up length)%nat ->
    (n <= fuel)%nat -> (n <= fuel')%nat ->
    CBC_encrypt_loop v rk length fuel i Iv buf
    = CBC_encrypt_loop v rk (round_up length) fuel' i Iv buf.
Proof.
  induction n as [| n IH]; intros fuel fuel' i Iv buf E Hf Hf'.
  - pose proof (round_up_ge length).
    assert (E1 : (i <? length)%nat = false) by (apply Nat.ltb_ge; lia).
    assert (E2 : (i <? round_up length)%nat = false) by (apply Nat.ltb_ge; lia).
    destruct fuel, fuel'; cbn [CBC_encrypt_loop]; rewrite E1, E2; reflexivity.
  - pose proof (round_up_blocks length n i E).
    assert (E1 : (i <? length)%nat = true) by (apply Nat.ltb_lt; lia).
    assert (E2 : (i <? round_up length)%nat = true)
      by (apply Nat.ltb_lt; unfold AES_BLOCKLEN in *; lia).
    destruct fuel as [| fuel]; [lia |]. destruct fuel' as [| fuel']; [lia |].
    cbn [CBC_encrypt_loop]. rewrite E1, E2.
    destruct (Cipher v (block_at (XorWithIv buf i Iv) i) rk) as [blk | ? |];
      cbn [bind]; [| reflexivity | reflexivity].
    apply IH; unfold AES_BLOCKLEN in *; lia.
Qed.

Lemma CBC_decrypt_loop_round_up (v : variant) (junk : nat -> hamstate_t)
  (length n : nat) :
  forall fuel fuel' i ctx buf,
    (i + AES_BLOCKLEN * n = round_up length)%nat ->
    (n <= fuel)%nat -> (n <= fuel')%nat ->
    CBC_decrypt_loop v junk length fuel i ctx buf
    = CBC_decrypt_loop v junk (round_up length) fuel' i ctx buf.
Proof.
  induction n as [| n IH]; intros fuel fuel' i ctx buf E Hf Hf'.
  - pose proof (round_up_ge length).
    assert (E1 : (i <? length)%nat = false) by (apply Nat.ltb_ge; lia).
    assert (E2 : (i <? round_up length)%nat = false) by (apply Nat.ltb_ge; lia).
    destruct fuel, fuel'; cbn [CBC_decrypt_loop]; rewrite E1, E2; reflexivity.
  - pose proof (round_up_blocks length n i E).
    assert (E1 : (i <? length)%nat = true) by (apply Nat.ltb_lt; lia).
    assert (E2 : (i <? round_up length)%nat = true)
      by (apply Nat.ltb_lt; unfold AES_BLOCKLEN in *; lia).
    destruct fuel as [| fuel]; [lia |]. destruct fuel' as [| fuel']; [lia |].
    cbn [CBC_decrypt_loop]. rewrite E1, E2.
    destruct (InvCipher v (junk (i / AES_BLOCKLEN)%nat) (block_at buf i) (RoundKey ctx))
      as [blk | ? |]; cbn [bind]; [| reflexivity | reflexivity].
    apply IH; unfold AES_BLOCKLEN in *; lia.
Qed.

Lemma round_up_fuel (length : nat) :
  (round_up length / AES_BLOCKLEN <= length)%nat
  /\ (0 + AES_BLOCKLEN * (round_up length / AES_BLOCKLEN) = round_up length)%nat.
Proof.
  unfold round_up, AES_BLOCKLEN. change (16 - 1)%nat with 15%nat.
  rewrite (Nat.mul_comm 16), Nat.div_mul by lia.
  pose proof (Nat.div_mod_eq (length + 15) 16) as E.
  pose proof (Nat.mod_upper_bound (length + 15) 16). lia.
Qed.

(** ** The corrector *)

Lemma flip_bit_toggle (s k : Z) :
  is_byte s -> 0 <= k < 8 -> flip_bit s k = SpecCorrector.toggle_bit s k.
Proof.
  intros Hs Hk.
  assert (H : (if k <? 8 then flip_bit s k =? SpecCorrector.toggle_bit s k else true) = true).
  { revert s k Hs Hk.
    assert (G : forall s k, is_byte s -> is_byte k ->
                (if k <? 8 then flip_bit s k =? SpecCorrector.toggle_bit s k else true) = true)
      by (apply forall_bytes2; vm_compute; reflexivity).
    intros s k Hs Hk. apply G; [exact Hs | unfold is_byte; lia]. }
  destruct (Z.ltb_spec k 8); [apply Z.eqb_eq, H | lia].
Qed.

Lemma parity_bit_zero (diff x : Z) :
  0 <= x -> (Z.shiftr diff x mod 2 =? 0) = negb (Z.testbit diff x).
Proof.
  intros Hx. rewrite <- Z.bit0_mod, Z.shiftr_spec by lia. cbn [Z.add].
  destruct (Z.testbit diff x); reflexivity.
Qed.

Lemma wr_rd_id (a : list Z) (i : nat) : wr a i (rd a i) = a.
Proof.
  unfold rd. revert i. induction a as [| x a IH]; intros [| i]; simpl;
    try reflexivity.
  f_equal. apply IH.
Qed.

Lemma scan_parity_bit (diff pone ptwo x : Z) :
  0 <= x ->
  scan_parity diff (pone, ptwo) x
  = if Z.testbit diff x then (pone, ptwo)
    else if pone =? -1 then (x, ptwo)
         else if ptwo =? -1 then (pone, x) else (pone, ptwo).
Proof.
  intros Hx. unfold scan_parity. rewrite parity_bit_zero by exact Hx.
  destruct (Z.testbit diff x); reflexivity.
Qed.

Lemma correct_at_cell (c r : nat) (st h p : list Z) :
  is_byte (mget st c r) -> is_byte (mget h c r) -> is_byte (mget p c r) ->
  correct_at c r st h p
  = mset st c r (SpecCorrector.corrected_byte (mget st c r) (mget h c r) (mget p c r)).
Proof.
  intros Hs Hh Hp. unfold correct_at, SpecCorrector.corrected_byte.
  rewrite u8_byte by (apply lxor_is_byte; assumption).
  set (diff := Z.lxor (mget h c r) (mget p c r)).
  destruct (diff =? 0); cbn [negb].
  { unfold mset, mget. rewrite wr_rd_id. reflexivity. }
  unfold SpecCorrector.syndrome, SpecCorrector.zero_positions.
  cbn [fold_left filter].
  repeat (rewrite scan_parity_bit by lia;
          match goal with
          | |- context [Z.testbit diff ?x] => destruct (Z.testbit diff x)
          end;
          cbn [Z.eqb Pos.eqb negb]);
    cbn [nth SpecCorrector.table_lookup SpecCorrector.flip_table fst snd Z.eqb Pos.eqb andb];
    try (rewrite flip_bit_toggle by (try assumption; lia); reflexivity);
    unfold mset, mget; rewrite wr_rd_id; reflexivity.
Qed.

Lemma wf_state_cell (s : list Z) (c r : nat) : wf_state s -> is_byte (mget s c r).
Proof. intros [_ Hb]. apply rd_is_byte, Hb. Qed.

Lemma correct_state_cells (st h p : list Z) :
  wf_state st -> wf_state h -> wf_state p ->
  correct_state st h p
  = cells (fun c r x => SpecCorrector.corrected_byte x (mget h c r) (mget p c r)) st.
Proof.
  intros [Hl Hb] Hh Hp. cells16 st Hl. bytes_of_state Hb.
  unfold correct_state, for4. cbn [fold_left].
  repeat (match goal with
          | |- context [correct_at ?c ?r (?x :: ?l) h p] =>
              rewrite (correct_at_cell c r (x :: l) h p)
                by (try (apply wf_state_cell; assumption);
                    cbn [mget rd nth Nat.add Nat.mul]; assumption)
          end;
          cbn [mset mget wr rd nth Nat.add Nat.mul]).
  reflexivity.
Qed.

Lemma mget_cells (f : nat -> nat -> Z -> Z) (s : list Z) (c r : nat) :
  length s = 16%nat -> (c < 4)%nat -> (r < 4)%nat ->
  mget (cells f s) c r = f c r (mget s c r).
Proof.
  intros Hl Hc Hr. cells16 s Hl.
  do 4 (destruct c as [| c]; [do 4 (destruct r as [| r]; [reflexivity |]); lia |]).
  lia.
Qed.

Lemma memcmp_differ (a b : list Z) (i : nat) :
  length a = 16%nat -> length b = 16%nat -> (i < 16)%nat ->
  rd a i <> rd b i -> memcmp a b sizeof_hamstate_t <> 0.
Proof.
  intros Ha Hb Hi Hne E. apply memcmp_eq in E; try assumption.
  subst b. apply Hne. reflexivity.
Qed.

(** ** Deciding well-formedness *)

Lemma forallb_is_byte (l : list Z) : forallb is_byteb l = true -> Forall is_byte l.
Proof.
  intros H. apply Forall_forall. intros x Hx.
  apply is_byteb_spec. rewrite forallb_forall in H. apply H, Hx.
Qed.

Lemma wf_state_dec (s : list Z) :
  (length s =? 16)%nat && forallb is_byteb s = true -> wf_state s.
Proof.
  intros H. apply andb_true_iff in H. destruct H as [Hl Hb].
  split; [apply Nat.eqb_eq, Hl | apply forallb_is_byte, Hb].
Qed.

Lemma rd_map_hamming (s : list Z) (i : nat) :
  rd (map hamming_encode s) i = hamming_encode (rd s i).
Proof. unfold rd. apply (map_nth hamming_encode s 0 i). Qed.

Lemma predictor_sound (T : transform) (rk s : list Z) :
  wf_state s -> Forall is_byte rk ->
  predictor T rk s (map hamming_encode s)
  = map hamming_encode (apply_transform T rk s).
Proof.
  intros Hs Hrk. destruct T; cbn [predictor apply_transform].
  - apply predictAddKey_sound; assumption.
  - apply predictSub_sound; [exact Hs | rewrite length_map; apply Hs].
  - apply predictShift_sound, Hs.
  - apply predictMixCols_sound; [exact Hs | rewrite length_map; apply Hs].
Qed.

(** * Main results *)

(** ** The NIST vectors *)

(** C1.  With the AES-128 key 2b7e151628aed2a6abf7158809cf4f3c expanded by
    [AES_init_ctx] into any context, [AES_ECB_encrypt] turns each of the four
    plaintext blocks of NIST SP 800-38A into the expected ciphertext
    block. *)
Theorem nist_ecb_vectors (ctx0 : AES_ctx) :
  length (RoundKey ctx0) = AES_keyExpSize AES128 ->
  map (AES_ECB_encrypt AES128 (AES_init_ctx AES128 ctx0 nist_key)) nist_plain
  = map Ok nist_cipher.
Proof.
  intros H. rewrite <- nist_vectors_from_zero.
  apply map_ext. intros buf. unfold AES_ECB_encrypt, AES_init_ctx. cbn [RoundKey].
  rewrite (KeyExpansion_nist (RoundKey ctx0) H). reflexivity.
Qed.

Lemma nist_ecb_vectors_witness :
  length (RoundKey (Ctx (repeat 0xff 176) [])) = AES_keyExpSize AES128
  /\ map (AES_ECB_encrypt AES128
            (AES_init_ctx AES128 (Ctx (repeat 0xff 176) []) nist_key)) nist_plain
     = map Ok nist_cipher.
Proof.
  split; [reflexivity |].
  apply (nist_ecb_vectors (Ctx (repeat 0xff 176) [])). reflexivity.
Defined.

(** ** Decryption *)

(** C2.  Decryption does not give the plaintext back: [AES_ECB_encrypt]
    maps the first NIST plaintext block to its ciphertext, and on that
    ciphertext [AES_ECB_decrypt] ends the process with [exit (2)], whatever
    sixteen bytes the local [pcode] of [InvCipher], which is never
    initialised, happens to hold. *)
Theorem ecb_decrypt_nist_exits (pcode0 : hamstate_t) :
  length pcode0 = 16%nat ->
  AES_ECB_encrypt AES128 nist_ctx (nth 0 nist_plain []) = Ok (nth 0 nist_cipher [])
  /\ AES_ECB_decrypt AES128 pcode0 nist_ctx (nth 0 nist_cipher []) = Exit 2.
Proof.
  intros Hp. split; [vm_compute; reflexivity |].
  unfold AES_ECB_decrypt.
  change (block_at (nth 0 nist_cipher []) 0) with (nth 0 nist_cipher []).
  rewrite InvCipher_nist_exits by exact Hp. reflexivity.
Qed.

Lemma ecb_decrypt_nist_exits_witness :
  length (encode_state (nth 0 nist_cipher []) fresh_hamstate) = 16%nat
  /\ AES_ECB_encrypt AES128 nist_ctx (nth 0 nist_plain []) = Ok (nth 0 nist_cipher [])
  /\ AES_ECB_decrypt AES128 (encode_state (nth 0 nist_cipher []) fresh_hamstate)
       nist_ctx (nth 0 nist_cipher [])
     = Exit 2.
Proof.
  split; [reflexivity |].
  exact (ecb_decrypt_nist_exits (encode_state (nth 0 nist_cipher []) fresh_hamstate)
           eq_refl).
Defined.

(** ** The Hamming overlay *)

(** C3.  For every state of sixteen bytes, every round-key buffer and each
    of [AddRoundKey], [SubBytes], [ShiftRows] and [MixColumns], encoding the
    transformed state cell by cell gives the matrix the predictor of that
    transform computes from the encoding of the state before. *)
Theorem predictors_track_transforms (T : transform) (rk S h h' : list Z) :
  wf_state S -> Forall is_byte rk -> length h = 16%nat -> length h' = 16%nat ->
  encode_state (apply_transform T rk S) h = predictor T rk S (encode_state S h').
Proof.
  intros HS Hrk Hh Hh'.
  rewrite (encode_state_map S h') by (try assumption; apply HS).
  rewrite predictor_sound by assumption.
  apply encode_state_map; [| exact Hh].
  rewrite apply_transform_length. apply HS.
Qed.

Lemma predictors_track_transforms_witness :
  (wf_state demo_state /\ Forall is_byte (RoundKey nist_ctx)
   /\ length fresh_hamstate = 16%nat)
  /\ encode_state (apply_transform T_MixColumns (RoundKey nist_ctx) demo_state)
       fresh_hamstate
     = predictor T_MixColumns (RoundKey nist_ctx) demo_state
         (encode_state demo_state fresh_hamstate).
Proof.
  assert (H1 : wf_state demo_state) by (apply wf_state_dec; vm_compute; reflexivity).
  assert (H2 : Forall is_byte (RoundKey nist_ctx))
    by (apply forallb_is_byte; vm_compute; reflexivity).
  split; [split; [exact H1 | split; [exact H2 | reflexivity]] |].
  exact (predictors_track_transforms T_MixColumns (RoundKey nist_ctx) demo_state
           fresh_hamstate fresh_hamstate H1 H2 eq_refl eq_refl).
Defined.

(** C4.  When, after a round transform, the re-encoded and the predicted
    matrices disagree, the transform ends the process with [exit (2)]: the
    second comparison reads the same two matrices as the first, so the
    disagreement always persists after the corrector has run.  Nothing is
    returned, and no later transform of the block is run. *)
Theorem mismatch_aborts (T : transform) (rk : list Z) (m : mem) :
  memcmp (encode_state (apply_transform T rk (m_state m)) (m_hamstate m))
         (predictor T rk (m_state m) (m_pcode m)) sizeof_hamstate_t <> 0 ->
  run_transform T rk m = Exit 2
  /\ forall (pre post : list transform) (m0 : mem),
       run_transforms pre rk m0 = Ok m ->
       run_transforms (pre ++ T :: post) rk m0 = Exit 2.
Proof.
  intros H.
  assert (E : run_transform T rk m = Exit 2).
  { rewrite run_transform_unfold. cbv zeta.
    rewrite compareCodes_differ by exact H. reflexivity. }
  split; [exact E |].
  intros pre post m0 Hpre.
  rewrite run_transforms_app, Hpre, bind_Ok. cbn [run_transforms].
  rewrite E. reflexivity.
Qed.

Lemma mismatch_aborts_witness :
  memcmp (encode_state (apply_transform T_ShiftRows [] (m_state faulted_mem))
            (m_hamstate faulted_mem))
         (predictor T_ShiftRows [] (m_state faulted_mem) (m_pcode faulted_mem))
         sizeof_hamstate_t <> 0
  /\ run_transform T_ShiftRows [] faulted_mem = Exit 2
  /\ forall (pre post : list transform) (m0 : mem),
       run_transforms pre [] m0 = Ok faulted_mem ->
       run_transforms (pre ++ T_ShiftRows :: post) [] m0 = Exit 2.
Proof.
  assert (H : memcmp (encode_state (apply_transform T_ShiftRows [] (m_state faulted_mem))
                        (m_hamstate faulted_mem))
                (predictor T_ShiftRows [] (m_state faulted_mem) (m_pcode faulted_mem))
                sizeof_hamstate_t <> 0) by (vm_compute; discriminate).
  split; [exact H |].
  exact (mismatch_aborts T_ShiftRows [] faulted_mem H).
Defined.

(** C5.  When a round transform returns, the state is the transformed state
    and the Hamming code of each of its cells is the predicted code of that
    cell. *)
Theorem codes_agree_after_transform (T : transform) (rk : list Z) (m m' : mem) :
  shaped m -> run_transform T rk m = Ok m' ->
  m_state m' = apply_transform T rk (m_state m)
  /\ forall c r, (c < 4)%nat -> (r < 4)%nat ->
       hamming_encode (mget (m_state m') c r) = mget (m_pcode m') c r.
Proof.
  intros Hm E.
  destruct (run_transform_cases T rk m Hm) as [E' | E']; rewrite E' in E;
    [discriminate |].
  injection E as <-. unfold settled. cbn [m_state m_pcode].
  split; [reflexivity |].
  intros c r _ _. unfold mget. symmetry. apply rd_map_hamming.
Qed.

Lemma codes_agree_after_transform_witness :
  (shaped (settled demo_state)
   /\ run_transform T_SubBytes [] (settled demo_state)
      = Ok (settled (SubBytes_subst demo_state)))
  /\ (m_state (settled (SubBytes_subst demo_state))
      = apply_transform T_SubBytes [] (m_state (settled demo_state))
      /\ forall c r, (c < 4)%nat -> (r < 4)%nat ->
           hamming_encode (mget (m_state (settled (SubBytes_subst demo_state))) c r)
           = mget (m_pcode (settled (SubBytes_subst demo_state))) c r).
Proof.
  assert (H1 : shaped (settled demo_state))
    by (split; [reflexivity | split; reflexivity]).
  assert (H2 : run_transform T_SubBytes [] (settled demo_state)
               = Ok (settled (SubBytes_subst demo_state)))
    by (vm_compute; reflexivity).
  split; [split; assumption |].
  exact (codes_agree_after_transform T_SubBytes [] _ _ H1 H2).
Defined.

(** C6.  In every cell [correct_state] leaves the byte the description
    gives: with [diff] the exclusive-or of the observed and the predicted
    code, the byte is kept when [diff] is zero; otherwise [(pone, ptwo)] are
    the first two of the positions 3, 2, 1, 0 at which [diff] has a zero
    bit, and the data bit the table lists for them is inverted.  For a pair
    the table does not list the byte is kept, and [compareCodes] ends the
    process with [exit (2)]. *)
Theorem corrector_follows_table (state hamstate pcode : list Z) (c r : nat) :
  wf_state state -> wf_state hamstate -> wf_state pcode ->
  (c < 4)%nat -> (r < 4)%nat ->
  let observed := mget hamstate c r in
  let predicted := mget pcode c r in
  mget (correct_state state hamstate pcode) c r
  = SpecCorrector.corrected_byte (mget state c r) observed predicted
  /\ (Z.lxor observed predicted <> 0 ->
      SpecCorrector.table_lookup
        (SpecCorrector.syndrome (Z.lxor observed predicted))
        SpecCorrector.flip_table = None ->
      mget (correct_state state hamstate pcode) c r = mget state c r
      /\ compareCodes state hamstate pcode = Exit 2).
Proof.
  intros Hs Hh Hp Hc Hr observed predicted.
  assert (E : mget (correct_state state hamstate pcode) c r
              = SpecCorrector.corrected_byte (mget state c r) observed predicted).
  { rewrite correct_state_cells by assumption.
    rewrite mget_cells by (try assumption; apply Hs). reflexivity. }
  split; [exact E |].
  intros Hd Hn. split.
  - rewrite E. unfold SpecCorrector.corrected_byte.
    destruct (Z.eqb_spec (Z.lxor observed predicted) 0); [contradiction |].
    rewrite Hn. reflexivity.
  - apply compareCodes_differ.
    apply (memcmp_differ hamstate pcode (4 * c + r)); try apply Hh; try apply Hp;
      [lia |].
    intros Eq. apply Hd. unfold observed, predicted, mget. rewrite Eq.
    apply Z.lxor_nilpotent.
Qed.

Lemma corrector_follows_table_witness :
  (wf_state demo_state /\ wf_state (map hamming_encode demo_state)
   /\ wf_state (m_pcode faulted_mem))
  /\ mget (correct_state demo_state (map hamming_encode demo_state)
             (m_pcode faulted_mem)) 2 1
     = SpecCorrector.corrected_byte (mget demo_state 2 1)
         (mget (map hamming_encode demo_state) 2 1)
         (mget (m_pcode faulted_mem) 2 1)
  /\ (Z.lxor (mget (map hamming_encode demo_state) 2 1)
        (mget (m_pcode faulted_mem) 2 1) <> 0 ->
      SpecCorrector.table_lookup
        (SpecCorrector.syndrome
           (Z.lxor (mget (map hamming_encode demo_state) 2 1)
              (mget (m_pcode faulted_mem) 2 1)))
        SpecCorrector.flip_table = None ->
      mget (correct_state demo_state (map hamming_encode demo_state)
              (m_pcode faulted_mem)) 2 1 = mget demo_state 2 1
      /\ compareCodes demo_state (map hamming_encode demo_state)
           (m_pcode faulted_mem) = Exit 2).
Proof.
  assert (H1 : wf_state demo_state) by (apply wf_state_dec; vm_compute; reflexivity).
  assert (H2 : wf_state (map hamming_encode demo_state))
    by (apply wf_state_dec; vm_compute; reflexivity).
  assert (H3 : wf_state (m_pcode faulted_mem))
    by (apply wf_state_dec; vm_compute; reflexivity).
  split; [split; [exact H1 | split; [exact H2 | exact H3]] |].
  exact (corrector_follows_table demo_state (map hamming_encode demo_state)
           (m_pcode faulted_mem) 2 1 H1 H2 H3
           ltac:(lia) ltac:(lia)).
Defined.

(** C7.  For every input [b], [hamming_encode b] is the four parities
    [p0 = b3 ^ b2 ^ b1 ^ b0], [p1 = b6 ^ b5 ^ b4 ^ b0],
    [p2 = b7 ^ b5 ^ b4 ^ b2 ^ b1] and [p3 = b7 ^ b6 ^ b4 ^ b3 ^ b1] packed as
    [(p3 p2 p1 p0)] in the low nibble, the high nibble being zero. *)
Theorem hamming_encode_bits (b : Z) :
  hamming_encode b
  = Z.b2z (parity0 b) + 2 * Z.b2z (parity1 b) + 4 * Z.b2z (parity2 b)
    + 8 * Z.b2z (parity3 b)
  /\ Z.testbit (hamming_encode b) 0 = parity0 b
  /\ Z.testbit (hamming_encode b) 1 = parity1 b
  /\ Z.testbit (hamming_encode b) 2 = parity2 b
  /\ Z.testbit (hamming_encode b) 3 = parity3 b
  /\ Z.shiftr (hamming_encode b) 4 = 0.
Proof.
  rewrite hamming_encode_parities.
  destruct (parity0 b), (parity1 b), (parity2 b), (parity3 b);
    repeat split; reflexivity.
Qed.

(** ** Counter mode *)

(** C9.  For every key, every initial vector and every buffer, of any
    length, [AES_CTR_xcrypt_buffer] returns, and run again on its output
    with the same key and the initial vector set anew it returns the
    original buffer. *)
Theorem ctr_xcrypt_twice (v : variant) (ctx0 : AES_ctx) (key iv buf : list Z) :
  wf_ctx v ctx0 -> wf_key v key -> wf_state iv ->
  let ctx := AES_init_ctx_iv v ctx0 key iv in
  exists ctx1 buf1 ctx2,
    AES_CTR_xcrypt_buffer v ctx buf (length buf) = Ok (ctx1, buf1)
    /\ AES_CTR_xcrypt_buffer v (AES_ctx_set_iv ctx1 iv) buf1 (length buf)
       = Ok (ctx2, buf).
Proof.
  intros [Hrk0 Hiv0] [_ Hkey] Hiv ctx.
  assert (Hrk : Forall is_byte (RoundKey ctx))
    by (apply (KeyExpansion_wf v _ key Hrk0 Hkey)).
  assert (Eiv : Iv ctx = iv)
    by (apply memcpy_whole; [apply Hiv | apply Hiv0]).
  assert (Hiv' : wf_state (Iv ctx)) by (rewrite Eiv; exact Hiv).
  destruct (CTR_twice v ctx buf (length buf) Hrk Hiv')
    as (ctx1 & buf1 & E1 & Erk & Hiv1 & _ & E2).
  exists ctx1, buf1, ctx1. split; [exact E1 |].
  replace (AES_ctx_set_iv ctx1 iv) with ctx; [exact E2 |].
  unfold AES_ctx_set_iv. rewrite Erk.
  rewrite memcpy_whole by (try apply Hiv; apply Hiv1).
  rewrite <- Eiv. destruct ctx; reflexivity.
Qed.

Lemma ctr_xcrypt_twice_witness :
  (wf_ctx AES128 (Ctx (repeat 0 176) (repeat 0 16)) /\ wf_key AES128 nist_key
   /\ wf_state (repeat 0xff 16))
  /\ exists ctx1 buf1 ctx2,
       AES_CTR_xcrypt_buffer AES128
         (AES_init_ctx_iv AES128 (Ctx (repeat 0 176) (repeat 0 16)) nist_key
            (repeat 0xff 16))
         demo_message (length demo_message) = Ok (ctx1, buf1)
       /\ AES_CTR_xcrypt_buffer AES128 (AES_ctx_set_iv ctx1 (repeat 0xff 16)) buf1
            (length demo_message) = Ok (ctx2, demo_message).
Proof.
  assert (H1 : wf_ctx AES128 (Ctx (repeat 0 176) (repeat 0 16))).
  { split; [split; [reflexivity | apply forallb_is_byte; vm_compute; reflexivity] |].
    apply wf_state_dec. vm_compute. reflexivity. }
  assert (H2 : wf_key AES128 nist_key)
    by (split; [reflexivity | apply forallb_is_byte; vm_compute; reflexivity]).
  assert (H3 : wf_state (repeat 0xff 16)) by (apply wf_state_dec; vm_compute; reflexivity).
  split; [split; [exact H1 | split; [exact H2 | exact H3]] |].
  exact (ctr_xcrypt_twice AES128 _ nist_key (repeat 0xff 16) demo_message H1 H2 H3).
Defined.

(** ** The pipeline against the standard *)

(** C10.  For every round-key buffer and every block of sixteen bytes,
    [Cipher] returns the ciphertext of AES as the standard describes it,
    and at every transform of the run the re-encoded and the predicted
    matrices are equal, so neither the corrector nor [exit] is reached. *)
Theorem Cipher_refines_textbook (v : variant) (state rk : list Z) :
  wf_state state -> wf_roundkey v rk ->
  Cipher v state rk = Ok (Textbook.encrypt (Nr v) state rk)
  /\ forall (pre post : list transform) (T : transform),
       schedule v = pre ++ T :: post ->
       exists m,
         run_transforms pre rk
           (Mem state fresh_hamstate (encode_state state fresh_hamstate)) = Ok m
         /\ memcmp (encode_state (apply_transform T rk (m_state m)) (m_hamstate m))
                   (predictor T rk (m_state m) (m_pcode m)) sizeof_hamstate_t = 0.
Proof.
  intros Hs [_ Hrk]. split.
  - rewrite Cipher_unchecked by assumption. f_equal.
    apply schedule_textbook; assumption.
  - intros pre post T _.
    pose proof (fresh_settled state Hs) as H0.
    assert (Hpre : exists m, run_transforms pre rk
                     (Mem state fresh_hamstate (encode_state state fresh_hamstate)) = Ok m
                   /\ settled_mem m).
    { destruct pre as [| U pre].
      - eexists. split; [reflexivity | exact H0].
      - eexists. split; [apply run_transforms_settles; assumption |].
        apply settled_is_settled, apply_transforms_wf; [exact Hrk | apply H0]. }
    destruct Hpre as (m & Em & Hm & Hh & Hp).
    exists m. split; [exact Em |].
    rewrite Hp, predictor_sound by assumption.
    rewrite encode_state_map
      by (try exact Hh; rewrite apply_transform_length; apply Hm).
    apply memcmp_refl.
Qed.

Lemma Cipher_refines_textbook_witness :
  (wf_state demo_state /\ wf_roundkey AES128 (RoundKey nist_ctx))
  /\ Cipher AES128 demo_state (RoundKey nist_ctx)
     = Ok (Textbook.encrypt (Nr AES128) demo_state (RoundKey nist_ctx))
  /\ forall (pre post : list transform) (T : transform),
       schedule AES128 = pre ++ T :: post ->
       exists m,
         run_transforms pre (RoundKey nist_ctx)
           (Mem demo_state fresh_hamstate (encode_state demo_state fresh_hamstate))
         = Ok m
         /\ memcmp (encode_state (apply_transform T (RoundKey nist_ctx) (m_state m))
                      (m_hamstate m))
                   (predictor T (RoundKey nist_ctx) (m_state m) (m_pcode m))
                   sizeof_hamstate_t = 0.
Proof.
  assert (H1 : wf_state demo_state) by (apply wf_state_dec; vm_compute; reflexivity).
  assert (H2 : wf_roundkey AES128 (RoundKey nist_ctx))
    by (split; [vm_compute; reflexivity | apply forallb_is_byte; vm_compute; reflexivity]).
  split; [split; assumption |].
  exact (Cipher_refines_textbook AES128 demo_state (RoundKey nist_ctx) H1 H2).
Defined.

(** * Further properties *)

(** ** Faults in one byte *)

Lemma bit_index_is_byte (k : Z) : 0 <= k < 8 -> is_byte k.
Proof. unfold is_byte. lia. Qed.

Lemma one_fault_changes_code (b j : Z) :
  is_byte b -> 0 <= j < 8 -> hamming_encode (flip_bit b j) <> hamming_encode b.
Proof.
  intros Hb Hj.
  assert (G : forall b j, is_byte b -> is_byte j ->
              (if j <? 8 then negb (hamming_encode (flip_bit b j) =? hamming_encode b)
               else true) = true)
    by (apply forall_bytes2; vm_compute; reflexivity).
  specialize (G b j Hb (bit_index_is_byte j Hj)).
  destruct (Z.ltb_spec j 8); [| lia].
  apply negb_true_iff, Z.eqb_neq in G. exact G.
Qed.

Lemma two_faults_change_code (b j k : Z) :
  is_byte b -> 0 <= j < 8 -> 0 <= k < 8 -> j <> k ->
  hamming_encode (flip_bit (flip_bit b j) k) <> hamming_encode b.
Proof.
  intros Hb Hj Hk Hjk.
  assert (G : forall b j, is_byte b -> is_byte j ->
              forallb (fun k =>
                if (j <? 8) && negb (j =? k)
                then negb (hamming_encode (flip_bit (flip_bit b j) k) =? hamming_encode b)
                else true) [0; 1; 2; 3; 4; 5; 6; 7] = true)
    by (apply forall_bytes2; vm_compute; reflexivity).
  specialize (G b j Hb (bit_index_is_byte j Hj)).
  rewrite forallb_forall in G.
  assert (Hin : In k [0; 1; 2; 3; 4; 5; 6; 7]) by (simpl; lia).
  specialize (G k Hin).
  destruct (Z.ltb_spec j 8); [| lia].
  destruct (Z.eqb_spec j k); [contradiction |].
  cbn [andb negb] in G. apply negb_true_iff, Z.eqb_neq in G. exact G.
Qed.

Lemma repair_cell (x k : Z) :
  is_byte x -> 0 <= k < 8 ->
  SpecCorrector.corrected_byte (flip_bit x k) (hamming_encode (flip_bit x k))
    (hamming_encode x) = x.
Proof.
  intros Hx Hk.
  assert (G : forall x k, is_byte x -> is_byte k ->
              (if k <? 8
               then SpecCorrector.corrected_byte (flip_bit x k)
                      (hamming_encode (flip_bit x k)) (hamming_encode x) =? x
               else true) = true)
    by (apply forall_bytes2; vm_compute; reflexivity).
  specialize (G x k Hx (bit_index_is_byte k Hk)).
  destruct (Z.ltb_spec k 8); [apply Z.eqb_eq, G | lia].
Qed.

Lemma keep_cell (x h : Z) : SpecCorrector.corrected_byte x h h = x.
Proof.
  unfold SpecCorrector.corrected_byte. rewrite Z.lxor_nilpotent. reflexivity.
Qed.

Lemma flip_bit_is_byte (b k : Z) : is_byte (flip_bit b k).
Proof. apply u8_is_byte. Qed.

Lemma with_fault_wf (s : list Z) (c r : nat) (k : Z) :
  wf_state s -> wf_state (with_fault s c r k).
Proof.
  intros [Hl Hb]. split.
  - unfold with_fault. rewrite mset_length. exact Hl.
  - apply wr_Forall; [exact Hb | apply flip_bit_is_byte].
Qed.

Lemma rd_cells (f : nat -> nat -> Z -> Z) (s : list Z) (j : nat) :
  (j < length s)%nat -> rd (cells f s) j = f (j / 4)%nat (j mod 4)%nat (rd s j).
Proof. intros H. unfold rd, cells. rewrite nth_mapi_from by exact H. reflexivity. Qed.

Lemma mget_div_mod (m : list Z) (j : nat) : mget m (j / 4) (j mod 4) = rd m j.
Proof. unfold mget. f_equal. symmetry. apply Nat.div_mod_eq. Qed.

Lemma map_wr (f : Z -> Z) (a : list Z) (i : nat) (x : Z) :
  map f (wr a i x) = wr (map f a) i (f x).
Proof.
  revert i. induction a as [| h a IH]; intros [| i]; simpl; try reflexivity.
  f_equal. apply IH.
Qed.

Lemma wr_wr (a : list Z) (i : nat) (x y : Z) : wr (wr a i x) i y = wr a i y.
Proof.
  revert i. induction a as [| h a IH]; intros [| i]; simpl; try reflexivity.
  f_equal. apply IH.
Qed.

Lemma with_fault_mset (s : list Z) (c r : nat) (y k : Z) :
  (4 * c + r < length s)%nat ->
  with_fault (mset s c r y) c r k = mset s c r (flip_bit y k).
Proof.
  intros H. unfold with_fault, mset, mget. rewrite rd_wr_same by exact H. apply wr_wr.
Qed.

Lemma mset_wf (s : list Z) (c r : nat) (y : Z) :
  wf_state s -> is_byte y -> wf_state (mset s c r y).
Proof.
  intros [Hl Hb] Hy. split; [rewrite mset_length; exact Hl | apply wr_Forall; assumption].
Qed.

Lemma codes_of_mset (s : list Z) (c r : nat) (y : Z) :
  wf_state s -> is_byte y ->
  encode_state (mset s c r y) fresh_hamstate
  = mset (encode_state s fresh_hamstate) c r (hamming_encode y).
Proof.
  intros Hs Hy.
  rewrite !encode_state_map by (try reflexivity; first [apply mset_wf; assumption | apply Hs]).
  apply map_wr.
Qed.

(** A cell overwritten after the codes were predicted: the next compare ends
    the process if the code of the cell has changed, and passes if not. *)
Lemma cell_change_noticed (s : list Z) (c r : nat) (y : Z) :
  wf_state s -> is_byte y -> (c < 4)%nat -> (r < 4)%nat ->
  hamming_encode y <> hamming_encode (mget s c r) ->
  compareCodes (mset s c r y) (encode_state (mset s c r y) fresh_hamstate)
    (encode_state s fresh_hamstate) = Exit 2.
Proof.
  intros Hs Hy Hc Hr Hne.
  rewrite codes_of_mset by assumption.
  assert (El : length (encode_state s fresh_hamstate) = 16%nat)
    by (rewrite encode_state_map, length_map by (try reflexivity; apply Hs); apply Hs).
  apply compareCodes_differ.
  apply (memcmp_differ _ _ (4 * c + r)); [rewrite mset_length; exact El | exact El | lia |].
  unfold mset. rewrite rd_wr_same by lia.
  rewrite encode_state_map, rd_map_hamming by (try reflexivity; apply Hs). exact Hne.
Qed.

Lemma cell_change_unnoticed (s : list Z) (c r : nat) (y : Z) :
  wf_state s -> is_byte y ->
  hamming_encode y = hamming_encode (mget s c r) ->
  compareCodes (mset s c r y) (encode_state (mset s c r y) fresh_hamstate)
    (encode_state s fresh_hamstate) = Ok (mset s c r y).
Proof.
  intros Hs Hy E.
  rewrite codes_of_mset by assumption.
  rewrite encode_state_map by (try reflexivity; apply Hs).
  unfold mset at 2. rewrite E. unfold mget. rewrite <- rd_map_hamming, wr_rd_id.
  apply compareCodes_agree.
Qed.

Lemma three_faults_keep_code (b : Z) :
  is_byte b ->
  hamming_encode (flip_bit (flip_bit (flip_bit b 0) 2) 5) = hamming_encode b
  /\ flip_bit (flip_bit (flip_bit b 0) 2) 5 <> b.
Proof.
  intros Hb.
  assert (G : forall b, is_byte b ->
              (hamming_encode (flip_bit (flip_bit (flip_bit b 0) 2) 5) =? hamming_encode b)
              && negb (flip_bit (flip_bit (flip_bit b 0) 2) 5 =? b) = true)
    by (apply forall_bytes; vm_compute; reflexivity).
  specialize (G b Hb). apply andb_true_iff in G. destruct G as [G1 G2].
  split; [apply Z.eqb_eq, G1 | apply Z.eqb_neq, negb_true_iff, G2].
Qed.

(** X1.  The code of a cell changes when one bit of the cell flips and when
    two bits flip, and a compare whose predicted codes are those of the
    state before the fault then ends the process.  When bits 0, 2 and 5
    flip together the cell changes and its code does not: the same compare
    passes and returns the faulty state. *)
Theorem hamming_code_detects_two_faults (s : list Z) (c r : nat) (j k : Z) :
  wf_state s -> (c < 4)%nat -> (r < 4)%nat -> 0 <= j < 8 -> 0 <= k < 8 -> j <> k ->
  let b := mget s c r in
  let pcode := encode_state s fresh_hamstate in
  let check := fun faulty =>
                 compareCodes faulty (encode_state faulty fresh_hamstate) pcode in
  let one := with_fault s c r j in
  let two := with_fault one c r k in
  let three := with_fault (with_fault (with_fault s c r 0) c r 2) c r 5 in
  (hamming_encode (flip_bit b j) <> hamming_encode b /\ check one = Exit 2)
  /\ (hamming_encode (flip_bit (flip_bit b j) k) <> hamming_encode b
      /\ check two = Exit 2)
  /\ (hamming_encode (flip_bit (flip_bit (flip_bit b 0) 2) 5) = hamming_encode b
      /\ three <> s /\ check three = Ok three).
Proof.
  intros Hs Hc Hr Hj Hk Hjk b pcode check one two three.
  assert (Hb : is_byte b) by (apply wf_state_cell, Hs).
  assert (Hi : (4 * c + r < length s)%nat) by (rewrite (proj1 Hs); lia).
  assert (E1 : one = mset s c r (flip_bit b j)) by reflexivity.
  assert (E2 : two = mset s c r (flip_bit (flip_bit b j) k))
    by (unfold two; rewrite E1; apply with_fault_mset, Hi).
  assert (E3 : three = mset s c r (flip_bit (flip_bit (flip_bit b 0) 2) 5)).
  { unfold three. change (with_fault s c r 0) with (mset s c r (flip_bit b 0)).
    rewrite !with_fault_mset by exact Hi. reflexivity. }
  pose proof (one_fault_changes_code b j Hb Hj) as N1.
  pose proof (two_faults_change_code b j k Hb Hj Hk Hjk) as N2.
  destruct (three_faults_keep_code b Hb) as [N3 D3].
  unfold check, pcode. rewrite E1, E2, E3.
  split; [split; [exact N1 |] | split; [split; [exact N2 |] | split; [exact N3 | split]]].
  - apply cell_change_noticed; try assumption. apply flip_bit_is_byte.
  - apply cell_change_noticed; try assumption. apply flip_bit_is_byte.
  - intros E. apply D3. apply (f_equal (fun l => mget l c r)) in E.
    unfold mset, mget in E. rewrite rd_wr_same in E by exact Hi. exact E.
  - apply cell_change_unnoticed; try assumption. apply flip_bit_is_byte.
Qed.

Lemma hamming_code_detects_two_faults_witness :
  (wf_state demo_state /\ (2 < 4)%nat /\ (1 < 4)%nat /\ 0 <= 3 < 8 /\ 0 <= 6 < 8
   /\ 3 <> 6)
  /\ (hamming_encode (flip_bit (mget demo_state 2 1) 3)
      <> hamming_encode (mget demo_state 2 1)
      /\ compareCodes (with_fault demo_state 2 1 3)
           (encode_state (with_fault demo_state 2 1 3) fresh_hamstate)
           (encode_state demo_state fresh_hamstate) = Exit 2)
  /\ (hamming_encode (flip_bit (flip_bit (mget demo_state 2 1) 3) 6)
      <> hamming_encode (mget demo_state 2 1)
      /\ compareCodes (with_fault (with_fault demo_state 2 1 3) 2 1 6)
           (encode_state (with_fault (with_fault demo_state 2 1 3) 2 1 6) fresh_hamstate)
           (encode_state demo_state fresh_hamstate) = Exit 2)
  /\ (hamming_encode (flip_bit (flip_bit (flip_bit (mget demo_state 2 1) 0) 2) 5)
      = hamming_encode (mget demo_state 2 1)
      /\ with_fault (with_fault (with_fault demo_state 2 1 0) 2 1 2) 2 1 5 <> demo_state
      /\ compareCodes (with_fault (with_fault (with_fault demo_state 2 1 0) 2 1 2) 2 1 5)
           (encode_state
              (with_fault (with_fault (with_fault demo_state 2 1 0) 2 1 2) 2 1 5)
              fresh_hamstate)
           (encode_state demo_state fresh_hamstate)
         = Ok (with_fault (with_fault (with_fault demo_state 2 1 0) 2 1 2) 2 1 5)).
Proof.
  assert (H1 : wf_state demo_state) by (apply wf_state_dec; vm_compute; reflexivity).
  assert (H2 : (2 < 4)%nat) by lia.
  assert (H3 : (1 < 4)%nat) by lia.
  assert (H4 : 0 <= 3 < 8) by lia.
  assert (H5 : 0 <= 6 < 8) by lia.
  assert (H6 : 3 <> 6) by lia.
  split; [exact (conj H1 (conj H2 (conj H3 (conj H4 (conj H5 H6))))) |].
  exact (hamming_code_detects_two_faults demo_state 2 1 3 6 H1 H2 H3 H4 H5 H6).
Defined.

(** X2.  A fault of one bit in one cell is repaired by [correct_state], and
    [compareCodes] ends the process all the same. *)
Theorem single_fault_repaired_then_exit (s : list Z) (c r : nat) (k : Z) :
  wf_state s -> (c < 4)%nat -> (r < 4)%nat -> 0 <= k < 8 ->
  let faulty := with_fault s c r k in
  let hamstate := encode_state faulty fresh_hamstate in
  let pcode := encode_state s fresh_hamstate in
  correct_state faulty hamstate pcode = s
  /\ compareCodes faulty hamstate pcode = Exit 2.
Proof.
  intros Hs Hc Hr Hk faulty hamstate pcode.
  pose proof (with_fault_wf s c r k Hs) as Hf. fold faulty in Hf.
  assert (Eh : hamstate = map hamming_encode faulty)
    by (apply encode_state_map; [apply Hf | reflexivity]).
  assert (Ep : pcode = map hamming_encode s)
    by (apply encode_state_map; [apply Hs | reflexivity]).
  assert (Hidx : (4 * c + r < 16)%nat) by lia.
  destruct Hs as [Hl Hb].
  assert (Efault : rd faulty (4 * c + r) = flip_bit (rd s (4 * c + r)) k)
    by (unfold faulty, with_fault, mset, mget; apply rd_wr_same; lia).
  split.
  - rewrite Eh, Ep.
    assert (Hcode : forall t, wf_state t -> wf_state (map hamming_encode t)).
    { intros t Ht. apply wf_state_map; [| exact Ht].
      intros. apply hamming_encode_is_byte. }
    rewrite correct_state_cells
      by (try exact Hf; apply Hcode; try exact Hf; split; assumption).
    apply (nth_ext _ _ 0 0).
    + unfold cells. rewrite mapi_from_length, (proj1 Hf). symmetry. exact Hl.
    + unfold cells. rewrite mapi_from_length. intros j Hj.
      fold (rd (mapi_from 0
                  (fun k0 x => SpecCorrector.corrected_byte x
                     (mget (map hamming_encode faulty) (k0 / 4) (k0 mod 4))
                     (mget (map hamming_encode s) (k0 / 4) (k0 mod 4))) faulty) j).
      fold (cells (fun c0 r0 x => SpecCorrector.corrected_byte x
                     (mget (map hamming_encode faulty) c0 r0)
                     (mget (map hamming_encode s) c0 r0)) faulty).
      rewrite rd_cells by exact Hj.
      rewrite !mget_div_mod, !rd_map_hamming. fold (rd s j).
      destruct (Nat.eq_dec (4 * c + r) j) as [<- | Hne].
      * rewrite Efault. apply repair_cell; [apply rd_is_byte, Hb | exact Hk].
      * unfold faulty, with_fault, mset. rewrite rd_wr_other by exact Hne.
        apply keep_cell.
  - apply compareCodes_differ.
    apply (memcmp_differ hamstate pcode (4 * c + r)).
    + rewrite Eh, length_map. apply Hf.
    + rewrite Ep, length_map. exact Hl.
    + exact Hidx.
    + rewrite Eh, Ep, !rd_map_hamming, Efault.
      apply one_fault_changes_code; [apply rd_is_byte, Hb | exact Hk].
Qed.

Lemma single_fault_repaired_then_exit_witness :
  (wf_state demo_state /\ (2 < 4)%nat /\ (1 < 4)%nat /\ 0 <= 5 < 8)
  /\ correct_state (with_fault demo_state 2 1 5)
       (encode_state (with_fault demo_state 2 1 5) fresh_hamstate)
       (encode_state demo_state fresh_hamstate) = demo_state
  /\ compareCodes (with_fault demo_state 2 1 5)
       (encode_state (with_fault demo_state 2 1 5) fresh_hamstate)
       (encode_state demo_state fresh_hamstate) = Exit 2.
Proof.
  assert (H1 : wf_state demo_state) by (apply wf_state_dec; vm_compute; reflexivity).
  assert (H2 : (2 < 4)%nat) by lia.
  assert (H3 : (1 < 4)%nat) by lia.
  assert (H4 : 0 <= 5 < 8) by lia.
  split; [exact (conj H1 (conj H2 (conj H3 H4))) |].
  exact (single_fault_repaired_then_exit demo_state 2 1 5 H1 H2 H3 H4).
Defined.

(** ** Field arithmetic and the tables *)

Lemma low_bit_of_mod (y k : Z) :
  0 <= k < 5 -> Z.land (Z.shiftr (y mod 32) k) 1 = Z.land (Z.shiftr y k) 1.
Proof.
  intros Hk.
  change (Z.land (Z.shiftr (y mod 32) k) 1) with (get_bit (y mod 32) k).
  change (Z.land (Z.shiftr y k) 1) with (get_bit y k).
  rewrite !get_bit_testbit by lia. f_equal.
  change 32 with (2 ^ 5). apply Z.mod_pow2_bits_low. lia.
Qed.

Lemma Multiply_low_bits (x y : Z) : Multiply x y = Multiply x (y mod 32).
Proof.
  unfold Multiply.
  rewrite <- (Z.shiftr_0_r y) at 1. rewrite <- (Z.shiftr_0_r (y mod 32)) at 1.
  rewrite !low_bit_of_mod by lia. reflexivity.
Qed.

(** X3.  On bytes, [xtime] doubles in GF(2^8) and [Multiply x y] is the
    product of [x] by the five low bits of [y]: the product itself when
    [y < 32], as it is for every constant the source passes. *)
Theorem Multiply_is_field_product (x y : Z) :
  is_byte x -> is_byte y ->
  xtime x = Textbook.gf_mul x 0x02
  /\ Multiply x y = Textbook.gf_mul x (y mod 32)
  /\ is_byte (Multiply x y).
Proof.
  intros Hx Hy.
  assert (G1 : forall x, is_byte x -> (xtime x =? Textbook.gf_mul x 0x02) = true)
    by (apply forall_bytes; vm_compute; reflexivity).
  assert (G2 : forall x, is_byte x ->
               forallb (fun y => (Multiply x y =? Textbook.gf_mul x y)
                                 && is_byteb (Multiply x y))
                       (map Z.of_nat (seq 0 32)) = true)
    by (apply forall_bytes; vm_compute; reflexivity).
  split; [apply Z.eqb_eq, G1, Hx |].
  rewrite (Multiply_low_bits x y).
  specialize (G2 x Hx). rewrite forallb_forall in G2.
  assert (Hin : In (y mod 32) (map Z.of_nat (seq 0 32))).
  { pose proof (Z.mod_pos_bound y 32 ltac:(lia)) as Hm.
    rewrite <- (Z2Nat.id (y mod 32)) by lia. apply in_map, in_seq. lia. }
  specialize (G2 _ Hin). apply andb_true_iff in G2. destruct G2 as [Ga Gb].
  split; [apply Z.eqb_eq, Ga | apply is_byteb_spec, Gb].
Qed.

Lemma Multiply_is_field_product_witness :
  (is_byte 0x57 /\ is_byte 0x13)
  /\ xtime 0x57 = Textbook.gf_mul 0x57 0x02
  /\ Multiply 0x57 0x13 = Textbook.gf_mul 0x57 (0x13 mod 32)
  /\ is_byte (Multiply 0x57 0x13).
Proof.
  assert (H1 : is_byte 0x57) by (unfold is_byte; lia).
  assert (H2 : is_byte 0x13) by (unfold is_byte; lia).
  split; [exact (conj H1 H2) |].
  exact (Multiply_is_field_product 0x57 0x13 H1 H2).
Defined.

(** X4.  The two substitution tables are inverse to each other, and the
    forward one is inversion in GF(2^8) followed by the affine map. *)
Theorem sbox_tables (b : Z) :
  is_byte b ->
  getSBoxValue b = Textbook.SBox b
  /\ getSBoxInvert (getSBoxValue b) = b
  /\ getSBoxValue (getSBoxInvert b) = b.
Proof.
  intros Hb.
  assert (G : forall b, is_byte b ->
              (getSBoxValue b =? Textbook.SBox b)
              && (getSBoxInvert (getSBoxValue b) =? b)
              && (getSBoxValue (getSBoxInvert b) =? b) = true)
    by (apply forall_bytes; vm_compute; reflexivity).
  specialize (G b Hb).
  apply andb_true_iff in G. destruct G as [G G3].
  apply andb_true_iff in G. destruct G as [G1 G2].
  repeat split; apply Z.eqb_eq; assumption.
Qed.

Lemma sbox_tables_witness :
  is_byte 0x53
  /\ getSBoxValue 0x53 = Textbook.SBox 0x53
  /\ getSBoxInvert (getSBoxValue 0x53) = 0x53
  /\ getSBoxValue (getSBoxInvert 0x53) = 0x53.
Proof.
  assert (H1 : is_byte 0x53) by (unfold is_byte; lia).
  split; [exact H1 |].
  exact (sbox_tables 0x53 H1).
Defined.

(** X5.  Wherever [KeyExpansion] reads [Rcon], the index lies in 1..10, inside
    the table, and the entry is [x] to the power index minus one. *)
Theorem Rcon_as_used (v : variant) (i : nat) :
  (Nk v <= i < Nb * (Nr v + 1))%nat ->
  (1 <= i / Nk v <= 10)%nat
  /\ rd Rcon (i / Nk v) = Nat.iter (i / Nk v - 1) xtime 1.
Proof.
  intros Hi.
  assert (Hq : (1 <= i / Nk v <= 10)%nat).
  { pose proof (Nat.div_mod_eq i (Nk v)) as E.
    assert (Hr : (i mod Nk v < Nk v)%nat)
      by (apply Nat.mod_upper_bound; destruct v; discriminate).
    unfold Nb in *. destruct v; cbn [Nk Nr] in *; lia. }
  split; [exact Hq |].
  destruct Hq as [Hlo Hhi]. revert Hlo Hhi. generalize (i / Nk v)%nat.
  intros q Hlo Hhi.
  do 11 (destruct q as [| q]; [try lia; vm_compute; reflexivity |]). lia.
Qed.

Lemma Rcon_as_used_witness :
  (Nk AES128 <= 40 < Nb * (Nr AES128 + 1))%nat
  /\ (1 <= 40 / Nk AES128 <= 10)%nat
  /\ rd Rcon (40 / Nk AES128) = Nat.iter (40 / Nk AES128 - 1) xtime 1.
Proof.
  assert (H1 : (Nk AES128 <= 40 < Nb * (Nr AES128 + 1))%nat) by (cbn; lia).
  split; [exact H1 |].
  exact (Rcon_as_used AES128 40 H1).
Defined.

(** ** The inverse transforms *)

(** Equations between exclusive-ors of many atoms, by the Boolean ring. *)
Ltac xor_ring :=
  apply Z.bits_inj'; intros ?n ?Hn; rewrite ?Z.lxor_spec; btauto.

Lemma Multiply_09 (x : Z) : Multiply x 0x09 = Z.lxor x (xtime (xtime (xtime x))).
Proof.
  unfold Multiply.
  change (Z.land 9 1) with 1. change (Z.land (Z.shiftr 9 1) 1) with 0.
  change (Z.land (Z.shiftr 9 2) 1) with 0. change (Z.land (Z.shiftr 9 3) 1) with 1.
  change (Z.land (Z.shiftr 9 4) 1) with 0.
  rewrite !Z.mul_1_l, !Z.mul_0_l, !Z.lxor_0_r. reflexivity.
Qed.

Lemma Multiply_0b (x : Z) :
  Multiply x 0x0b = Z.lxor (Z.lxor x (xtime x)) (xtime (xtime (xtime x))).
Proof.
  unfold Multiply.
  change (Z.land 11 1) with 1. change (Z.land (Z.shiftr 11 1) 1) with 1.
  change (Z.land (Z.shiftr 11 2) 1) with 0. change (Z.land (Z.shiftr 11 3) 1) with 1.
  change (Z.land (Z.shiftr 11 4) 1) with 0.
  rewrite !Z.mul_1_l, !Z.mul_0_l, !Z.lxor_0_r. reflexivity.
Qed.

Lemma Multiply_0d (x : Z) :
  Multiply x 0x0d = Z.lxor (Z.lxor x (xtime (xtime x))) (xtime (xtime (xtime x))).
Proof.
  unfold Multiply.
  change (Z.land 13 1) with 1. change (Z.land (Z.shiftr 13 1) 1) with 0.
  change (Z.land (Z.shiftr 13 2) 1) with 1. change (Z.land (Z.shiftr 13 3) 1) with 1.
  change (Z.land (Z.shiftr 13 4) 1) with 0.
  rewrite !Z.mul_1_l, !Z.mul_0_l, !Z.lxor_0_r. reflexivity.
Qed.

Lemma Multiply_0e (x : Z) :
  Multiply x 0x0e
  = Z.lxor (Z.lxor (xtime x) (xtime (xtime x))) (xtime (xtime (xtime x))).
Proof.
  unfold Multiply.
  change (Z.land 14 1) with 0. change (Z.land (Z.shiftr 14 1) 1) with 1.
  change (Z.land (Z.shiftr 14 2) 1) with 1. change (Z.land (Z.shiftr 14 3) 1) with 1.
  change (Z.land (Z.shiftr 14 4) 1) with 0.
  rewrite !Z.mul_1_l, !Z.mul_0_l, !Z.lxor_0_r, ?Z.lxor_0_l. reflexivity.
Qed.

(** Four doublings bring back a combination of the lower ones. *)
Lemma xtime_4 (x : Z) :
  is_byte x ->
  xtime (xtime (xtime (xtime (xtime (xtime (xtime (xtime x)))))))
  = Z.lxor (Z.lxor (Z.lxor x (xtime x)) (xtime (xtime (xtime x))))
           (xtime (xtime (xtime (xtime x)))).
Proof.
  intros Hx. apply Z.eqb_eq. revert x Hx. apply forall_bytes. vm_compute. reflexivity.
Qed.

Ltac expand_products :=
  rewrite ?Multiply_09, ?Multiply_0b, ?Multiply_0d, ?Multiply_0e, ?Multiply_3;
  repeat rewrite xtime_lxor by auto 30 with bytes.

Local Opaque xtime Multiply Z.lxor.

Lemma InvMixColumns_MixColumns (s : list Z) :
  wf_state s -> InvMixColumns (MixColumns_mix s) = s.
Proof.
  intros [Hl Hb]. cells16 s Hl. bytes_of_state Hb.
  cbv [InvMixColumns MixColumns_mix for4 fold_left mset mget wr rd nth Nat.add Nat.mul].
  repeat (apply (f_equal2 (@cons Z)); [expand_products; xor_ring |]).
  reflexivity.
Qed.

Lemma MixColumns_InvMixColumns (s : list Z) :
  wf_state s -> MixColumns_mix (InvMixColumns s) = s.
Proof.
  intros [Hl Hb]. cells16 s Hl. bytes_of_state Hb.
  cbv [InvMixColumns MixColumns_mix for4 fold_left mset mget wr rd nth Nat.add Nat.mul].
  repeat (apply (f_equal2 (@cons Z)); [expand_products; xor_ring |]).
  reflexivity.
Qed.

Local Transparent xtime Multiply Z.lxor.

Lemma InvShiftRows_ShiftRows (s : list Z) :
  length s = 16%nat ->
  InvShiftRows (ShiftRows_rotate s) = s /\ ShiftRows_rotate (InvShiftRows s) = s.
Proof. intros Hl. cells16 s Hl. split; reflexivity. Qed.

Lemma InvSubBytes_map (s : list Z) :
  length s = 16%nat -> InvSubBytes s = map getSBoxInvert s.
Proof.
  intros H. unfold InvSubBytes.
  rewrite (for4_col_major (fun _ _ x => getSBoxInvert x) s H).
  apply mapi_from_map. reflexivity.
Qed.

Lemma rsbox_sbox (b : Z) :
  is_byte b ->
  getSBoxInvert (getSBoxValue b) = b /\ getSBoxValue (getSBoxInvert b) = b.
Proof.
  intros Hb.
  assert (G : forall b, is_byte b ->
              (getSBoxInvert (getSBoxValue b) =? b)
              && (getSBoxValue (getSBoxInvert b) =? b) = true)
    by (apply forall_bytes; vm_compute; reflexivity).
  specialize (G b Hb). apply andb_true_iff in G.
  split; apply Z.eqb_eq, G.
Qed.

Lemma rsbox_is_byte (x : Z) : is_byte x -> is_byte (getSBoxInvert x).
Proof.
  intros Hx. apply is_byteb_spec. revert x Hx.
  apply forall_bytes. vm_compute. reflexivity.
Qed.

Lemma map_inverse (f g : Z -> Z) (s : list Z) :
  (forall x, In x s -> g (f x) = x) -> map g (map f s) = s.
Proof.
  intros H. rewrite map_map. rewrite <- (map_id s) at 2.
  apply map_ext_in. exact H.
Qed.

Lemma InvSubBytes_SubBytes (s : list Z) :
  wf_state s ->
  InvSubBytes (SubBytes_subst s) = s /\ SubBytes_subst (InvSubBytes s) = s.
Proof.
  intros [Hl Hb]. rewrite Forall_forall in Hb.
  rewrite (SubBytes_subst_map s Hl), (InvSubBytes_map s Hl).
  rewrite InvSubBytes_map, SubBytes_subst_map by (rewrite length_map; exact Hl).
  split; apply map_inverse; intros x Hx; apply rsbox_sbox, Hb, Hx.
Qed.

Lemma AddRoundKey_xor_twice (round : nat) (s rk : list Z) :
  length s = 16%nat -> AddRoundKey_xor round (AddRoundKey_xor round s rk) rk = s.
Proof.
  intros Hl.
  rewrite (AddRoundKey_xor_cells round s rk Hl).
  rewrite AddRoundKey_xor_cells by (unfold cells; rewrite mapi_from_length; exact Hl).
  apply (nth_ext _ _ 0 0).
  - unfold cells. rewrite !mapi_from_length. reflexivity.
  - unfold cells at 1. rewrite mapi_from_length. intros j Hj.
    change (nth j ?l 0) with (rd l j).
    rewrite rd_cells by exact Hj.
    rewrite rd_cells by (unfold cells in Hj; rewrite mapi_from_length in Hj; exact Hj).
    xor_bits.
Qed.

Lemma unapply_apply_transform (T : transform) (rk s : list Z) :
  wf_state s -> Forall is_byte rk ->
  unapply_transform T rk (apply_transform T rk s) = s.
Proof.
  intros Hs Hrk. destruct T; cbn [apply_transform unapply_transform].
  - exact (AddRoundKey_xor_twice round s rk (proj1 Hs)).
  - exact (proj1 (InvSubBytes_SubBytes s Hs)).
  - exact (proj1 (InvShiftRows_ShiftRows s (proj1 Hs))).
  - exact (InvMixColumns_MixColumns s Hs).
Qed.

Lemma apply_unapply_transform (T : transform) (rk s : list Z) :
  wf_state s -> Forall is_byte rk ->
  apply_transform T rk (unapply_transform T rk s) = s.
Proof.
  intros Hs Hrk. destruct T; cbn [apply_transform unapply_transform].
  - exact (AddRoundKey_xor_twice round s rk (proj1 Hs)).
  - exact (proj2 (InvSubBytes_SubBytes s Hs)).
  - exact (proj2 (InvShiftRows_ShiftRows s (proj1 Hs))).
  - exact (MixColumns_InvMixColumns s Hs).
Qed.

(** X6.  Each transform is undone by the one [InvCipher] pairs with it, and
    undoes it. *)
Theorem transforms_invert (T : transform) (rk s : list Z) :
  wf_state s -> Forall is_byte rk ->
  unapply_transform T rk (apply_transform T rk s) = s
  /\ apply_transform T rk (unapply_transform T rk s) = s.
Proof.
  intros Hs Hrk.
  split; [apply unapply_apply_transform | apply apply_unapply_transform]; assumption.
Qed.

Lemma transforms_invert_witness :
  (wf_state demo_state /\ Forall is_byte (RoundKey nist_ctx))
  /\ unapply_transform T_MixColumns (RoundKey nist_ctx)
       (apply_transform T_MixColumns (RoundKey nist_ctx) demo_state) = demo_state
  /\ apply_transform T_MixColumns (RoundKey nist_ctx)
       (unapply_transform T_MixColumns (RoundKey nist_ctx) demo_state) = demo_state.
Proof.
  assert (H1 : wf_state demo_state) by (apply wf_state_dec; vm_compute; reflexivity).
  assert (H2 : Forall is_byte (RoundKey nist_ctx))
    by (apply forallb_is_byte; vm_compute; reflexivity).
  split; [exact (conj H1 H2) |].
  exact (transforms_invert T_MixColumns (RoundKey nist_ctx) demo_state H1 H2).
Defined.

(** ** Decryption, when it returns *)

Lemma bind_Exit {A B : Type} (status : Z) (k : A -> result B) :
  bind (Exit status) k = Exit status.
Proof. reflexivity. Qed.

Lemma InvShiftRows_length (s : list Z) : length (InvShiftRows s) = length s.
Proof. unfold InvShiftRows. cbv zeta. rewrite !mset_length. reflexivity. Qed.

Lemma InvSubBytes_length (s : list Z) : length (InvSubBytes s) = length s.
Proof.
  unfold InvSubBytes. apply for4_length. intros i x.
  apply for4_length. intros j y. apply mset_length.
Qed.

Lemma InvMixColumns_length (s : list Z) : length (InvMixColumns s) = length s.
Proof.
  unfold InvMixColumns. apply for4_length. intros i x. cbv zeta.
  rewrite !mset_length. reflexivity.
Qed.

Lemma AddRoundKey_xor_length (round : nat) (s rk : list Z) :
  length (AddRoundKey_xor round s rk) = length s.
Proof. apply (apply_transform_length (T_AddRoundKey round)). Qed.

Lemma InvCipher_rounds_eq (rk : list Z) (round : nat) (s : state_t) (h p : hamstate_t) :
  InvCipher_rounds rk round (Mem s h p)
  = (m' <- AddRoundKey round (Mem (InvSubBytes (InvShiftRows s)) h p) rk ;;
     match round with
     | O => Ok m'
     | S round' =>
         InvCipher_rounds rk round'
           (Mem (InvMixColumns (m_state m')) (m_hamstate m') (m_pcode m'))
     end).
Proof. destruct round; reflexivity. Qed.

Lemma AddRoundKey_Mem_cases (round : nat) (rk : list Z) (s : state_t) (h p : hamstate_t) :
  length s = 16%nat -> length h = 16%nat -> length p = 16%nat ->
  AddRoundKey round (Mem s h p) rk = Exit 2
  \/ AddRoundKey round (Mem s h p) rk = Ok (settled (AddRoundKey_xor round s rk)).
Proof.
  intros Hs Hh Hp. apply (AddRoundKey_cases round rk (Mem s h p)).
  split; [exact Hs | split; [exact Hh | exact Hp]].
Qed.

Lemma m_state_settled (s : state_t) : m_state (settled s) = s.
Proof. reflexivity. Qed.

Lemma m_hamstate_settled (s : state_t) : m_hamstate (settled s) = map hamming_encode s.
Proof. reflexivity. Qed.

Lemma m_pcode_settled (s : state_t) : m_pcode (settled s) = map hamming_encode s.
Proof. reflexivity. Qed.

Lemma unapply_transforms_cons (T : transform) (Ts : list transform) (rk s : list Z) :
  unapply_transforms (T :: Ts) rk s
  = unapply_transforms Ts rk (unapply_transform T rk s).
Proof. reflexivity. Qed.

Lemma unapply_transforms_app (Ts Us : list transform) (rk s : list Z) :
  unapply_transforms (Ts ++ Us) rk s
  = unapply_transforms Us rk (unapply_transforms Ts rk s).
Proof. unfold unapply_transforms. apply fold_left_app. Qed.

Lemma unapply_AddRoundKey (round : nat) (rk s : list Z) :
  unapply_transform (T_AddRoundKey round) rk s = AddRoundKey_xor round s rk.
Proof. reflexivity. Qed.

Lemma unapply_SubBytes (rk s : list Z) :
  unapply_transform T_SubBytes rk s = InvSubBytes s.
Proof. reflexivity. Qed.

Lemma unapply_ShiftRows (rk s : list Z) :
  unapply_transform T_ShiftRows rk s = InvShiftRows s.
Proof. reflexivity. Qed.

Lemma unapply_MixColumns (rk s : list Z) :
  unapply_transform T_MixColumns rk s = InvMixColumns s.
Proof. reflexivity. Qed.

Lemma inv_rounds_O (rk s : list Z) :
  unapply_transforms (inv_rounds 0) rk s
  = AddRoundKey_xor 0 (InvSubBytes (InvShiftRows s)) rk.
Proof.
  unfold inv_rounds.
  rewrite !unapply_transforms_cons, unapply_ShiftRows, unapply_SubBytes,
    unapply_AddRoundKey.
  reflexivity.
Qed.

Lemma inv_rounds_S (round : nat) (rk s : list Z) :
  unapply_transforms (inv_rounds (S round)) rk s
  = unapply_transforms (inv_rounds round) rk
      (InvMixColumns (AddRoundKey_xor (S round) (InvSubBytes (InvShiftRows s)) rk)).
Proof.
  change (inv_rounds (S round))
    with ([T_ShiftRows; T_SubBytes; T_AddRoundKey (S round); T_MixColumns]
            ++ inv_rounds round).
  rewrite unapply_transforms_app.
  rewrite !unapply_transforms_cons, unapply_ShiftRows, unapply_SubBytes,
    unapply_AddRoundKey, unapply_MixColumns.
  reflexivity.
Qed.

Lemma InvCipher_rounds_cases (rk : list Z) (round : nat) :
  forall (s : state_t) (h p : hamstate_t),
    length s = 16%nat -> length h = 16%nat -> length p = 16%nat ->
    InvCipher_rounds rk round (Mem s h p) = Exit 2
    \/ InvCipher_rounds rk round (Mem s h p)
       = Ok (settled (unapply_transforms (inv_rounds round) rk s)).
Proof.
  induction round as [| round IH]; intros s h p Hs Hh Hp;
    rewrite InvCipher_rounds_eq;
    match goal with
    | |- context [AddRoundKey ?r (Mem ?s' h p) rk] =>
        assert (Hs' : length s' = 16%nat)
          by (rewrite InvSubBytes_length, InvShiftRows_length; exact Hs);
        destruct (AddRoundKey_Mem_cases r rk s' h p Hs' Hh Hp) as [E | E];
        rewrite E; [left; apply bind_Exit | rewrite bind_Ok]
    end.
  - right. rewrite inv_rounds_O. reflexivity.
  - rewrite inv_rounds_S, m_state_settled, m_hamstate_settled, m_pcode_settled.
    apply IH; rewrite ?InvMixColumns_length, ?length_map, AddRoundKey_xor_length;
      exact Hs'.
Qed.

Lemma InvCipher_cases (v : variant) (pcode0 : hamstate_t) (state rk : list Z) :
  length state = 16%nat -> length pcode0 = 16%nat ->
  InvCipher v pcode0 state rk = Exit 2
  \/ InvCipher v pcode0 state rk = Ok (unapply_transforms (inv_schedule v) rk state).
Proof.
  intros Hs Hp.
  destruct (InvCipher_first_step v pcode0 state rk Hs Hp) as [E | E]; [left; exact E |].
  rewrite E. unfold inv_schedule.
  rewrite unapply_transforms_cons, unapply_AddRoundKey.
  unfold settled.
  destruct (InvCipher_rounds_cases rk (Nr v - 1)
              (AddRoundKey_xor (Nr v) state rk)
              (map hamming_encode (AddRoundKey_xor (Nr v) state rk))
              (map hamming_encode (AddRoundKey_xor (Nr v) state rk))) as [E' | E'];
    rewrite ?length_map, ?AddRoundKey_xor_length; try exact Hs.
  - left. rewrite E'. apply bind_Exit.
  - right. rewrite E', bind_Ok, m_state_settled. reflexivity.
Qed.

Lemma inv_schedule_rev (v : variant) : inv_schedule v = rev (schedule v).
Proof. destruct v; reflexivity. Qed.

Lemma unapply_rev_apply (Ts : list transform) (rk s : list Z) :
  wf_state s -> Forall is_byte rk ->
  unapply_transforms (rev Ts) rk (apply_transforms Ts rk s) = s.
Proof.
  intros Hs Hrk. revert s Hs. induction Ts as [| T Ts IH]; intros s Hs; [reflexivity |].
  change (apply_transforms (T :: Ts) rk s)
    with (apply_transforms Ts rk (apply_transform T rk s)).
  change (rev (T :: Ts)) with (rev Ts ++ [T]).
  rewrite unapply_transforms_app, IH by (apply apply_transform_wf; assumption).
  rewrite unapply_transforms_cons. apply unapply_apply_transform; assumption.
Qed.

Lemma InvCipher_inverts_Cipher (v : variant) (pcode0 : hamstate_t) (s rk c : list Z) :
  wf_state s -> Forall is_byte rk -> length pcode0 = 16%nat ->
  Cipher v s rk = Ok c ->
  InvCipher v pcode0 c rk = Exit 2 \/ InvCipher v pcode0 c rk = Ok s.
Proof.
  intros Hs Hrk Hp Hc.
  assert (Ec : c = apply_transforms (schedule v) rk s)
    by (rewrite Cipher_unchecked in Hc by assumption; congruence).
  subst c. clear Hc.
  assert (Hl : length (apply_transforms (schedule v) rk s) = 16%nat)
    by (apply apply_transforms_wf; assumption).
  destruct (InvCipher_cases v pcode0 _ rk Hl Hp) as [E | E]; [left; exact E |].
  right. rewrite E, inv_schedule_rev, unapply_rev_apply by assumption. reflexivity.
Qed.

Lemma block_at_wf (buf : list Z) :
  (16 <= length buf)%nat -> Forall is_byte buf -> wf_state (block_at buf 0).
Proof.
  intros Hl Hb. change (block_at buf 0) with (firstn 16 buf). split.
  - rewrite length_firstn. lia.
  - rewrite <- (firstn_skipn 16 buf) in Hb. apply Forall_app in Hb. apply Hb.
Qed.

Lemma put_block_0 (buf blk : list Z) : put_block buf 0 blk = blk ++ skipn 16 buf.
Proof. reflexivity. Qed.

Lemma block_at_0 (buf : list Z) : block_at buf 0 = firstn 16 buf.
Proof. reflexivity. Qed.

Lemma block_at_put_block (buf blk : list Z) :
  length blk = 16%nat -> block_at (put_block buf 0 blk) 0 = blk.
Proof.
  intros Hl. rewrite put_block_0, block_at_0.
  rewrite firstn_app, Hl, Nat.sub_diag, <- Hl, firstn_all. apply app_nil_r.
Qed.

Lemma skipn_put_block (buf blk : list Z) :
  length blk = 16%nat -> skipn 16 (put_block buf 0 blk) = skipn 16 buf.
Proof.
  intros Hl. rewrite put_block_0.
  rewrite skipn_app, Hl, Nat.sub_diag, <- Hl, skipn_all. reflexivity.
Qed.

Lemma put_block_put_block (buf blk : list Z) :
  length blk = 16%nat ->
  put_block (put_block buf 0 blk) 0 (block_at buf 0) = buf.
Proof.
  intros Hl. rewrite (put_block_0 (put_block buf 0 blk)), skipn_put_block by exact Hl.
  rewrite block_at_0. apply firstn_skipn.
Qed.

(** X7.  What [AES_ECB_encrypt] has written, [AES_ECB_decrypt] either turns
    back into the original buffer or does not return at all: it never hands
    out a wrong plaintext.  Encryption touches the first sixteen bytes
    only. *)
Theorem ECB_decrypt_plaintext_or_exit
  (v : variant) (pcode0 : hamstate_t) (ctx : AES_ctx) (buf buf' : list Z) :
  Forall is_byte (RoundKey ctx) -> Forall is_byte buf -> (16 <= length buf)%nat ->
  length pcode0 = 16%nat ->
  AES_ECB_encrypt v ctx buf = Ok buf' ->
  skipn 16 buf' = skipn 16 buf
  /\ (AES_ECB_decrypt v pcode0 ctx buf' = Exit 2
      \/ AES_ECB_decrypt v pcode0 ctx buf' = Ok buf).
Proof.
  intros Hrk Hb Hl Hp.
  pose proof (block_at_wf buf Hl Hb) as Hs.
  destruct (Cipher_wf v (block_at buf 0) (RoundKey ctx) Hs Hrk) as (c & Ec & Hc & _).
  unfold AES_ECB_encrypt. rewrite Ec, bind_Ok. intros He.
  assert (E' : buf' = put_block buf 0 c) by congruence.
  subst buf'. clear He. split.
  - apply skipn_put_block, Hc.
  - unfold AES_ECB_decrypt. rewrite block_at_put_block by exact Hc.
    destruct (InvCipher_inverts_Cipher v pcode0 _ _ c Hs Hrk Hp Ec) as [E | E];
      rewrite E.
    + left. apply bind_Exit.
    + right. rewrite bind_Ok, put_block_put_block by exact Hc. reflexivity.
Qed.

Lemma ECB_decrypt_plaintext_or_exit_witness :
  (Forall is_byte (RoundKey nist_ctx) /\ Forall is_byte (nth 0 nist_plain [])
   /\ (16 <= length (nth 0 nist_plain []))%nat
   /\ length (repeat 0 16) = 16%nat
   /\ AES_ECB_encrypt AES128 nist_ctx (nth 0 nist_plain []) = Ok (nth 0 nist_cipher []))
  /\ skipn 16 (nth 0 nist_cipher []) = skipn 16 (nth 0 nist_plain [])
  /\ (AES_ECB_decrypt AES128 (repeat 0 16) nist_ctx (nth 0 nist_cipher []) = Exit 2
      \/ AES_ECB_decrypt AES128 (repeat 0 16) nist_ctx (nth 0 nist_cipher [])
         = Ok (nth 0 nist_plain [])).
Proof.
  assert (H1 : Forall is_byte (RoundKey nist_ctx))
    by (apply forallb_is_byte; vm_compute; reflexivity).
  assert (H2 : Forall is_byte (nth 0 nist_plain []))
    by (apply forallb_is_byte; vm_compute; reflexivity).
  assert (H3 : (16 <= length (nth 0 nist_plain []))%nat) by (cbn; lia).
  assert (H4 : length (repeat 0 16) = 16%nat) by reflexivity.
  assert (H5 : AES_ECB_encrypt AES128 nist_ctx (nth 0 nist_plain [])
               = Ok (nth 0 nist_cipher [])) by (vm_compute; reflexivity).
  split; [repeat split; assumption |].
  exact (ECB_decrypt_plaintext_or_exit AES128 (repeat 0 16) nist_ctx
           (nth 0 nist_plain []) (nth 0 nist_cipher []) H1 H2 H3 H4 H5).
Defined.

(** ** A fault between two transforms *)

Lemma run_transforms_from_settled (Ts : list transform) (rk s : list Z) :
  Forall is_byte rk -> wf_state s ->
  run_transforms Ts rk (settled s) = Ok (settled (apply_transforms Ts rk s)).
Proof.
  intros Hrk Hs. destruct Ts as [| T Ts]; [reflexivity |].
  rewrite run_transforms_settles by (try assumption; apply settled_is_settled, Hs).
  rewrite m_state_settled. reflexivity.
Qed.

Lemma run_transforms_cons (T : transform) (Ts : list transform) (rk : list Z) (m : mem) :
  run_transforms (T :: Ts) rk m
  = (m' <- run_transform T rk m ;; run_transforms Ts rk m').
Proof. reflexivity. Qed.

Lemma apply_transforms_cons (T : transform) (Ts : list transform) (rk s : list Z) :
  apply_transforms (T :: Ts) rk s = apply_transforms Ts rk (apply_transform T rk s).
Proof. reflexivity. Qed.

Lemma apply_SubBytes (rk s : list Z) : apply_transform T_SubBytes rk s = SubBytes_subst s.
Proof. reflexivity. Qed.

Lemma apply_MixColumns (rk s : list Z) :
  apply_transform T_MixColumns rk s = MixColumns_mix s.
Proof. reflexivity. Qed.

Lemma run_transform_SubBytes (rk : list Z) (m : mem) :
  run_transform T_SubBytes rk m = SubBytes m.
Proof. reflexivity. Qed.

Lemma run_transform_MixColumns (rk : list Z) (m : mem) :
  run_transform T_MixColumns rk m = MixColumns m.
Proof. reflexivity. Qed.

Lemma mget_with_fault (s : list Z) (c r : nat) (k : Z) :
  length s = 16%nat -> (c < 4)%nat -> (r < 4)%nat ->
  mget (with_fault s c r k) c r = flip_bit (mget s c r) k.
Proof. intros Hl Hc Hr. unfold with_fault, mset, mget. apply rd_wr_same. lia. Qed.

Lemma mget_map_hamming (s : list Z) (c r : nat) :
  mget (map hamming_encode s) c r = hamming_encode (mget s c r).
Proof. unfold mget. apply rd_map_hamming. Qed.

Lemma codes_differ (s : list Z) (c r : nat) (k : Z) :
  wf_state s -> (c < 4)%nat -> (r < 4)%nat -> 0 <= k < 8 ->
  map hamming_encode (with_fault s c r k) <> map hamming_encode s.
Proof.
  intros Hs Hc Hr Hk E.
  apply (f_equal (fun l => mget l c r)) in E.
  rewrite !mget_map_hamming, mget_with_fault in E by (try apply Hs; assumption).
  revert E. apply one_fault_changes_code; [apply wf_state_cell, Hs | exact Hk].
Qed.

Lemma memcmp_of_different (a b : list Z) :
  length a = 16%nat -> length b = 16%nat -> a <> b ->
  memcmp a b sizeof_hamstate_t <> 0.
Proof. intros Ha Hb Hne E. apply Hne. apply (memcmp_eq a b 16); assumption. Qed.

Lemma InvShiftRows_predictShift (p : list Z) :
  length p = 16%nat -> InvShiftRows (predictShift p) = p.
Proof. intros Hl. cells16 p Hl. reflexivity. Qed.

Lemma lxor_cancel_r (a b y : Z) : Z.lxor a y = Z.lxor b y -> a = b.
Proof.
  intros H. rewrite <- (Z.lxor_0_r a), <- (Z.lxor_0_r b), <- (Z.lxor_nilpotent y).
  rewrite <- !Z.lxor_assoc, H. reflexivity.
Qed.

Lemma fault_before_ShiftRows (s h : list Z) (c r : nat) (k : Z) :
  wf_state s -> length h = 16%nat -> (c < 4)%nat -> (r < 4)%nat -> 0 <= k < 8 ->
  ShiftRows (Mem (with_fault s c r k) h (map hamming_encode s)) = Exit 2.
Proof.
  intros Hs Hh Hc Hr Hk.
  pose proof (with_fault_wf s c r k Hs) as Hf.
  unfold ShiftRows. cbn [m_state m_hamstate m_pcode]. cbv zeta.
  rewrite encode_state_map by (try exact Hh; apply ShiftRows_rotate_wf, Hf).
  rewrite compareCodes_differ; [reflexivity |].
  apply memcmp_of_different.
  - rewrite length_map. apply ShiftRows_rotate_wf, Hf.
  - rewrite predictShift_sound, length_map by apply Hs. apply ShiftRows_rotate_wf, Hs.
  - rewrite <- predictShift_sound by apply Hf. intros E.
    apply (f_equal InvShiftRows) in E.
    rewrite !InvShiftRows_predictShift in E by (rewrite length_map; first [apply Hf | apply Hs]).
    revert E. apply codes_differ; assumption.
Qed.

Lemma fault_before_AddRoundKey (round : nat) (s h rk : list Z) (c r : nat) (k : Z) :
  wf_state s -> Forall is_byte rk -> length h = 16%nat ->
  (c < 4)%nat -> (r < 4)%nat -> 0 <= k < 8 ->
  AddRoundKey round (Mem (with_fault s c r k) h (map hamming_encode s)) rk = Exit 2.
Proof.
  intros Hs Hrk Hh Hc Hr Hk.
  pose proof (with_fault_wf s c r k Hs) as Hf.
  unfold AddRoundKey. cbn [m_state m_hamstate m_pcode]. cbv zeta.
  rewrite encode_state_map by (try exact Hh; apply AddRoundKey_xor_wf; assumption).
  rewrite compareCodes_differ; [reflexivity |].
  assert (Hlp : length (predictAddKey round (with_fault s c r k) rk (map hamming_encode s))
                = 16%nat).
  { pose proof (predictor_length (T_AddRoundKey round) rk (with_fault s c r k)
                  (map hamming_encode s)) as E.
    cbn [predictor] in E. rewrite E, length_map. apply Hs. }
  apply memcmp_of_different; [| exact Hlp |].
  - rewrite length_map. apply AddRoundKey_xor_wf; assumption.
  - intros E. apply (f_equal (fun l => mget l c r)) in E.
    rewrite predictAddKey_cells in E by (rewrite length_map; apply Hs).
    rewrite AddRoundKey_xor_cells in E by apply Hf.
    rewrite mget_map_hamming in E.
    rewrite !mget_cells in E by (try rewrite length_map; try apply Hf; try apply Hs; assumption).
    rewrite mget_map_hamming, mget_with_fault in E by (try apply Hs; assumption).
    rewrite hamming_encode_lxor in E
      by (try apply flip_bit_is_byte; apply rd_is_byte, Hrk).
    apply lxor_cancel_r in E.
    revert E. apply one_fault_changes_code; [apply wf_state_cell, Hs | exact Hk].
Qed.

(** X8.  A bit that flips in the state between two transforms, after the
    codes were last compared, stops the process only if [ShiftRows] or
    [AddRoundKey] comes next.  [SubBytes] and [MixColumns] predict the codes
    from the state they are given, so they and every transform after them
    pass, and the run goes on from the faulty state. *)
Theorem fault_between_transforms (rk s h : list Z) (c r : nat) (k : Z) :
  wf_state s -> Forall is_byte rk -> length h = 16%nat ->
  (c < 4)%nat -> (r < 4)%nat -> 0 <= k < 8 ->
  let faulty := with_fault s c r k in
  let m := Mem faulty h (map hamming_encode s) in
  faulty <> s
  /\ (forall Ts, run_transforms (T_SubBytes :: Ts) rk m
                 = Ok (settled (apply_transforms (T_SubBytes :: Ts) rk faulty)))
  /\ (forall Ts, run_transforms (T_MixColumns :: Ts) rk m
                 = Ok (settled (apply_transforms (T_MixColumns :: Ts) rk faulty)))
  /\ run_transform T_ShiftRows rk m = Exit 2
  /\ forall round, run_transform (T_AddRoundKey round) rk m = Exit 2.
Proof.
  intros Hs Hrk Hh Hc Hr Hk faulty m.
  pose proof (with_fault_wf s c r k Hs) as Hf. fold faulty in Hf.
  assert (Hp : length (map hamming_encode s) = 16%nat) by (rewrite length_map; apply Hs).
  split.
  { intros E. apply (codes_differ s c r k Hs Hc Hr Hk). fold faulty. rewrite E. reflexivity. }
  split; [| split; [| split]].
  - intros Ts. unfold m. clear m. clearbody faulty.
    rewrite run_transforms_cons, run_transform_SubBytes.
    rewrite SubBytes_settles, bind_Ok by assumption.
    rewrite apply_transforms_cons, apply_SubBytes.
    apply run_transforms_from_settled; [exact Hrk | apply SubBytes_subst_wf, Hf].
  - intros Ts. unfold m. clear m. clearbody faulty.
    rewrite run_transforms_cons, run_transform_MixColumns.
    rewrite MixColumns_settles, bind_Ok by assumption.
    rewrite apply_transforms_cons, apply_MixColumns.
    apply run_transforms_from_settled; [exact Hrk | apply MixColumns_mix_wf, Hf].
  - apply fault_before_ShiftRows; assumption.
  - intros round. apply fault_before_AddRoundKey; assumption.
Qed.

Lemma fault_between_transforms_witness :
  (wf_state demo_state /\ Forall is_byte (RoundKey nist_ctx)
   /\ length fresh_hamstate = 16%nat /\ (2 < 4)%nat /\ (1 < 4)%nat /\ 0 <= 5 < 8)
  /\ with_fault demo_state 2 1 5 <> demo_state
  /\ (forall Ts,
        run_transforms (T_SubBytes :: Ts) (RoundKey nist_ctx)
          (Mem (with_fault demo_state 2 1 5) fresh_hamstate
             (map hamming_encode demo_state))
        = Ok (settled (apply_transforms (T_SubBytes :: Ts) (RoundKey nist_ctx)
                         (with_fault demo_state 2 1 5))))
  /\ (forall Ts,
        run_transforms (T_MixColumns :: Ts) (RoundKey nist_ctx)
          (Mem (with_fault demo_state 2 1 5) fresh_hamstate
             (map hamming_encode demo_state))
        = Ok (settled (apply_transforms (T_MixColumns :: Ts) (RoundKey nist_ctx)
                         (with_fault demo_state 2 1 5))))
  /\ run_transform T_ShiftRows (RoundKey nist_ctx)
       (Mem (with_fault demo_state 2 1 5) fresh_hamstate (map hamming_encode demo_state))
     = Exit 2
  /\ forall round,
       run_transform (T_AddRoundKey round) (RoundKey nist_ctx)
         (Mem (with_fault demo_state 2 1 5) fresh_hamstate
            (map hamming_encode demo_state))
       = Exit 2.
Proof.
  assert (H1 : wf_state demo_state) by (apply wf_state_dec; vm_compute; reflexivity).
  assert (H2 : Forall is_byte (RoundKey nist_ctx))
    by (apply forallb_is_byte; vm_compute; reflexivity).
  assert (H3 : length fresh_hamstate = 16%nat) by reflexivity.
  assert (H4 : (2 < 4)%nat) by lia.
  assert (H5 : (1 < 4)%nat) by lia.
  assert (H6 : 0 <= 5 < 8) by lia.
  split; [exact (conj H1 (conj H2 (conj H3 (conj H4 (conj H5 H6))))) |].
  exact (fault_between_transforms (RoundKey nist_ctx) demo_state fresh_hamstate 2 1 5
           H1 H2 H3 H4 H5 H6).
Defined.

(** ** The counter *)

Lemma be_value_snoc (l : list Z) (b : Z) : be_value (l ++ [b]) = be_value l * 256 + b.
Proof. unfold be_value. rewrite fold_left_app. reflexivity. Qed.

Lemma be_value_bound (l : list Z) :
  Forall is_byte l -> 0 <= be_value l < 256 ^ Z.of_nat (length l).
Proof.
  induction l as [| b l IH] using rev_ind; intros H.
  - cbn. lia.
  - apply Forall_app in H. destruct H as [Hl Hb].
    apply Forall_inv in Hb. unfold is_byte in Hb. specialize (IH Hl).
    rewrite be_value_snoc, length_app, Nat.add_1_r, Nat2Z.inj_succ, Z.pow_succ_r by lia.
    lia.
Qed.

Lemma rd_middle (p s : list Z) (b : Z) : rd (p ++ b :: s) (length p) = b.
Proof. unfold rd. apply nth_middle. Qed.

Lemma wr_middle (p s : list Z) (b x : Z) : wr (p ++ b :: s) (length p) x = p ++ x :: s.
Proof. induction p as [| a p IH]; simpl; [reflexivity | f_equal; exact IH]. Qed.

Lemma Iv_increment_prefix (pre : list Z) :
  forall suf, Forall is_byte pre ->
  exists pre',
    Iv_increment (length pre) (pre ++ suf) = pre' ++ suf
    /\ length pre' = length pre
    /\ be_value pre' = (be_value pre + 1) mod 256 ^ Z.of_nat (length pre).
Proof.
  induction pre as [| b p IH] using rev_ind; intros suf H.
  - exists []. repeat split.
  - apply Forall_app in H. destruct H as [Hp Hb]. apply Forall_inv in Hb.
    pose proof (be_value_bound p Hp) as Hbound.
    rewrite <- app_assoc. cbn [app].
    rewrite length_app, Nat.add_1_r. cbn [Iv_increment].
    rewrite rd_middle, wr_middle, wr_middle.
    rewrite Nat2Z.inj_succ, Z.pow_succ_r by lia.
    destruct (Z.eqb_spec b 255) as [-> | Hne].
    + destruct (IH (0 :: suf) Hp) as (p' & E & Hl & Hv).
      exists (p' ++ [0]). rewrite E, <- app_assoc. split; [reflexivity |].
      split; [rewrite length_app, Hl, Nat.add_1_r; reflexivity |].
      rewrite !be_value_snoc, Hv.
      replace (be_value p * 256 + 255 + 1) with ((be_value p + 1) * 256) by lia.
      rewrite (Z.mul_comm 256 (256 ^ _)), Z.mul_mod_distr_r by lia. lia.
    + exists (p ++ [u8 (b + 1)]). rewrite <- app_assoc. split; [reflexivity |].
      split; [rewrite length_app, Nat.add_1_r; reflexivity |].
      unfold is_byte in Hb. rewrite !be_value_snoc, u8_byte by (unfold is_byte; lia).
      rewrite Z.mod_small by lia. lia.
Qed.

(** X9.  [Iv_increment] over the sixteen bytes adds one to the counter read
    as a big-endian number, wrapping at 2^128. *)
Theorem Iv_increment_adds_one (iv : list Z) :
  wf_state iv ->
  wf_state (Iv_increment AES_BLOCKLEN iv)
  /\ be_value (Iv_increment AES_BLOCKLEN iv) = (be_value iv + 1) mod 2 ^ 128.
Proof.
  intros Hiv. split; [apply Iv_increment_wf, Hiv |].
  destruct Hiv as [Hl Hb].
  destruct (Iv_increment_prefix iv [] Hb) as (iv' & E & _ & Hv).
  rewrite !app_nil_r, Hl in E. unfold AES_BLOCKLEN. rewrite E, Hv, Hl. reflexivity.
Qed.

Lemma Iv_increment_adds_one_witness :
  wf_state (repeat 0xff 16)
  /\ wf_state (Iv_increment AES_BLOCKLEN (repeat 0xff 16))
  /\ be_value (Iv_increment AES_BLOCKLEN (repeat 0xff 16))
     = (be_value (repeat 0xff 16) + 1) mod 2 ^ 128.
Proof.
  assert (H : wf_state (repeat 0xff 16)) by (apply wf_state_dec; vm_compute; reflexivity).
  split; [exact H |].
  exact (Iv_increment_adds_one (repeat 0xff 16) H).
Defined.

(** ** The key schedule *)

Lemma rd_overflow (a : list Z) (i : nat) : (length a <= i)%nat -> rd a i = 0.
Proof. intros H. unfold rd. apply nth_overflow, H. Qed.

Lemma wr_overflow (a : list Z) (i : nat) (x : Z) : (length a <= i)%nat -> wr a i x = a.
Proof.
  revert i. induction a as [| h a IH]; intros [| i] H; simpl in *;
    try reflexivity; try lia.
  f_equal. apply IH. lia.
Qed.

Lemma agree_wr_next (n i : nat) (a b : list Z) (x : Z) :
  agree n a b -> i = n -> agree (S n) (wr a i x) (wr b i x).
Proof.
  intros [Hl H] ->. split; [rewrite !wr_length; exact Hl |].
  intros j Hj. destruct (Nat.eq_dec n j) as [<- | Hne].
  - destruct (Nat.lt_ge_cases n (length a)) as [Hlt | Hge].
    + rewrite !rd_wr_same by lia. reflexivity.
    + rewrite !wr_overflow, !rd_overflow by lia. reflexivity.
  - rewrite !rd_wr_other by exact Hne. apply H. lia.
Qed.

Lemma agree_all (a b : list Z) : agree (length a) a b -> a = b.
Proof.
  intros [Hl H]. apply (nth_ext _ _ 0 0); [exact Hl |]. intros j Hj. apply H, Hj.
Qed.

Lemma agree_refl (n : nat) (a : list Z) : agree n a a.
Proof. split; reflexivity. Qed.

(** The loop that copies the key, one word a turn. *)
Lemma copy_agree (key : list Z) (count : nat) :
  forall from a b,
    agree (4 * from) a b ->
    agree (4 * (from + count))
      (fold_left (fun rk i =>
         let rk := wr rk (i * 4 + 0) (rd key (i * 4 + 0)) in
         let rk := wr rk (i * 4 + 1) (rd key (i * 4 + 1)) in
         let rk := wr rk (i * 4 + 2) (rd key (i * 4 + 2)) in
         wr rk (i * 4 + 3) (rd key (i * 4 + 3))) (seq from count) a)
      (fold_left (fun rk i =>
         let rk := wr rk (i * 4 + 0) (rd key (i * 4 + 0)) in
         let rk := wr rk (i * 4 + 1) (rd key (i * 4 + 1)) in
         let rk := wr rk (i * 4 + 2) (rd key (i * 4 + 2)) in
         wr rk (i * 4 + 3) (rd key (i * 4 + 3))) (seq from count) b).
Proof.
  induction count as [| n IH]; intros from a b H.
  - rewrite Nat.add_0_r. exact H.
  - cbn [seq fold_left]. replace (from + S n)%nat with (S from + n)%nat by lia.
    apply IH. cbv zeta.
    replace (4 * S from)%nat with (S (S (S (S (4 * from))))) by lia.
    repeat (apply agree_wr_next; [| lia]). exact H.
Qed.

Lemma copy_key (key : list Z) (count : nat) :
  forall from rk j,
    (4 * (from + count) <= length rk)%nat -> (4 * from <= j < 4 * (from + count))%nat ->
    rd (fold_left (fun rk i =>
          let rk := wr rk (i * 4 + 0) (rd key (i * 4 + 0)) in
          let rk := wr rk (i * 4 + 1) (rd key (i * 4 + 1)) in
          let rk := wr rk (i * 4 + 2) (rd key (i * 4 + 2)) in
          wr rk (i * 4 + 3) (rd key (i * 4 + 3))) (seq from count) rk) j
    = rd key j.
Proof.
  induction count as [| n IH]; intros from rk j Hl Hj; [lia |].
  cbn [seq fold_left]. cbv zeta.
  destruct (Nat.lt_ge_cases j (4 * S from)) as [Hlt | Hge].
  - clear IH.
    assert (G : forall m rk0,
              (j < 4 * S from)%nat ->
              rd (fold_left (fun rk i =>
                    let rk := wr rk (i * 4 + 0) (rd key (i * 4 + 0)) in
                    let rk := wr rk (i * 4 + 1) (rd key (i * 4 + 1)) in
                    let rk := wr rk (i * 4 + 2) (rd key (i * 4 + 2)) in
                    wr rk (i * 4 + 3) (rd key (i * 4 + 3))) (seq (S from) m) rk0) j
              = rd rk0 j).
    { clear. intros m. generalize (S from). induction m as [| m IH]; intros f rk0 H;
        [reflexivity |].
      cbn [seq fold_left]. cbv zeta. rewrite IH by lia.
      rewrite !rd_wr_other by lia. reflexivity. }
    rewrite G by exact Hlt.
    assert (Hc : (j = from * 4 + 0 \/ j = from * 4 + 1 \/ j = from * 4 + 2
                  \/ j = from * 4 + 3)%nat) by lia.
    destruct Hc as [-> | [-> | [-> | ->]]];
      repeat first [ rewrite rd_wr_same by (rewrite ?wr_length; lia)
                   | rewrite rd_wr_other by lia ];
      reflexivity.
  - replace (from + S n)%nat with (S from + n)%nat in * by lia.
    apply IH; [rewrite !wr_length; exact Hl | lia].
Qed.

(** A step of the expansion reads below word [i] and writes word [i]. *)
Lemma KeyExpansion_word_agree (v : variant) (i : nat) (a b : list Z) :
  (Nk v <= i)%nat -> agree (4 * i) a b ->
  agree (4 * S i) (KeyExpansion_word v a i) (KeyExpansion_word v b i).
Proof.
  intros Hi H. pose proof H as [Hl Hrd].
  assert (Hk : (1 <= Nk v)%nat) by (destruct v; cbn; lia).
  unfold KeyExpansion_word, SubWord. cbv zeta.
  destruct (i mod Nk v =? 0)%nat; destruct v; try destruct (i mod Nk _ =? 4)%nat;
    rewrite !rd_wr_other by lia;
    rewrite ?(Hrd ((i - 1) * 4 + _)%nat) by lia;
    rewrite !(Hrd ((i - _) * 4 + _)%nat) by lia;
    replace (4 * S i)%nat with (S (S (S (S (4 * i))))) by lia;
    repeat (apply agree_wr_next; [| lia]); exact H.
Qed.

Lemma KeyExpansion_word_elsewhere (v : variant) (i j : nat) (rk : list Z) :
  (j < 4 * i \/ 4 * S i <= j)%nat -> rd (KeyExpansion_word v rk i) j = rd rk j.
Proof.
  intros Hj. unfold KeyExpansion_word, SubWord. cbv zeta.
  destruct (i mod Nk v =? 0)%nat; destruct v; try destruct (i mod Nk _ =? 4)%nat;
    rewrite !rd_wr_other by lia; reflexivity.
Qed.

Lemma expansion_agree (v : variant) (count : nat) :
  forall from a b,
    (Nk v <= from)%nat -> agree (4 * from) a b ->
    agree (4 * (from + count))
      (fold_left (KeyExpansion_word v) (seq from count) a)
      (fold_left (KeyExpansion_word v) (seq from count) b).
Proof.
  induction count as [| n IH]; intros from a b Hf H.
  - rewrite Nat.add_0_r. exact H.
  - cbn [seq fold_left]. replace (from + S n)%nat with (S from + n)%nat by lia.
    apply IH; [lia |]. apply KeyExpansion_word_agree; assumption.
Qed.

Lemma expansion_below (v : variant) (count : nat) :
  forall from rk j,
    (j < 4 * from)%nat ->
    rd (fold_left (KeyExpansion_word v) (seq from count) rk) j = rd rk j.
Proof.
  induction count as [| n IH]; intros from rk j Hj; [reflexivity |].
  cbn [seq fold_left]. rewrite IH by lia.
  apply KeyExpansion_word_elsewhere. lia.
Qed.

Lemma expansion_length (v : variant) (idx : list nat) :
  forall rk, length (fold_left (KeyExpansion_word v) idx rk) = length rk.
Proof.
  induction idx as [| i idx IH]; intros rk; [reflexivity |].
  cbn [fold_left]. rewrite IH. apply KeyExpansion_word_length.
Qed.

Lemma copy_length (key : list Z) (idx : list nat) :
  forall rk,
    length (fold_left (fun rk i =>
              let rk := wr rk (i * 4 + 0) (rd key (i * 4 + 0)) in
              let rk := wr rk (i * 4 + 1) (rd key (i * 4 + 1)) in
              let rk := wr rk (i * 4 + 2) (rd key (i * 4 + 2)) in
              wr rk (i * 4 + 3) (rd key (i * 4 + 3))) idx rk)
    = length rk.
Proof.
  induction idx as [| i idx IH]; intros rk; [reflexivity |].
  cbn [fold_left]. rewrite IH. cbv zeta. rewrite !wr_length. reflexivity.
Qed.

(** Re-running the step for word [i] on a buffer whose words from [i] on
    were produced by the steps [i], [i + 1], ... changes nothing. *)
Lemma expansion_fixed (v : variant) (rk : list Z) (i count : nat) :
  (Nk v <= i)%nat ->
  KeyExpansion_word v (fold_left (KeyExpansion_word v) (seq i (S count)) rk) i
  = fold_left (KeyExpansion_word v) (seq i (S count)) rk.
Proof.
  intros Hi. cbn [seq fold_left].
  set (rk1 := KeyExpansion_word v rk i).
  set (K := fold_left (KeyExpansion_word v) (seq (S i) count) rk1).
  assert (HK : forall j, (j < 4 * S i)%nat -> rd K j = rd rk1 j)
    by (intros j Hj; apply expansion_below, Hj).
  assert (Hlen1 : length rk1 = length rk) by apply KeyExpansion_word_length.
  assert (HlenK : length K = length rk1) by apply expansion_length.
  assert (Hagree : agree (4 * i) K rk).
  { split; [congruence |]. intros j Hj. rewrite HK by lia.
    apply KeyExpansion_word_elsewhere. lia. }
  apply (KeyExpansion_word_agree v i K rk Hi) in Hagree. fold rk1 in Hagree.
  destruct Hagree as [Hl Hrd].
  apply (nth_ext _ _ 0 0); [rewrite KeyExpansion_word_length; reflexivity |].
  intros j _. fold (rd (KeyExpansion_word v K i) j). fold (rd K j).
  destruct (Nat.lt_ge_cases j (4 * S i)) as [Hlt | Hge].
  - rewrite Hrd, HK by exact Hlt. reflexivity.
  - apply KeyExpansion_word_elsewhere. lia.
Qed.

(** X10.  [KeyExpansion] fills the whole buffer from the key alone: the result
    starts with the key, every later word satisfies the recurrence of the
    step that wrote it, and what the buffer held before does not matter. *)
Theorem KeyExpansion_from_key_alone (v : variant) (rk rk' key : list Z) :
  length rk = AES_keyExpSize v -> length rk' = AES_keyExpSize v ->
  length key = (4 * Nk v)%nat ->
  firstn (4 * Nk v) (KeyExpansion v rk key) = key
  /\ (forall i, (Nk v <= i < Nb * (Nr v + 1))%nat ->
        KeyExpansion_word v (KeyExpansion v rk key) i = KeyExpansion v rk key)
  /\ KeyExpansion v rk' key = KeyExpansion v rk key.
Proof.
  intros Hrk Hrk' Hkey.
  assert (Hsize : AES_keyExpSize v = (4 * (Nk v + (Nb * (Nr v + 1) - Nk v)))%nat)
    by (unfold AES_keyExpSize, Nb; destruct v; reflexivity).
  assert (Hlt : (Nk v <= Nb * (Nr v + 1))%nat) by (unfold Nb; destruct v; cbn; lia).
  unfold KeyExpansion. cbv zeta.
  split; [| split].
  - apply (nth_ext _ _ 0 0).
    + rewrite length_firstn, expansion_length, copy_length. lia.
    + rewrite length_firstn, expansion_length, copy_length. intros j Hj.
      rewrite nth_firstn.
      replace (j <? 4 * Nk v)%nat with true by (symmetry; apply Nat.ltb_lt; lia).
      fold (rd key j).
      match goal with |- nth j ?l 0 = _ => fold (rd l j) end.
      rewrite expansion_below by lia.
      apply (copy_key key (Nk v) 0); [rewrite Hrk, Hsize |]; lia.
  - intros i Hi.
    replace (Nb * (Nr v + 1) - Nk v)%nat
      with ((i - Nk v) + S (Nb * (Nr v + 1) - S i))%nat by lia.
    rewrite seq_app, fold_left_app.
    replace (Nk v + (i - Nk v))%nat with i by lia.
    apply expansion_fixed. lia.
  - apply agree_all. rewrite expansion_length, copy_length, Hrk', Hsize.
    apply expansion_agree; [lia |].
    apply (copy_agree key (Nk v) 0). split; [congruence |]. intros j Hj. lia.
Qed.

Lemma KeyExpansion_from_key_alone_witness :
  (length (repeat 0 176) = AES_keyExpSize AES128
   /\ length (repeat 0xff 176) = AES_keyExpSize AES128
   /\ length nist_key = (4 * Nk AES128)%nat)
  /\ firstn (4 * Nk AES128) (KeyExpansion AES128 (repeat 0 176) nist_key) = nist_key
  /\ (forall i, (Nk AES128 <= i < Nb * (Nr AES128 + 1))%nat ->
        KeyExpansion_word AES128 (KeyExpansion AES128 (repeat 0 176) nist_key) i
        = KeyExpansion AES128 (repeat 0 176) nist_key)
  /\ KeyExpansion AES128 (repeat 0xff 176) nist_key
     = KeyExpansion AES128 (repeat 0 176) nist_key.
Proof.
  split; [repeat split |].
  exact (KeyExpansion_from_key_alone AES128 (repeat 0 176) (repeat 0xff 176) nist_key
           eq_refl eq_refl eq_refl).
Defined.

(** ** The key stream of counter mode *)

Lemma counter_wf (iv : list Z) (k : nat) : wf_state iv -> wf_state (counter iv k).
Proof.
  intros H. induction k as [| k IH]; [exact H |].
  unfold counter. cbn [Nat.iter]. apply Iv_increment_wf, IH.
Qed.

Lemma counter_S (iv : list Z) (k : nat) :
  counter iv (S k) = Iv_increment AES_BLOCKLEN (counter iv k).
Proof. reflexivity. Qed.

Lemma keystream_block_wf (v : variant) (rk iv : list Z) (k : nat) :
  Forall is_byte rk -> wf_state iv -> wf_state (keystream_block v rk iv k).
Proof. intros Hrk Hiv. apply apply_transforms_wf, counter_wf; assumption. Qed.

Lemma Cipher_counter (v : variant) (rk iv : list Z) (k : nat) :
  Forall is_byte rk -> wf_state iv ->
  Cipher v (counter iv k) rk = Ok (keystream_block v rk iv k).
Proof.
  intros Hrk Hiv. unfold keystream_block.
  exact (Cipher_unchecked v (counter iv k) rk (counter_wf iv k Hiv) Hrk).
Qed.

Lemma succ_div_mod_16 (i : nat) :
  (if (i mod 16 =? 15)%nat
   then S i mod 16 = 0 /\ S i / 16 = S (i / 16)
   else S i mod 16 = S (i mod 16) /\ S i / 16 = i / 16)%nat.
Proof.
  pose proof (Nat.div_mod_eq i 16) as E.
  pose proof (Nat.mod_upper_bound i 16 ltac:(lia)) as Hr.
  destruct (Nat.eqb_spec (i mod 16) 15) as [H15 | H15]; split; symmetry.
  - apply (Nat.mod_unique _ 16 (S (i / 16))); lia.
  - apply (Nat.div_unique _ 16 _ 0); lia.
  - apply (Nat.mod_unique _ 16 (i / 16)); lia.
  - apply (Nat.div_unique _ 16 _ (S (i mod 16))); lia.
Qed.

Lemma rd_xor_step (b buf : list Z) (i j : nat) (k : Z) (ks : nat -> Z) :
  length b = length buf -> (i < length buf)%nat -> k = ks i ->
  (forall j, rd b j = if (j <? i)%nat then Z.lxor (rd buf j) (ks j) else rd buf j) ->
  rd (wr b i (Z.lxor (rd b i) k)) j
  = if (j <? S i)%nat then Z.lxor (rd buf j) (ks j) else rd buf j.
Proof.
  intros Hl Hi -> H. destruct (Nat.eq_dec i j) as [<- | Hne].
  - rewrite rd_wr_same by lia. rewrite H, Nat.ltb_irrefl.
    replace (i <? S i)%nat with true by (symmetry; apply Nat.ltb_lt; lia).
    reflexivity.
  - rewrite rd_wr_other by exact Hne. rewrite H.
    destruct (Nat.ltb_spec j i), (Nat.ltb_spec j (S i)); try reflexivity; lia.
Qed.

Lemma CTR_step_after (v : variant) (rk iv buf : list Z) (i : nat) (s : ctr_vars) :
  Forall is_byte rk -> wf_state iv -> (i < length buf)%nat ->
  ctr_after v rk iv buf i s ->
  exists s', CTR_step v rk i s = Ok s' /\ ctr_after v rk iv buf (S i) s'.
Proof.
  intros Hrk Hiv Hi (Hl & Hbuf & Hvars).
  destruct s as [civ buffer bi cbuf]. cbn [c_Iv c_buffer c_bi c_buf] in *.
  unfold CTR_step. cbn [c_Iv c_buffer c_bi c_buf].
  destruct i as [| i'].
  - destruct Hvars as (-> & -> & Hlen). cbn [Nat.eqb AES_BLOCKLEN].
    change (16 =? 16)%nat with true. cbv iota.
    rewrite memcpy_whole by (try apply Hiv; exact Hlen).
    rewrite (Cipher_unchecked v iv rk Hiv Hrk), !bind_Ok.
    change (apply_transforms (schedule v) rk iv) with (keystream_block v rk iv 0).
    cbn [c_Iv c_buffer c_bi c_buf].
    eexists. split; [reflexivity |].
    unfold ctr_after. cbn [c_Iv c_buffer c_bi c_buf].
    split; [rewrite wr_length; exact Hl |].
    split; [| split; [| split]; reflexivity].
    intros j.
    apply (rd_xor_step cbuf buf 0 j _
             (fun j => rd (keystream_block v rk iv (j / 16)) (j mod 16)));
      try assumption. reflexivity.
  - destruct Hvars as (-> & -> & ->).
    pose proof (succ_div_mod_16 i') as Harith.
    pose proof (Nat.mod_upper_bound i' 16 ltac:(lia)) as Hr.
    unfold AES_BLOCKLEN at 1.
    change (S (i' mod 16) =? 16)%nat with (i' mod 16 =? 15)%nat.
    destruct (i' mod 16 =? 15)%nat; destruct Harith as [Hm Hd].
    + rewrite memcpy_whole
        by (try apply counter_wf, Hiv; apply keystream_block_wf; assumption).
      rewrite (Cipher_counter v rk iv (S (i' / 16)) Hrk Hiv), !bind_Ok.
      cbn [c_Iv c_buffer c_bi c_buf].
      eexists. split; [reflexivity |].
      unfold ctr_after. cbn [c_Iv c_buffer c_bi c_buf].
      split; [rewrite wr_length; exact Hl |].
      split; [| rewrite Hm, Hd, <- counter_S; split; [| split]; reflexivity].
      intros j.
      apply (rd_xor_step cbuf buf (S i') j _
               (fun j => rd (keystream_block v rk iv (j / 16)) (j mod 16)));
        try assumption. rewrite Hm, Hd. reflexivity.
    + rewrite !bind_Ok. cbn [c_Iv c_buffer c_bi c_buf].
      eexists. split; [reflexivity |].
      unfold ctr_after. cbn [c_Iv c_buffer c_bi c_buf].
      split; [rewrite wr_length; exact Hl |].
      split; [| rewrite Hm, Hd; split; [| split]; reflexivity].
      intros j.
      apply (rd_xor_step cbuf buf (S i') j _
               (fun j => rd (keystream_block v rk iv (j / 16)) (j mod 16)));
        try assumption. rewrite Hm, Hd. reflexivity.
Qed.

Lemma CTR_loop_after (v : variant) (rk iv buf : list Z) (count : nat) :
  Forall is_byte rk -> wf_state iv ->
  forall i s,
    (i + count <= length buf)%nat -> ctr_after v rk iv buf i s ->
    exists s', CTR_loop v rk (seq i count) s = Ok s'
               /\ ctr_after v rk iv buf (i + count) s'.
Proof.
  intros Hrk Hiv. induction count as [| n IH]; intros i s Hi Hs.
  - exists s. rewrite Nat.add_0_r. split; [reflexivity | exact Hs].
  - destruct (CTR_step_after v rk iv buf i s Hrk Hiv ltac:(lia) Hs) as (s1 & E1 & Hs1).
    destruct (IH (S i) s1 ltac:(lia) Hs1) as (s2 & E2 & Hs2).
    exists s2. cbn [seq CTR_loop]. rewrite E1, bind_Ok.
    split; [exact E2 |]. replace (i + S n)%nat with (S i + n)%nat by lia. exact Hs2.
Qed.

(** X11.  [AES_CTR_xcrypt_buffer] exclusive-ors byte [j] of the first
    [length] bytes with byte [j mod 16] of the encryption of the counter
    advanced [j / 16] times, leaves the other bytes alone, and leaves in the
    context the counter advanced once per block begun. *)
Theorem CTR_keystream (v : variant) (ctx : AES_ctx) (buf : list Z) (n : nat) :
  Forall is_byte (RoundKey ctx) -> wf_state (Iv ctx) -> (n <= length buf)%nat ->
  exists buf',
    AES_CTR_xcrypt_buffer v ctx buf n
    = Ok (Ctx (RoundKey ctx) (counter (Iv ctx) ((n + 15) / 16)), buf')
    /\ length buf' = length buf
    /\ (forall j,
          rd buf' j
          = if (j <? n)%nat
            then Z.lxor (rd buf j)
                   (rd (keystream_block v (RoundKey ctx) (Iv ctx) (j / 16)) (j mod 16))
            else rd buf j)
    /\ forall k, Cipher v (counter (Iv ctx) k) (RoundKey ctx)
                 = Ok (keystream_block v (RoundKey ctx) (Iv ctx) k).
Proof.
  intros Hrk Hiv Hn. unfold AES_CTR_xcrypt_buffer.
  destruct (CTR_loop_after v (RoundKey ctx) (Iv ctx) buf n Hrk Hiv 0
              (CtrVars (Iv ctx) (repeat 0 AES_BLOCKLEN) AES_BLOCKLEN buf))
    as (s & E & Hl & Hbuf & Hvars).
  - exact Hn.
  - unfold ctr_after. cbn [c_Iv c_buffer c_bi c_buf].
    split; [reflexivity |]. split; [intros j; reflexivity |]. repeat split.
  - rewrite E, bind_Ok. exists (c_buf s). cbn [Nat.add] in *.
    split; [| split; [exact Hl | split; [exact Hbuf |]]].
    + f_equal. f_equal. f_equal.
      destruct n as [| n']; [apply Hvars |].
      destruct Hvars as (_ & -> & _). f_equal.
      replace (S n' + 15)%nat with (n' + 1 * 16)%nat by lia.
      rewrite Nat.div_add by lia. lia.
    + intros k. apply Cipher_counter; assumption.
Qed.

Lemma CTR_keystream_witness :
  (Forall is_byte (RoundKey nist_ctx) /\ wf_state (Iv nist_ctx)
   /\ (21 <= length demo_message)%nat)
  /\ exists buf',
       AES_CTR_xcrypt_buffer AES128 nist_ctx demo_message 21
       = Ok (Ctx (RoundKey nist_ctx) (counter (Iv nist_ctx) ((21 + 15) / 16)), buf')
       /\ length buf' = length demo_message
       /\ (forall j,
             rd buf' j
             = if (j <? 21)%nat
               then Z.lxor (rd demo_message j)
                      (rd (keystream_block AES128 (RoundKey nist_ctx) (Iv nist_ctx)
                             (j / 16)) (j mod 16))
               else rd demo_message j)
       /\ forall k, Cipher AES128 (counter (Iv nist_ctx) k) (RoundKey nist_ctx)
                    = Ok (keystream_block AES128 (RoundKey nist_ctx) (Iv nist_ctx) k).
Proof.
  assert (H1 : Forall is_byte (RoundKey nist_ctx))
    by (apply forallb_is_byte; vm_compute; reflexivity).
  assert (H2 : wf_state (Iv nist_ctx)) by (apply wf_state_dec; vm_compute; reflexivity).
  assert (H3 : (21 <= length demo_message)%nat) by (cbn; lia).
  split; [split; [exact H1 | split; [exact H2 | exact H3]] |].
  exact (CTR_keystream AES128 nist_ctx demo_message 21 H1 H2 H3).
Defined.

(** ** Cipher block chaining *)

Lemma rd_app_r (done l : list Z) (k : nat) : rd (done ++ l) (length done + k) = rd l k.
Proof. unfold rd. apply app_nth2_plus. Qed.

Lemma wr_app_r (done l : list Z) (k : nat) (x : Z) :
  wr (done ++ l) (length done + k) x = done ++ wr l k x.
Proof.
  induction done as [| a done IH]; [reflexivity |].
  cbn [length Nat.add app wr]. f_equal. exact IH.
Qed.

Lemma xor_loop_app (done iv : list Z) (idx : list nat) :
  forall l,
    fold_left (fun b i => wr b (length done + i) (Z.lxor (rd b (length done + i)) (rd iv i)))
              idx (done ++ l)
    = done ++ fold_left (fun b i => wr b i (Z.lxor (rd b i) (rd iv i))) idx l.
Proof.
  induction idx as [| i idx IH]; intros l; [reflexivity |].
  cbn [fold_left]. rewrite rd_app_r, wr_app_r. apply IH.
Qed.

Lemma XorWithIv_block (done p rest iv : list Z) :
  length p = 16%nat -> length iv = 16%nat ->
  XorWithIv (done ++ p ++ rest) (length done) iv = done ++ xor_blocks p iv ++ rest.
Proof.
  intros Hp Hiv. unfold XorWithIv. rewrite xor_loop_app. f_equal.
  cells16 p Hp. cells16 iv Hiv.
  cbv [AES_BLOCKLEN seq fold_left wr rd nth app xor_blocks combine map fst snd].
  reflexivity.
Qed.

Lemma xor_blocks_wf (p iv : list Z) :
  wf_state p -> wf_state iv -> wf_state (xor_blocks p iv).
Proof.
  intros [Hpl Hpb] [Hil Hib]. cells16 p Hpl. cells16 iv Hil.
  bytes_of_state Hpb. bytes_of_state Hib.
  split; [reflexivity |]. unfold xor_blocks. cbn [combine map fst snd].
  repeat (apply Forall_cons; [apply lxor_is_byte; assumption |]). apply Forall_nil.
Qed.

Lemma block_at_app (done p rest : list Z) :
  length p = 16%nat -> block_at (done ++ p ++ rest) (length done) = p.
Proof.
  intros Hp. unfold block_at, AES_BLOCKLEN.
  rewrite skipn_app, skipn_all, Nat.sub_diag. cbn [skipn app].
  rewrite firstn_app, Hp, Nat.sub_diag, <- Hp, firstn_all. apply app_nil_r.
Qed.

Lemma put_block_app (done p rest c : list Z) :
  length p = 16%nat -> put_block (done ++ p ++ rest) (length done) c = done ++ c ++ rest.
Proof.
  intros Hp. unfold put_block, AES_BLOCKLEN.
  rewrite firstn_app, firstn_all, Nat.sub_diag. cbn [firstn].
  rewrite app_nil_r, skipn_app, skipn_all2 by lia.
  replace (length done + 16 - length done)%nat with 16%nat by lia.
  rewrite skipn_app, <- Hp, skipn_all, Nat.sub_diag. reflexivity.
Qed.

Lemma last_cons (A : Type) (c d : A) (l : list A) : last (c :: l) d = last l c.
Proof.
  revert c d. induction l as [| x l IH]; intros c d; [reflexivity |].
  change (last (c :: x :: l) d) with (last (x :: l) d).
  rewrite (IH x d), (IH x c). reflexivity.
Qed.

Lemma xor_blocks_twice (p iv : list Z) :
  length p = 16%nat -> length iv = 16%nat -> xor_blocks (xor_blocks p iv) iv = p.
Proof.
  intros Hp Hiv. cells16 p Hp. cells16 iv Hiv.
  unfold xor_blocks. cbn [combine map fst snd].
  repeat (apply (f_equal2 (@cons Z)); [xor_bits |]). reflexivity.
Qed.

Lemma CBC_encrypt_loop_stop (v : variant) (rk : list Z) (n fuel i : nat) (iv buf : list Z) :
  (i <? n)%nat = false -> CBC_encrypt_loop v rk n fuel i iv buf = Ok (iv, buf).
Proof. intros E. destruct fuel; cbn [CBC_encrypt_loop]; rewrite E; reflexivity. Qed.

Lemma CBC_encrypt_loop_step (v : variant) (rk : list Z) (n fuel i : nat) (iv buf : list Z) :
  (i <? n)%nat = true ->
  CBC_encrypt_loop v rk n (S fuel) i iv buf
  = (blk <- Cipher v (block_at (XorWithIv buf i iv) i) rk ;;
     CBC_encrypt_loop v rk n fuel (i + AES_BLOCKLEN)
       (block_at (put_block (XorWithIv buf i iv) i blk) i)
       (put_block (XorWithIv buf i iv) i blk)).
Proof. intros E. cbn [CBC_encrypt_loop]. rewrite E. reflexivity. Qed.

Lemma CBC_decrypt_loop_stop (v : variant) (junk : nat -> hamstate_t) (n fuel i : nat)
  (ctx : AES_ctx) (buf : list Z) :
  (i <? n)%nat = false -> CBC_decrypt_loop v junk n fuel i ctx buf = Ok (ctx, buf).
Proof. intros E. destruct fuel; cbn [CBC_decrypt_loop]; rewrite E; reflexivity. Qed.

Lemma CBC_decrypt_loop_step (v : variant) (junk : nat -> hamstate_t) (n fuel i : nat)
  (ctx : AES_ctx) (buf : list Z) :
  (i <? n)%nat = true ->
  CBC_decrypt_loop v junk n (S fuel) i ctx buf
  = (blk <- InvCipher v (junk (i / AES_BLOCKLEN)%nat) (block_at buf i) (RoundKey ctx) ;;
     CBC_decrypt_loop v junk n fuel (i + AES_BLOCKLEN)
       (Ctx (RoundKey ctx) (memcpy (Iv ctx) (block_at buf i) AES_BLOCKLEN))
       (XorWithIv (put_block buf i blk) i (Iv ctx))).
Proof. intros E. cbn [CBC_decrypt_loop]. rewrite E. reflexivity. Qed.

Lemma cbc_chain_wf (enc : list Z -> list Z) (blocks : list (list Z)) :
  (forall s, wf_state s -> wf_state (enc s)) ->
  forall iv, wf_state iv -> Forall wf_state blocks ->
  Forall wf_state (cbc_chain enc iv blocks) /\ wf_state (last (cbc_chain enc iv blocks) iv).
Proof.
  intros Henc. induction blocks as [| p ps IH]; intros iv Hiv Hb.
  - split; [constructor | exact Hiv].
  - apply Forall_cons_iff in Hb. destruct Hb as [Hp Hps].
    assert (Hc : wf_state (enc (xor_blocks p iv)))
      by (apply Henc, xor_blocks_wf; assumption).
    destruct (IH _ Hc Hps) as [H1 H2]. cbn [cbc_chain].
    split; [constructor; assumption |]. rewrite last_cons. exact H2.
Qed.

Lemma CBC_encrypt_loop_chain (v : variant) (rk rest : list Z) (n : nat)
  (blocks : list (list Z)) :
  Forall is_byte rk ->
  forall done iv fuel,
    Forall wf_state blocks -> wf_state iv -> (length blocks <= fuel)%nat ->
    (length done + AES_BLOCKLEN * length blocks = round_up n)%nat ->
    CBC_encrypt_loop v rk n fuel (length done) iv (done ++ concat blocks ++ rest)
    = Ok (last (cbc_chain (apply_transforms (schedule v) rk) iv blocks) iv,
          done ++ concat (cbc_chain (apply_transforms (schedule v) rk) iv blocks) ++ rest).
Proof.
  intros Hrk. induction blocks as [| p ps IH]; intros done iv fuel Hb Hiv Hf Hn.
  - pose proof (round_up_ge n). cbn [length] in Hn.
    apply CBC_encrypt_loop_stop. apply Nat.ltb_ge. lia.
  - apply Forall_cons_iff in Hb. destruct Hb as [Hp Hps].
    cbn [length] in Hn, Hf.
    pose proof (round_up_blocks n (length ps) (length done) Hn) as Hlt.
    destruct fuel as [| fuel]; [lia |].
    rewrite CBC_encrypt_loop_step by (apply Nat.ltb_lt; exact Hlt).
    cbn [concat cbc_chain]. rewrite <- !app_assoc.
    rewrite XorWithIv_block by (try apply Hp; apply Hiv).
    pose proof (xor_blocks_wf p iv Hp Hiv) as Hx.
    rewrite block_at_app by apply Hx.
    rewrite (Cipher_unchecked v _ rk Hx Hrk), bind_Ok.
    rewrite put_block_app by apply Hx.
    set (c := apply_transforms (schedule v) rk (xor_blocks p iv)).
    assert (Hc : wf_state c) by (apply apply_transforms_wf; assumption).
    rewrite block_at_app by apply Hc.
    rewrite last_cons.
    replace (length done + AES_BLOCKLEN)%nat with (length (done ++ c))
      by (rewrite length_app, (proj1 Hc); reflexivity).
    rewrite !(app_assoc done c).
    apply IH; try assumption; [lia |].
    rewrite length_app, (proj1 Hc). unfold AES_BLOCKLEN in *. lia.
Qed.

Lemma CBC_decrypt_loop_chain (v : variant) (junk : nat -> hamstate_t) (rk rest : list Z)
  (n : nat) (blocks : list (list Z)) :
  Forall is_byte rk -> (forall k, length (junk k) = 16%nat) ->
  forall done iv fuel,
    Forall wf_state blocks -> wf_state iv -> (length blocks <= fuel)%nat ->
    (length done + AES_BLOCKLEN * length blocks = round_up n)%nat ->
    CBC_decrypt_loop v junk n fuel (length done) (Ctx rk iv)
      (done ++ concat (cbc_chain (apply_transforms (schedule v) rk) iv blocks) ++ rest)
    = Exit 2
    \/ CBC_decrypt_loop v junk n fuel (length done) (Ctx rk iv)
         (done ++ concat (cbc_chain (apply_transforms (schedule v) rk) iv blocks) ++ rest)
       = Ok (Ctx rk (last (cbc_chain (apply_transforms (schedule v) rk) iv blocks) iv),
             done ++ concat blocks ++ rest).
Proof.
  intros Hrk Hjunk. induction blocks as [| p ps IH]; intros done iv fuel Hb Hiv Hf Hn.
  - pose proof (round_up_ge n). cbn [length] in Hn. right.
    apply CBC_decrypt_loop_stop. apply Nat.ltb_ge. lia.
  - apply Forall_cons_iff in Hb. destruct Hb as [Hp Hps].
    cbn [length] in Hn, Hf.
    pose proof (round_up_blocks n (length ps) (length done) Hn) as Hlt.
    destruct fuel as [| fuel]; [lia |].
    rewrite CBC_decrypt_loop_step by (apply Nat.ltb_lt; exact Hlt).
    cbn [concat cbc_chain RoundKey Iv]. rewrite <- !app_assoc.
    pose proof (xor_blocks_wf p iv Hp Hiv) as Hx.
    set (c := apply_transforms (schedule v) rk (xor_blocks p iv)).
    assert (Hc : wf_state c) by (apply apply_transforms_wf; assumption).
    rewrite block_at_app by apply Hc.
    destruct (InvCipher_inverts_Cipher v (junk (length done / AES_BLOCKLEN)%nat)
                (xor_blocks p iv) rk c Hx Hrk (Hjunk _)
                (Cipher_unchecked v _ rk Hx Hrk)) as [E | E]; rewrite E.
    + left. apply bind_Exit.
    + rewrite bind_Ok.
      rewrite put_block_app by apply Hc.
      rewrite XorWithIv_block by (try apply Hx; apply Hiv).
      rewrite xor_blocks_twice by (try apply Hp; apply Hiv).
      rewrite memcpy_whole by (try apply Hc; apply Hiv).
      rewrite last_cons.
      replace (length done + AES_BLOCKLEN)%nat with (length (done ++ p))
        by (rewrite length_app, (proj1 Hp); reflexivity).
      rewrite !(app_assoc done p).
      apply IH; try assumption; [lia |].
      rewrite length_app, (proj1 Hp). unfold AES_BLOCKLEN in *. lia.
Qed.

Lemma blocks_fuel (n : nat) (blocks : list (list Z)) :
  (AES_BLOCKLEN * length blocks = round_up n)%nat -> (length blocks <= n)%nat.
Proof.
  intros H. destruct (round_up_fuel n) as [Hf _].
  rewrite <- H, Nat.mul_comm, Nat.div_mul in Hf by (unfold AES_BLOCKLEN; lia).
  exact Hf.
Qed.

Lemma CBC_encrypt_buffer_chain (v : variant) (rk iv rest : list Z) (n : nat)
  (blocks : list (list Z)) :
  Forall is_byte rk -> wf_state iv -> Forall wf_state blocks ->
  (AES_BLOCKLEN * length blocks = round_up n)%nat ->
  AES_CBC_encrypt_buffer v (Ctx rk iv) (concat blocks ++ rest) n
  = Ok (Ctx rk (last (cbc_chain (apply_transforms (schedule v) rk) iv blocks) iv),
        concat (cbc_chain (apply_transforms (schedule v) rk) iv blocks) ++ rest).
Proof.
  intros Hrk Hiv Hb Hn. unfold AES_CBC_encrypt_buffer. cbn [RoundKey Iv].
  pose proof (CBC_encrypt_loop_chain v rk rest n blocks Hrk [] iv n Hb Hiv
                (blocks_fuel n blocks Hn) Hn) as E.
  cbn [length app] in E. rewrite E, bind_Ok.
  rewrite memcpy_whole; [reflexivity | | apply Hiv].
  apply cbc_chain_wf; try assumption.
  intros s Hs. apply apply_transforms_wf; assumption.
Qed.

(** X12.  [AES_CBC_encrypt_buffer] chains the blocks: block [k] of the output
    is the encryption of block [k] of the input exclusive-ored with block
    [k - 1] of the output, or with the initial vector for [k = 0]; the last
    block written becomes the initial vector of the context; the bytes after
    the blocks are kept.  A [length] that is not a multiple of 16 counts as
    the next multiple. *)
Theorem CBC_encrypt_chains (v : variant) (ctx : AES_ctx) (blocks : list (list Z))
  (rest : list Z) (n : nat) :
  Forall is_byte (RoundKey ctx) -> wf_state (Iv ctx) -> Forall wf_state blocks ->
  (AES_BLOCKLEN * length blocks = round_up n)%nat ->
  let enc := apply_transforms (schedule v) (RoundKey ctx) in
  (forall s, wf_state s -> Cipher v s (RoundKey ctx) = Ok (enc s))
  /\ AES_CBC_encrypt_buffer v ctx (concat blocks ++ rest) n
     = Ok (Ctx (RoundKey ctx) (last (cbc_chain enc (Iv ctx) blocks) (Iv ctx)),
           concat (cbc_chain enc (Iv ctx) blocks) ++ rest).
Proof.
  intros Hrk Hiv Hb Hn enc. split.
  - intros s Hs. apply Cipher_unchecked; assumption.
  - destruct ctx as [rk iv]. apply CBC_encrypt_buffer_chain; assumption.
Qed.

Lemma CBC_encrypt_chains_witness :
  (Forall is_byte (RoundKey nist_ctx) /\ wf_state (Iv nist_ctx)
   /\ Forall wf_state (firstn 2 nist_plain)
   /\ (AES_BLOCKLEN * length (firstn 2 nist_plain) = round_up 17)%nat)
  /\ (forall s, wf_state s ->
        Cipher AES128 s (RoundKey nist_ctx)
        = Ok (apply_transforms (schedule AES128) (RoundKey nist_ctx) s))
  /\ AES_CBC_encrypt_buffer AES128 nist_ctx (concat (firstn 2 nist_plain) ++ [0x2a]) 17
     = Ok (Ctx (RoundKey nist_ctx)
             (last (cbc_chain (apply_transforms (schedule AES128) (RoundKey nist_ctx))
                      (Iv nist_ctx) (firstn 2 nist_plain)) (Iv nist_ctx)),
           concat (cbc_chain (apply_transforms (schedule AES128) (RoundKey nist_ctx))
                     (Iv nist_ctx) (firstn 2 nist_plain)) ++ [0x2a]).
Proof.
  assert (H1 : Forall is_byte (RoundKey nist_ctx))
    by (apply forallb_is_byte; vm_compute; reflexivity).
  assert (H2 : wf_state (Iv nist_ctx)) by (apply wf_state_dec; vm_compute; reflexivity).
  assert (H3 : Forall wf_state (firstn 2 nist_plain))
    by (change (firstn 2 nist_plain) with [nth 0 nist_plain []; nth 1 nist_plain []];
        repeat (apply Forall_cons; [apply wf_state_dec; vm_compute; reflexivity |]);
        apply Forall_nil).
  assert (H4 : (AES_BLOCKLEN * length (firstn 2 nist_plain) = round_up 17)%nat)
    by reflexivity.
  split; [split; [exact H1 | split; [exact H2 | split; [exact H3 | exact H4]]] |].
  exact (CBC_encrypt_chains AES128 nist_ctx (firstn 2 nist_plain) [0x2a] 17 H1 H2 H3 H4).
Defined.

(** X13.  What [AES_CBC_encrypt_buffer] has written, [AES_CBC_decrypt_buffer]
    run from the same context either turns back into the original buffer,
    leaving the context encryption left, or does not return: it never
    hands out a wrong plaintext. *)
Theorem CBC_decrypt_plaintext_or_exit (v : variant) (junk : nat -> hamstate_t)
  (ctx : AES_ctx) (blocks : list (list Z)) (rest : list Z) (n : nat) :
  Forall is_byte (RoundKey ctx) -> wf_state (Iv ctx) -> Forall wf_state blocks ->
  (AES_BLOCKLEN * length blocks = round_up n)%nat ->
  (forall k, length (junk k) = 16%nat) ->
  exists ctx' buf',
    AES_CBC_encrypt_buffer v ctx (concat blocks ++ rest) n = Ok (ctx', buf')
    /\ (AES_CBC_decrypt_buffer v junk ctx buf' n = Exit 2
        \/ AES_CBC_decrypt_buffer v junk ctx buf' n = Ok (ctx', concat blocks ++ rest)).
Proof.
  intros Hrk Hiv Hb Hn Hjunk. destruct ctx as [rk iv]. cbn [RoundKey Iv] in *.
  eexists _, _. split; [apply CBC_encrypt_buffer_chain; assumption |].
  unfold AES_CBC_decrypt_buffer.
  pose proof (CBC_decrypt_loop_chain v junk rk rest n blocks Hrk Hjunk [] iv n Hb Hiv
                (blocks_fuel n blocks Hn) Hn) as E.
  cbn [length app] in E. exact E.
Qed.

Lemma CBC_decrypt_plaintext_or_exit_witness :
  (Forall is_byte (RoundKey nist_ctx) /\ wf_state (Iv nist_ctx)
   /\ Forall wf_state (firstn 2 nist_plain)
   /\ (AES_BLOCKLEN * length (firstn 2 nist_plain) = round_up 32)%nat
   /\ (forall k : nat, length (repeat 0 16) = 16%nat))
  /\ exists ctx' buf',
       AES_CBC_encrypt_buffer AES128 nist_ctx (concat (firstn 2 nist_plain) ++ []) 32
       = Ok (ctx', buf')
       /\ (AES_CBC_decrypt_buffer AES128 (fun _ => repeat 0 16) nist_ctx buf' 32 = Exit 2
           \/ AES_CBC_decrypt_buffer AES128 (fun _ => repeat 0 16) nist_ctx buf' 32
              = Ok (ctx', concat (firstn 2 nist_plain) ++ [])).
Proof.
  assert (H1 : Forall is_byte (RoundKey nist_ctx))
    by (apply forallb_is_byte; vm_compute; reflexivity).
  assert (H2 : wf_state (Iv nist_ctx)) by (apply wf_state_dec; vm_compute; reflexivity).
  assert (H3 : Forall wf_state (firstn 2 nist_plain))
    by (change (firstn 2 nist_plain) with [nth 0 nist_plain []; nth 1 nist_plain []];
        repeat (apply Forall_cons; [apply wf_state_dec; vm_compute; reflexivity |]);
        apply Forall_nil).
  assert (H4 : (AES_BLOCKLEN * length (firstn 2 nist_plain) = round_up 32)%nat)
    by reflexivity.
  assert (H5 : forall k : nat, length (repeat 0 16) = 16%nat) by reflexivity.
  split; [split; [exact H1 | split; [exact H2 | split; [exact H3 | split; [exact H4 | exact H5]]]] |].
  exact (CBC_decrypt_plaintext_or_exit AES128 (fun _ => repeat 0 16) nist_ctx
           (firstn 2 nist_plain) [] 32 H1 H2 H3 H4 H5).
Defined.

(** ** A fault in a code *)

Lemma miscorrected_cell (x k : Z) :
  is_byte x -> 0 <= k < 8 ->
  SpecCorrector.corrected_byte x (hamming_encode x) (flip_bit (hamming_encode x) k) <> x
  /\ hamming_encode x <> flip_bit (hamming_encode x) k.
Proof.
  intros Hx Hk.
  assert (G : forall x k, is_byte x -> is_byte k ->
              (if k <? 8
               then negb (SpecCorrector.corrected_byte x (hamming_encode x)
                            (flip_bit (hamming_encode x) k) =? x)
                    && negb (hamming_encode x =? flip_bit (hamming_encode x) k)
               else true) = true)
    by (apply forall_bytes2; vm_compute; reflexivity).
  specialize (G x k Hx (bit_index_is_byte k Hk)).
  destruct (Z.ltb_spec k 8); [| lia].
  apply andb_true_iff in G. destruct G as [G1 G2].
  apply negb_true_iff, Z.eqb_neq in G1. apply negb_true_iff, Z.eqb_neq in G2.
  split; assumption.
Qed.

(** X14.  When the state is intact and one bit of one predicted code has
    flipped, [correct_state] takes the difference for a fault in the data
    and changes the intact cell; [compareCodes] ends the process. *)
Theorem code_fault_miscorrected (s : list Z) (c r : nat) (k : Z) :
  wf_state s -> (c < 4)%nat -> (r < 4)%nat -> 0 <= k < 8 ->
  let hamstate := encode_state s fresh_hamstate in
  let pcode := with_fault hamstate c r k in
  mget (correct_state s hamstate pcode) c r <> mget s c r
  /\ compareCodes s hamstate pcode = Exit 2.
Proof.
  intros Hs Hc Hr Hk hamstate pcode.
  assert (Eh : hamstate = map hamming_encode s)
    by (apply encode_state_map; [apply Hs | reflexivity]).
  assert (Hh : wf_state hamstate).
  { rewrite Eh. apply wf_state_map; [| exact Hs]. intros. apply hamming_encode_is_byte. }
  pose proof (with_fault_wf hamstate c r k Hh) as Hp. fold pcode in Hp.
  assert (Ep : mget pcode c r = flip_bit (hamming_encode (mget s c r)) k).
  { unfold pcode. rewrite mget_with_fault by (try apply Hh; assumption).
    rewrite Eh, mget_map_hamming. reflexivity. }
  destruct (miscorrected_cell (mget s c r) k (wf_state_cell s c r Hs) Hk) as [H1 H2].
  split.
  - rewrite correct_state_cells by assumption.
    rewrite mget_cells by (try apply Hs; assumption).
    rewrite Ep, Eh, mget_map_hamming. exact H1.
  - apply compareCodes_differ.
    apply (memcmp_differ hamstate pcode (4 * c + r)); [apply Hh | apply Hp | lia |].
    fold (mget hamstate c r). fold (mget pcode c r).
    rewrite Ep, Eh, mget_map_hamming. exact H2.
Qed.

Lemma code_fault_miscorrected_witness :
  (wf_state demo_state /\ (2 < 4)%nat /\ (1 < 4)%nat /\ 0 <= 2 < 8)
  /\ mget (correct_state demo_state (encode_state demo_state fresh_hamstate)
             (with_fault (encode_state demo_state fresh_hamstate) 2 1 2)) 2 1
     <> mget demo_state 2 1
  /\ compareCodes demo_state (encode_state demo_state fresh_hamstate)
       (with_fault (encode_state demo_state fresh_hamstate) 2 1 2) = Exit 2.
Proof.
  assert (H1 : wf_state demo_state) by (apply wf_state_dec; vm_compute; reflexivity).
  assert (H2 : (2 < 4)%nat) by lia.
  assert (H3 : (1 < 4)%nat) by lia.
  assert (H4 : 0 <= 2 < 8) by lia.
  split; [exact (conj H1 (conj H2 (conj H3 H4))) |].
  exact (code_fault_miscorrected demo_state 2 1 2 H1 H2 H3 H4).
Defined.

(** ** CBC and the length of the call *)

Lemma CBC_drivers_round_up (v : variant) (junk : nat -> hamstate_t) (ctx : AES_ctx)
  (buf : list Z) (length : nat) :
  AES_CBC_encrypt_buffer v ctx buf length
  = AES_CBC_encrypt_buffer v ctx buf (round_up length)
  /\ AES_CBC_decrypt_buffer v junk ctx buf length
     = AES_CBC_decrypt_buffer v junk ctx buf (round_up length).
Proof.
  destruct (round_up_fuel length) as [Hf E].
  pose proof (round_up_ge length) as Hge.
  split.
  - unfold AES_CBC_encrypt_buffer.
    rewrite (CBC_encrypt_loop_round_up v (RoundKey ctx) length
               (round_up length / AES_BLOCKLEN) length (round_up length)); auto; lia.
  - unfold AES_CBC_decrypt_buffer.
    apply (CBC_decrypt_loop_round_up v junk length (round_up length / AES_BLOCKLEN));
      auto; lia.
Qed.

(** The first thing [AES_CBC_decrypt_buffer] does with a length that is not
    0 is to run [InvCipher] on the first sixteen bytes. *)
Lemma CBC_decrypt_first_block (v : variant) (junk : nat -> hamstate_t) (ctx : AES_ctx)
  (buf : list Z) (length : nat) :
  (0 < length)%nat ->
  InvCipher v (junk 0%nat) (block_at buf 0) (RoundKey ctx) = Exit 2 ->
  AES_CBC_decrypt_buffer v junk ctx buf length = Exit 2.
Proof.
  intros Hl E. unfold AES_CBC_decrypt_buffer.
  destruct length as [| n]; [lia |].
  rewrite CBC_decrypt_loop_step by reflexivity.
  change (0 / AES_BLOCKLEN)%nat with 0%nat.
  rewrite E. apply bind_Exit.
Qed.

Lemma CBC_decrypt_buffer_chain (v : variant) (junk : nat -> hamstate_t)
  (rk iv rest : list Z) (n : nat) (blocks : list (list Z)) :
  Forall is_byte rk -> wf_state iv -> Forall wf_state blocks ->
  (forall k, List.length (junk k) = 16%nat) ->
  (AES_BLOCKLEN * List.length blocks = round_up n)%nat ->
  AES_CBC_decrypt_buffer v junk (Ctx rk iv)
    (concat (cbc_chain (apply_transforms (schedule v) rk) iv blocks) ++ rest) n
  = Exit 2
  \/ AES_CBC_decrypt_buffer v junk (Ctx rk iv)
       (concat (cbc_chain (apply_transforms (schedule v) rk) iv blocks) ++ rest) n
     = Ok (Ctx rk (last (cbc_chain (apply_transforms (schedule v) rk) iv blocks) iv),
           concat blocks ++ rest).
Proof.
  intros Hrk Hiv Hb Hjunk Hn. unfold AES_CBC_decrypt_buffer.
  pose proof (CBC_decrypt_loop_chain v junk rk rest n blocks Hrk Hjunk [] iv n Hb Hiv
                (blocks_fuel n blocks Hn) Hn) as E.
  cbn [List.length app] in E. exact E.
Qed.

(** C8, as the code has it.  Neither CBC driver tests the length: with a
    length whose next multiple of 16 is below 2^32, on a buffer that holds,
    whole, the blocks the length reaches into, each does what it does with
    the length rounded up.  [AES_CBC_encrypt_buffer] returns with every one
    of these blocks encrypted and chained, the last one too, and with the
    last cipher block stored as the [Iv].  [AES_CBC_decrypt_buffer] starts
    with [InvCipher] on the first sixteen bytes and ends the process when
    [InvCipher] does; on what the encryption wrote it ends the process or
    returns every original block whole. *)
Theorem CBC_length_rounded_up (v : variant) (junk : nat -> hamstate_t) (ctx : AES_ctx)
  (blocks : list (list Z)) (rest : list Z) (length : nat) :
  Forall is_byte (RoundKey ctx) -> wf_state (Iv ctx) -> Forall wf_state blocks ->
  (forall k, List.length (junk k) = 16%nat) ->
  (AES_BLOCKLEN * List.length blocks = round_up length)%nat ->
  Z.of_nat (round_up length) < 2 ^ 32 ->
  let enc := apply_transforms (schedule v) (RoundKey ctx) in
  let buf := concat blocks ++ rest in
  let buf' := concat (cbc_chain enc (Iv ctx) blocks) ++ rest in
  let ctx' := Ctx (RoundKey ctx) (last (cbc_chain enc (Iv ctx) blocks) (Iv ctx)) in
  (forall s, wf_state s -> Cipher v s (RoundKey ctx) = Ok (enc s))
  /\ AES_CBC_encrypt_buffer v ctx buf length = Ok (ctx', buf')
  /\ (forall b, (round_up length <= List.length b)%nat ->
                AES_CBC_encrypt_buffer v ctx b length
                = AES_CBC_encrypt_buffer v ctx b (round_up length))
  /\ (forall b, (round_up length <= List.length b)%nat ->
                AES_CBC_decrypt_buffer v junk ctx b length
                = AES_CBC_decrypt_buffer v junk ctx b (round_up length))
  /\ (forall b, (round_up length <= List.length b)%nat -> (0 < length)%nat ->
                InvCipher v (junk 0%nat) (block_at b 0) (RoundKey ctx) = Exit 2 ->
                AES_CBC_decrypt_buffer v junk ctx b length = Exit 2)
  /\ (AES_CBC_decrypt_buffer v junk ctx buf' length = Exit 2
      \/ AES_CBC_decrypt_buffer v junk ctx buf' length = Ok (ctx', buf)).
Proof.
  intros Hrk Hiv Hb Hjunk Hn _ enc buf buf' ctx'.
  split; [intros s Hs; apply Cipher_unchecked; assumption |].
  split.
  { unfold ctx', buf', buf, enc. destruct ctx as [rk iv].
    apply CBC_encrypt_buffer_chain; assumption. }
  split; [intros b _; apply (CBC_drivers_round_up v junk ctx b length) |].
  split; [intros b _; apply (CBC_drivers_round_up v junk ctx b length) |].
  split; [intros b _; apply CBC_decrypt_first_block |].
  unfold ctx', buf', buf, enc. destruct ctx as [rk iv].
  apply CBC_decrypt_buffer_chain; assumption.
Qed.

Lemma CBC_length_rounded_up_witness :
  (Forall is_byte (RoundKey nist_ctx) /\ wf_state (Iv nist_ctx)
   /\ Forall wf_state (firstn 2 nist_plain)
   /\ (forall k : nat, List.length (repeat 0 16) = 16%nat)
   /\ (AES_BLOCKLEN * List.length (firstn 2 nist_plain) = round_up 17)%nat
   /\ Z.of_nat (round_up 17) < 2 ^ 32)
  /\ (forall s, wf_state s ->
        Cipher AES128 s (RoundKey nist_ctx)
        = Ok (apply_transforms (schedule AES128) (RoundKey nist_ctx) s))
  /\ AES_CBC_encrypt_buffer AES128 nist_ctx (concat (firstn 2 nist_plain) ++ [0x2a]) 17
     = Ok (Ctx (RoundKey nist_ctx)
             (last (cbc_chain (apply_transforms (schedule AES128) (RoundKey nist_ctx))
                      (Iv nist_ctx) (firstn 2 nist_plain)) (Iv nist_ctx)),
           concat (cbc_chain (apply_transforms (schedule AES128) (RoundKey nist_ctx))
                     (Iv nist_ctx) (firstn 2 nist_plain)) ++ [0x2a])
  /\ (forall b, (round_up 17 <= List.length b)%nat ->
                AES_CBC_encrypt_buffer AES128 nist_ctx b 17
                = AES_CBC_encrypt_buffer AES128 nist_ctx b (round_up 17))
  /\ (forall b, (round_up 17 <= List.length b)%nat ->
                AES_CBC_decrypt_buffer AES128 (fun _ => repeat 0 16) nist_ctx b 17
                = AES_CBC_decrypt_buffer AES128 (fun _ => repeat 0 16) nist_ctx b
                    (round_up 17))
  /\ (forall b, (round_up 17 <= List.length b)%nat -> (0 < 17)%nat ->
                InvCipher AES128 (repeat 0 16) (block_at b 0) (RoundKey nist_ctx) = Exit 2 ->
                AES_CBC_decrypt_buffer AES128 (fun _ => repeat 0 16) nist_ctx b 17
                = Exit 2)
  /\ (AES_CBC_decrypt_buffer AES128 (fun _ => repeat 0 16) nist_ctx
        (concat (cbc_chain (apply_transforms (schedule AES128) (RoundKey nist_ctx))
                   (Iv nist_ctx) (firstn 2 nist_plain)) ++ [0x2a]) 17
      = Exit 2
      \/ AES_CBC_decrypt_buffer AES128 (fun _ => repeat 0 16) nist_ctx
           (concat (cbc_chain (apply_transforms (schedule AES128) (RoundKey nist_ctx))
                      (Iv nist_ctx) (firstn 2 nist_plain)) ++ [0x2a]) 17
         = Ok (Ctx (RoundKey nist_ctx)
                 (last (cbc_chain (apply_transforms (schedule AES128) (RoundKey nist_ctx))
                          (Iv nist_ctx) (firstn 2 nist_plain)) (Iv nist_ctx)),
               concat (firstn 2 nist_plain) ++ [0x2a])).
Proof.
  assert (H1 : Forall is_byte (RoundKey nist_ctx))
    by (apply forallb_is_byte; vm_compute; reflexivity).
  assert (H2 : wf_state (Iv nist_ctx)) by (apply wf_state_dec; vm_compute; reflexivity).
  assert (H3 : Forall wf_state (firstn 2 nist_plain))
    by (change (firstn 2 nist_plain) with [nth 0 nist_plain []; nth 1 nist_plain []];
        repeat (apply Forall_cons; [apply wf_state_dec; vm_compute; reflexivity |]);
        apply Forall_nil).
  assert (H4 : forall k : nat, List.length (repeat 0 16) = 16%nat) by reflexivity.
  assert (H5 : (AES_BLOCKLEN * List.length (firstn 2 nist_plain) = round_up 17)%nat)
    by reflexivity.
  assert (H6 : Z.of_nat (round_up 17) < 2 ^ 32)
    by (change (round_up 17) with 32%nat; lia).
  split; [exact (conj H1 (conj H2 (conj H3 (conj H4 (conj H5 H6))))) |].
  exact (CBC_length_rounded_up AES128 (fun _ => repeat 0 16) nist_ctx
           (firstn 2 nist_plain) [0x2a] 17 H1 H2 H3 H4 H5 H6).
Defined.

(** C8, as stated, fails.  Called with length 1 on the first NIST plaintext
    block and a zero [Iv], [AES_CBC_encrypt_buffer] is not rejected: it
    encrypts the whole block in place and stores the ciphertext as the new
    [Iv]. *)
Lemma CBC_one_byte_not_rejected :
  (1 mod 16 <> 0)%nat
  /\ AES_CBC_encrypt_buffer AES128 nist_ctx (nth 0 nist_plain []) 1
     = Ok (Ctx (RoundKey nist_ctx) (nth 0 nist_cipher []), nth 0 nist_cipher [])
  /\ nth 0 nist_cipher [] <> nth 0 nist_plain []
  /\ nth 0 nist_cipher [] <> Iv nist_ctx.
Proof.
  split; [discriminate |].
  split; [vm_compute; reflexivity |].
  split; vm_compute; discriminate.
Qed.
